(** * PIILeakTest: detection and assertion engine

    A shallow embedding of the detection-and-assertion core of
    [piileaktest] (value pattern matchers, Luhn validator, entropy scorer,
    policy assertions, lineage cycle detection) together with the
    properties stated about it.

    Conventions of the embedding.
    - A Python [str] is a [string]; a character is a code point in
      U+0000..U+00FF.  The character predicates below are Python's Unicode
      predicates restricted to that range.
    - A Python [set] is a [gset]; a [dict] whose iteration order is observed
      is an association list in insertion order.
    - A raised [ValueError] is the [None] of [option]. *)

From Stdlib Require Import Ascii String DecimalString.
From stdpp Require Import base decidable option list gmap strings.
From Stdlib Require Import ZArith Lia Reals Lra.

Local Open Scope string_scope.
Local Open Scope nat_scope.

(** ** Code points and Python's character predicates *)

Definition code (c : ascii) : N := N_of_ascii c.

Definition in_range (lo hi c : ascii) : bool :=
  ((code lo <=? code c) && (code c <=? code hi))%N.

Definition chr_eqb (a c : ascii) : bool := (code a =? code c)%N.

(** [str.isspace] on one character, also the class [\s] of [re]:
    TAB..CR, FS..US, space, NEL and NBSP. *)
Definition is_space (c : ascii) : bool :=
  let n := code c in
  (((9 <=? n) && (n <=? 13)) || ((28 <=? n) && (n <=? 32))
   || (n =? 133) || (n =? 160))%N.

(** The class [\d] of [re] and the characters [int] accepts. *)
Definition is_decimal (c : ascii) : bool := in_range "0" "9" c.

(** [str.isdigit] on one character: the decimal digits and the superscript
    digits U+00B2, U+00B3, U+00B9. *)
Definition is_digit (c : ascii) : bool :=
  let n := code c in
  (is_decimal c || (n =? 178) || (n =? 179) || (n =? 185))%N.

Definition is_ascii_alpha (c : ascii) : bool :=
  in_range "a" "z" c || in_range "A" "Z" c.

(** The class [\w] of [re]: [str.isalnum] or the underscore. *)
Definition is_word (c : ascii) : bool :=
  let n := code c in
  (is_ascii_alpha c || is_digit c || chr_eqb "_" c
   || (n =? 170) || (n =? 181) || (n =? 186)
   || ((188 <=? n) && (n <=? 190))
   || ((192 <=? n) && (n <=? 214))
   || ((216 <=? n) && (n <=? 246))
   || (248 <=? n))%N.

(** The class [[a-fA-F0-9]]. *)
Definition is_hex (c : ascii) : bool :=
  in_range "a" "f" c || in_range "A" "F" c || in_range "0" "9" c.

Definition newline : ascii := "010"%char.

(** ** Python string operations *)

Fixpoint str_all (p : ascii → bool) (s : string) : bool :=
  match s with
  | EmptyString => true
  | String c s' => p c && str_all p s'
  end.

Fixpoint str_any (p : ascii → bool) (s : string) : bool :=
  match s with
  | EmptyString => false
  | String c s' => p c || str_any p s'
  end.

Fixpoint str_filter (p : ascii → bool) (s : string) : string :=
  match s with
  | EmptyString => EmptyString
  | String c s' => if p c then String c (str_filter p s') else str_filter p s'
  end.

(** [c in s] for a one-character [c]. *)
Definition contains_chr (c : ascii) (s : string) : bool := str_any (chr_eqb c) s.

(** [sub in s] for an arbitrary substring. *)
Fixpoint contains_sub (sub s : string) : bool :=
  String.prefix sub s ||
  match s with
  | EmptyString => false
  | String _ s' => contains_sub sub s'
  end.

Definition is_empty (s : string) : bool :=
  match s with EmptyString => true | _ => false end.

Fixpoint lstrip (s : string) : string :=
  match s with
  | String c s' => if is_space c then lstrip s' else s
  | EmptyString => EmptyString
  end.

Fixpoint rstrip (s : string) : string :=
  match s with
  | EmptyString => EmptyString
  | String c s' =>
      let r := rstrip s' in
      if is_space c && is_empty r then EmptyString else String c r
  end.

(** [s.strip()] *)
Definition strip (s : string) : string := rstrip (lstrip s).

(** [s.isdigit()]: every character is a digit and there is at least one. *)
Definition isdigit (s : string) : bool := negb (is_empty s) && str_all is_digit s.

(** ** Regular expressions

    The fragment of [re] the patterns of the package use.  [re.match]
    anchors at position 0, so a leading [^] is vacuous and is left out of the
    syntax trees; [Dollar] is Python's [$]: the end of the string, or just
    before a newline that ends the string. *)

Inductive regex : Type :=
| Eps
| Chr (p : ascii → bool)
| Cat (r1 r2 : regex)
| Alt (r1 r2 : regex)
| Rep (r : regex) (lo : nat) (hi : option nat)
| Dollar.

Definition at_dollar (s : string) : bool :=
  match s with
  | EmptyString => true
  | String c EmptyString => chr_eqb newline c
  | _ => false
  end.

Definition hi_pred (hi : option nat) : option nat := Nat.pred <$> hi.

Definition hi_open (hi : option nat) : bool :=
  match hi with Some 0 => false | _ => true end.

(** The loop of a repetition [r{lo,hi}], [step] being the matcher of its
    body: stop here when [lo] iterations are done, or run the body once more
    when [hi] allows it.  [fuel] bounds the number of iterations. *)
Fixpoint rep_loop (step : string → (string → bool) → bool) (k : string → bool)
    (fuel lo : nat) (hi : option nat) (s : string) {struct fuel} : bool :=
  match fuel with
  | O => false
  | S fuel' =>
      (match lo with O => k s | S _ => false end)
      || (hi_open hi
          && step s (λ s', rep_loop step k fuel' (Nat.pred lo) (hi_pred hi) s'))
  end.

(** [accept r s k]: some way of matching [r] at the front of [s] leaves a
    rest that [k] accepts.  A backtracking matcher finds a match exactly
    when one exists, so this decides what [pattern.match(s)] returns for the
    patterns below (the body of every repetition consumes a character, so
    [lo + len(s) + 1] iterations are never exceeded). *)
Fixpoint accept (r : regex) (s : string) (k : string → bool) {struct r} : bool :=
  match r with
  | Eps => k s
  | Chr p =>
      match s with
      | String c s' => p c && k s'
      | EmptyString => false
      end
  | Cat r1 r2 => accept r1 s (λ s', accept r2 s' k)
  | Alt r1 r2 => accept r1 s k || accept r2 s k
  | Rep r' lo hi => rep_loop (accept r') k (S (lo + String.length s)) lo hi s
  | Dollar => at_dollar s && k s
  end.

(** [bool(pattern.match(s))] *)
Definition re_match (r : regex) (s : string) : bool := accept r s (λ _, true).

(** Pattern-building shorthands. *)
Definition lit (c : ascii) : regex := Chr (chr_eqb c).
Definition star (r : regex) : regex := Rep r 0 None.
Definition plus (r : regex) : regex := Rep r 1 None.
Definition opt (r : regex) : regex := Rep r 0 (Some 1).
Definition times (n : nat) (r : regex) : regex := Rep r n (Some n).
Definition between (lo hi : nat) (r : regex) : regex := Rep r lo (Some hi).
Definition at_least (lo : nat) (r : regex) : regex := Rep r lo None.
Definition digit : regex := Chr is_decimal.
Definition any_chr : regex := Chr (λ c, negb (chr_eqb newline c)).

Fixpoint seq (rs : list regex) : regex :=
  match rs with
  | [] => Eps
  | [r] => r
  | r :: rs' => Cat r (seq rs')
  end.

Fixpoint alts (rs : list regex) : regex :=
  match rs with
  | [] => Chr (λ _, false)
  | [r] => r
  | r :: rs' => Alt r (alts rs')
  end.

(** ** Data model ([models.py]) *)

Inductive PIIType : Type :=
| EMAIL | PHONE | SSN | CREDIT_CARD | IP_ADDRESS | PASSPORT | DOB
| ZIP_CODE | FULL_NAME | ACCOUNT_NUMBER | HIGH_ENTROPY_TOKEN.

Inductive Severity : Type := CRITICAL | HIGH | MEDIUM | LOW | INFO.

Inductive MaskingType : Type :=
| PLAINTEXT | PARTIAL_MASK | FULL_MASK | HASH | TOKENIZED.

#[global] Instance PIIType_eq_dec : EqDecision PIIType.
Proof. solve_decision. Defined.
#[global] Instance Severity_eq_dec : EqDecision Severity.
Proof. solve_decision. Defined.
#[global] Instance MaskingType_eq_dec : EqDecision MaskingType.
Proof. solve_decision. Defined.

Definition PIIType_to_nat (t : PIIType) : nat :=
  match t with
  | EMAIL => 0 | PHONE => 1 | SSN => 2 | CREDIT_CARD => 3 | IP_ADDRESS => 4
  | PASSPORT => 5 | DOB => 6 | ZIP_CODE => 7 | FULL_NAME => 8
  | ACCOUNT_NUMBER => 9 | HIGH_ENTROPY_TOKEN => 10
  end.

Definition PIIType_of_nat (n : nat) : option PIIType :=
  match n with
  | 0 => Some EMAIL | 1 => Some PHONE | 2 => Some SSN | 3 => Some CREDIT_CARD
  | 4 => Some IP_ADDRESS | 5 => Some PASSPORT | 6 => Some DOB
  | 7 => Some ZIP_CODE | 8 => Some FULL_NAME | 9 => Some ACCOUNT_NUMBER
  | 10 => Some HIGH_ENTROPY_TOKEN | _ => None
  end.

#[global] Instance PIIType_countable : Countable PIIType.
Proof.
  apply (inj_countable PIIType_to_nat PIIType_of_nat).
  intros []; reflexivity.
Defined.

(** The [.value] of the string-valued enumerations. *)
Definition pii_value (t : PIIType) : string :=
  match t with
  | EMAIL => "email" | PHONE => "phone" | SSN => "ssn"
  | CREDIT_CARD => "credit_card" | IP_ADDRESS => "ip_address"
  | PASSPORT => "passport" | DOB => "dob" | ZIP_CODE => "zip_code"
  | FULL_NAME => "full_name" | ACCOUNT_NUMBER => "account_number"
  | HIGH_ENTROPY_TOKEN => "high_entropy_token"
  end.

Definition severity_value (s : Severity) : string :=
  match s with
  | CRITICAL => "CRITICAL" | HIGH => "HIGH" | MEDIUM => "MEDIUM"
  | LOW => "LOW" | INFO => "INFO"
  end.

Record Finding : Type := mkFinding {
  f_dataset : string;
  f_column : string;
  f_pii_type : PIIType;
  f_masking_type : MaskingType;
  f_row_index : option nat;
  f_redacted_sample : option string;
  f_count : nat;
  f_severity : Severity;
  f_message : string
}.

Record DatasetPolicy : Type := mkDatasetPolicy {
  p_name : string;
  p_path : string;
  p_format : string;
  allowed_pii_types : list PIIType;
  forbidden_pii_types : list PIIType;
  masking_required_for : list PIIType;
  hash_allowed_for : list PIIType
}.

Record LineageEdge : Type := mkLineageEdge {
  e_source : string;
  e_target : string
}.

Record ThresholdConfig : Type := mkThresholdConfig {
  max_violations_to_show : Z;
  fail_on_severity : list Severity
}.

Record SuiteConfig : Type := mkSuiteConfig {
  datasets : list DatasetPolicy;
  lineage : list LineageEdge;
  thresholds : ThresholdConfig
}.

Record AssertionResult : Type := mkAssertionResult {
  assertion_type : string;
  r_dataset : string;
  passed : bool;
  findings : list Finding;
  r_message : string;
  r_severity : Severity
}.

Record SuiteResult : Type := mkSuiteResult {
  suite_name : string;
  total_datasets : nat;
  total_assertions : nat;
  passed_assertions : nat;
  failed_assertions : nat;
  assertion_results : list AssertionResult;
  overall_passed : bool
}.

(** [SuiteResult.should_fail_ci] *)
Definition should_fail_ci (self : SuiteResult) : bool :=
  let critical_high_failures :=
    filter (λ ar, negb (passed ar) = true
                  ∧ r_severity ar ∈ [CRITICAL; HIGH])
           (assertion_results self) in
  bool_decide (0 < length critical_high_failures).

(** ** Value pattern matchers ([detectors/value_patterns.py]) *)

(** [^[a-fA-F0-9]{32,64}$], the [hash_pattern] every matcher that has one
    compiles. *)
Definition hash_pattern : regex := seq [between 32 64 (Chr is_hex); Dollar].

(** The capability set of [PatternMatcher]. *)
Record PatternMatcher : Type := mkMatcher {
  pii_type : PIIType;
  matches : string → bool;
  detect_masking : string → MaskingType
}.

Module EmailMatcher.
(** [^[a-zA-Z0-9._%+-]+@[a-zA-Z0-9.-]+\.[a-zA-Z]{2,}$] *)
Definition local_chr (c : ascii) : bool :=
  is_ascii_alpha c || is_decimal c || chr_eqb "." c || chr_eqb "_" c
  || chr_eqb "%" c || chr_eqb "+" c || chr_eqb "-" c.
Definition domain_chr (c : ascii) : bool :=
  is_ascii_alpha c || is_decimal c || chr_eqb "." c || chr_eqb "-" c.
Definition pattern : regex :=
  seq [plus (Chr local_chr); lit "@"; plus (Chr domain_chr); lit ".";
       at_least 2 (Chr is_ascii_alpha); Dollar].
(** [\*+@.*\.\w+] *)
Definition masked_pattern : regex :=
  seq [plus (lit "*"); lit "@"; star any_chr; lit "."; plus (Chr is_word)].

Definition matches (value : string) : bool :=
  let value := strip value in
  re_match pattern value || re_match masked_pattern value.

Definition detect_masking (value : string) : MaskingType :=
  if re_match hash_pattern value then HASH
  else if contains_chr "*" value then PARTIAL_MASK
  else if re_match pattern value then PLAINTEXT
  else PLAINTEXT.
End EmailMatcher.

Module PhoneMatcher.
Definition patterns : list regex :=
  [ (* ^\d{3}-\d{3}-\d{4}$ *)
    seq [times 3 digit; lit "-"; times 3 digit; lit "-"; times 4 digit; Dollar];
    (* ^\(\d{3}\)\s*\d{3}-\d{4}$ *)
    seq [lit "("; times 3 digit; lit ")"; star (Chr is_space);
         times 3 digit; lit "-"; times 4 digit; Dollar];
    (* ^\d{10}$ *)
    seq [times 10 digit; Dollar];
    (* ^\+1\d{10}$ *)
    seq [lit "+"; lit "1"; times 10 digit; Dollar] ].
Definition masked_patterns : list regex :=
  [ (* \*+.*\d{4} *)
    seq [plus (lit "*"); star any_chr; times 4 digit];
    (* \(\*+\).*\d{4} *)
    seq [lit "("; plus (lit "*"); lit ")"; star any_chr; times 4 digit] ].

Definition matches (value : string) : bool :=
  let value := strip value in
  existsb (λ p, re_match p value) patterns
  || existsb (λ p, re_match p value) masked_patterns.

Definition detect_masking (value : string) : MaskingType :=
  if re_match hash_pattern value then HASH
  else if contains_chr "*" value then PARTIAL_MASK
  else if existsb (λ p, re_match p value) patterns then PLAINTEXT
  else PLAINTEXT.
End PhoneMatcher.

Module SSNMatcher.
Definition mask_chr (c : ascii) : bool := chr_eqb "*" c || chr_eqb "X" c.
Definition patterns : list regex :=
  [ (* ^\d{3}-\d{2}-\d{4}$ *)
    seq [times 3 digit; lit "-"; times 2 digit; lit "-"; times 4 digit; Dollar];
    (* ^\d{9}$ *)
    seq [times 9 digit; Dollar] ].
Definition masked_patterns : list regex :=
  [ (* ^[\*X]{3}-[\*X]{2}-\d{4}$ *)
    seq [times 3 (Chr mask_chr); lit "-"; times 2 (Chr mask_chr); lit "-";
         times 4 digit; Dollar];
    (* ^[\*X]{5}\d{4}$ *)
    seq [times 5 (Chr mask_chr); times 4 digit; Dollar] ].

Definition matches (value : string) : bool :=
  let value := strip value in
  existsb (λ p, re_match p value) patterns
  || existsb (λ p, re_match p value) masked_patterns.

Definition detect_masking (value : string) : MaskingType :=
  if re_match hash_pattern value then HASH
  else if contains_chr "*" value || contains_chr "X" value then PARTIAL_MASK
  else if existsb (λ p, re_match p value) patterns then PLAINTEXT
  else PLAINTEXT.
End SSNMatcher.

Module IPAddressMatcher.
(** [(?:25[0-5]|2[0-4][0-9]|[01]?[0-9][0-9]?)] *)
Definition octet : regex :=
  alts [ seq [lit "2"; lit "5"; Chr (in_range "0" "5")];
         seq [lit "2"; Chr (in_range "0" "4"); digit];
         seq [opt (Chr (in_range "0" "1")); digit; opt digit] ].
Definition pattern : regex :=
  seq [times 3 (seq [octet; lit "."]); octet; Dollar].

Definition matches (value : string) : bool := re_match pattern (strip value).

Definition detect_masking (value : string) : MaskingType :=
  if re_match hash_pattern value then HASH
  else if contains_chr "*" value then PARTIAL_MASK
  else PLAINTEXT.
End IPAddressMatcher.

Module ZipCodeMatcher.
Definition patterns : list regex :=
  [ seq [times 5 digit; Dollar];
    seq [times 5 digit; lit "-"; times 4 digit; Dollar] ].

Definition matches (value : string) : bool :=
  existsb (λ p, re_match p (strip value)) patterns.

Definition detect_masking (value : string) : MaskingType := PLAINTEXT.
End ZipCodeMatcher.

Module DOBMatcher.
Definition patterns : list regex :=
  [ (* ^\d{4}-\d{2}-\d{2}$ *)
    seq [times 4 digit; lit "-"; times 2 digit; lit "-"; times 2 digit; Dollar];
    (* ^\d{2}/\d{2}/\d{4}$ *)
    seq [times 2 digit; lit "/"; times 2 digit; lit "/"; times 4 digit; Dollar];
    (* ^\d{2}-\d{2}-\d{4}$ *)
    seq [times 2 digit; lit "-"; times 2 digit; lit "-"; times 4 digit; Dollar] ].

Definition matches (value : string) : bool :=
  let value := strip value in
  existsb (λ p, re_match p value
                && (contains_sub "19" value || contains_sub "20" value))
          patterns.

Definition detect_masking (value : string) : MaskingType :=
  if contains_chr "*" value || contains_chr "X" value then PARTIAL_MASK
  else PLAINTEXT.
End DOBMatcher.

Module AccountNumberMatcher.
(** [^\d{8,16}$] and [^\*+\d{4}$] *)
Definition pattern : regex := seq [between 8 16 digit; Dollar].
Definition masked_pattern : regex := seq [plus (lit "*"); times 4 digit; Dollar].

Definition matches (value : string) : bool :=
  let value := strip value in
  re_match pattern value || re_match masked_pattern value.

Definition detect_masking (value : string) : MaskingType :=
  if re_match hash_pattern value then HASH
  else if contains_chr "*" value then PARTIAL_MASK
  else PLAINTEXT.
End AccountNumberMatcher.

(** The registry, in its declaration order. *)
Definition MATCHERS : list PatternMatcher :=
  [ mkMatcher EMAIL EmailMatcher.matches EmailMatcher.detect_masking;
    mkMatcher PHONE PhoneMatcher.matches PhoneMatcher.detect_masking;
    mkMatcher SSN SSNMatcher.matches SSNMatcher.detect_masking;
    mkMatcher IP_ADDRESS IPAddressMatcher.matches IPAddressMatcher.detect_masking;
    mkMatcher ZIP_CODE ZipCodeMatcher.matches ZipCodeMatcher.detect_masking;
    mkMatcher DOB DOBMatcher.matches DOBMatcher.detect_masking;
    mkMatcher ACCOUNT_NUMBER AccountNumberMatcher.matches
              AccountNumberMatcher.detect_masking ].

Definition detect_pii_in_value (value : string) : list (PIIType * MaskingType) :=
  if is_empty (strip value) then []
  else
    let value := strip value in
    omap (λ m, if matches m value
               then Some (pii_type m, detect_masking m value) else None)
         MATCHERS.

(** ** Luhn validator ([detectors/luhn.py]) *)

(** [int(d)] for a one-character string: [ValueError] unless [d] is a
    decimal digit. *)
Definition int_of_chr (c : ascii) : option nat :=
  if is_decimal c then Some (N.to_nat (code c - 48)) else None.

(** [str(n)] for a non-negative integer. *)
Definition str_of_nat (n : nat) : string :=
  NilEmpty.string_of_uint (Nat.to_uint n).

(** [digits_of(n)] = [[int(d) for d in str(n)]], on a string. *)
Definition digits_of (s : string) : option (list nat) :=
  mapM int_of_chr (list_ascii_of_string s).

Definition sum (l : list nat) : nat := foldl Nat.add 0 l.

(** Every second element, starting with the first. *)
Fixpoint every_other {A} (l : list A) : list A :=
  match l with
  | [] => []
  | [x] => [x]
  | x :: _ :: l' => x :: every_other l'
  end.

(** [digits[-1::-2]]: the last element, then every second one towards the
    front. *)
Definition slice_m1_m2 {A} (l : list A) : list A := every_other (rev l).
(** [digits[-2::-2]]: the same, starting at the last but one. *)
Definition slice_m2_m2 {A} (l : list A) : list A := every_other (tail (rev l)).

(** The loop [for d in even_digits: checksum += sum(digits_of(d * 2))]. *)
Fixpoint add_doubled (checksum : nat) (even_digits : list nat) : option nat :=
  match even_digits with
  | [] => Some checksum
  | d :: rest =>
      ds ← digits_of (str_of_nat (d * 2));
      add_doubled (checksum + sum ds) rest
  end.

Definition luhn_checksum (card_number : string) : option bool :=
  digits ← digits_of card_number;
  let odd_digits := slice_m1_m2 digits in
  let even_digits := slice_m2_m2 digits in
  checksum ← add_doubled (sum odd_digits) even_digits;
  Some (checksum mod 10 =? 0)%nat.

(** [re.sub(r'[\s\-]', '', value)] *)
Definition remove_separators (value : string) : string :=
  str_filter (λ c, negb (is_space c || chr_eqb "-" c)) value.

Definition is_credit_card (value : string) : option bool :=
  let cleaned := remove_separators value in
  if negb (isdigit cleaned)
     || (String.length cleaned <? 13)%nat || (19 <? String.length cleaned)%nat
  then Some false
  else luhn_checksum cleaned.

(** ['X' in value.upper()] *)
Definition contains_x_any_case (value : string) : bool :=
  contains_chr "X" value || contains_chr "x" value.

Definition detect_credit_card_masking (value : string) : option MaskingType :=
  if re_match hash_pattern value then Some HASH
  else if contains_chr "*" value || contains_x_any_case value
       then Some PARTIAL_MASK
  else
    match is_credit_card value with
    | Some true => Some PLAINTEXT
    | Some false => Some PLAINTEXT
    | None => None
    end.

(** ** Entropy detector ([detectors/entropy.py])

    The float arithmetic the entropy scorer needs.  [float] stands for
    Python's binary64 floats: [f_truediv a b] is the true division [a / b] of
    two integers, [f_log2] is [math.log2], [f_default_threshold] is the
    literal [4.5]. *)
Class PyFloat : Type := {
  float : Type;
  f_zero : float;
  f_default_threshold : float;
  f_truediv : nat → nat → float;
  f_log2 : float → float;
  f_mul : float → float → float;
  f_sub : float → float → float;
  f_geb : float → float → bool
}.

(** The binary64 facts the entropy of a one-symbol string depends on:
    [n / n == 1.0] for a positive integer [n], [log2(1.0) == 0.0],
    [1.0 * 0.0 == 0.0] and [0.0 - 0.0 == 0.0]. *)
Class PyFloatLaws (Fl : PyFloat) : Prop := {
  f_log2_one : ∀ n, 0 < n → f_log2 (f_truediv n n) = f_zero;
  f_mul_one_zero : ∀ n, 0 < n → f_mul (f_truediv n n) f_zero = f_zero;
  f_sub_zero_zero : f_sub f_zero f_zero = f_zero
}.

(** Ideal real-number arithmetic, an instance of the interface. *)
Definition RFloat : PyFloat := {|
  float := R;
  f_zero := 0%R;
  f_default_threshold := (9 / 2)%R;
  f_truediv := λ a b, (INR a / INR b)%R;
  f_log2 := λ x, (ln x / ln 2)%R;
  f_mul := Rmult;
  f_sub := Rminus;
  f_geb := λ a b, if Rle_dec b a then true else false
|}.

(** [freq[char] = freq.get(char, 0) + 1] on a dict in insertion order. *)
Fixpoint freq_incr (char : ascii) (freq : list (ascii * nat)) : list (ascii * nat) :=
  match freq with
  | [] => [(char, 0 + 1)]
  | (c, n) :: rest =>
      if chr_eqb c char then (c, n + 1) :: rest
      else (c, n) :: freq_incr char rest
  end.

Definition char_freq (data : string) : list (ascii * nat) :=
  foldl (λ freq char, freq_incr char freq) [] (list_ascii_of_string data).

Section Entropy.
Context {Fl : PyFloat}.

Definition calculate_shannon_entropy (data : string) : float :=
  if is_empty data then f_zero
  else
    let freq := char_freq data in
    let length := String.length data in
    foldl (λ entropy count,
             let probability := f_truediv count length in
             f_sub entropy (f_mul probability (f_log2 probability)))
          f_zero (freq.*2).

(** [^[a-zA-Z0-9_\-+=/.]{16,}$] *)
Definition token_chr (c : ascii) : bool :=
  is_ascii_alpha c || is_decimal c || chr_eqb "_" c || chr_eqb "-" c
  || chr_eqb "+" c || chr_eqb "=" c || chr_eqb "/" c || chr_eqb "." c.
Definition token_pattern : regex := seq [at_least 16 (Chr token_chr); Dollar].

Definition is_high_entropy_token_with (value : string) (threshold : float) : bool :=
  if (String.length value <? 16)%nat then false
  else if negb (re_match token_pattern value) then false
  else f_geb (calculate_shannon_entropy value) threshold.

(** The call with the default [threshold=4.5]. *)
Definition is_high_entropy_token (value : string) : bool :=
  is_high_entropy_token_with value f_default_threshold.
End Entropy.

(** ** Redaction ([utils/redaction.py])

    [None] is the [IndexError] of indexing an empty string. *)

Definition str_repeat (c : ascii) (n : nat) : string :=
  string_of_list_ascii (replicate n c).

(** [s[0]] *)
Definition first_chr (s : string) : option string :=
  match s with
  | String c _ => Some (String c EmptyString)
  | EmptyString => None
  end.

(** [s[-4:]] *)
Definition last4 (s : string) : string :=
  String.substring (String.length s - 4) 4 s.

(** [s.split(c, 1)] when [c] occurs in [s]: the text before and after the
    first [c]. *)
Fixpoint split_first (c : ascii) (s : string) : option (string * string) :=
  match s with
  | EmptyString => None
  | String d s' =>
      if chr_eqb c d then Some (EmptyString, s')
      else '(a, b) ← split_first c s'; Some (String d a, b)
  end.

Definition mask_string (s : string) : string :=
  if (String.length s <=? 1)%nat then str_repeat "*" (String.length s)
  else String.substring 0 1 s ++ str_repeat "*" (String.length s - 1).

Definition redact_email (email : string) : option string :=
  match split_first "@" email with
  | None => Some (mask_string email)
  | Some (local, domain) =>
      match split_first "." domain with
      | Some (domain_name, domain_ext) =>
          l0 ← first_chr local;
          d0 ← first_chr domain_name;
          Some (l0 ++ "***@" ++ d0 ++ "***." ++ domain_ext)
      | None =>
          l0 ← first_chr local;
          d0 ← first_chr domain;
          Some (l0 ++ "***@" ++ d0 ++ "***")
      end
  end.

Definition redact_ssn (ssn : string) : string :=
  if (4 <=? String.length ssn)%nat then "***-**-" ++ last4 ssn else "***".

Definition redact_phone (phone : string) : string :=
  let digits := str_filter is_decimal phone in
  if (4 <=? String.length digits)%nat then "(***) ***-" ++ last4 digits else "***".

Definition redact_credit_card (card : string) : string :=
  let digits := str_filter is_decimal card in
  if (4 <=? String.length digits)%nat then "****" ++ last4 digits else "****".

(** [redact_value(value, pii_type.value)]; the values of [PIIType] are in
    lower case already, so [.lower()] leaves them as they are. *)
Definition redact_value (value : string) (pii_type : string) : option string :=
  if String.eqb pii_type "email" then redact_email value
  else if String.eqb pii_type "ssn" then Some (redact_ssn value)
  else if String.eqb pii_type "phone" then Some (redact_phone value)
  else if String.eqb pii_type "credit_card" then Some (redact_credit_card value)
  else Some (mask_string value).

(** ** Policy assertions ([assertions/])

    A [DataFrame] is its columns in order, each a name and its cells in row
    order; a cell is [None] when [pd.isna] holds of it and otherwise the
    [str()] of its value.  The row label of a cell is its position. *)

Definition DataFrame : Type := list (string * list (option string)).

(** One recorded violation: [(idx, value_str, masking_type)]. *)
Definition Violation : Type := nat * string * MaskingType.

(** [col_findings], a dict from [PIIType] to the violations recorded for it,
    in insertion order. *)
Definition ColFindings : Type := list (PIIType * list Violation).

Fixpoint dict_get (t : PIIType) (d : ColFindings) : option (list Violation) :=
  match d with
  | [] => None
  | (t', l) :: rest => if decide (t' = t) then Some l else dict_get t rest
  end.

(** [d[t] = l]: in place when the key exists, at the end otherwise. *)
Fixpoint dict_set (t : PIIType) (l : list Violation) (d : ColFindings) : ColFindings :=
  match d with
  | [] => [(t, l)]
  | (t', l') :: rest =>
      if decide (t' = t) then (t', l) :: rest else (t', l') :: dict_set t l rest
  end.

(** The recording step all assertions share:
[[
    if pii_type not in col_findings:
        col_findings[pii_type] = []
    if len(col_findings[pii_type]) < max_violations:
        col_findings[pii_type].append(violation)
]] *)
Definition record (max_violations : Z) (t : PIIType) (v : Violation)
    (col_findings : ColFindings) : ColFindings :=
  let col_findings :=
    match dict_get t col_findings with
    | None => dict_set t [] col_findings
    | Some _ => col_findings
    end in
  match dict_get t col_findings with
  | Some l =>
      if (Z.of_nat (length l) <? max_violations)%Z
      then dict_set t (l ++ [v]) col_findings
      else col_findings
  | None => col_findings
  end.

(** [max(severities, default=Severity.INFO)]: [Severity] mixes in [str], so
    the members compare as their string values; [max] keeps the first of
    several largest elements. *)
Definition severity_gt (a b : Severity) : bool :=
  String.ltb (severity_value b) (severity_value a).

Definition max_severity (l : list Severity) : Severity :=
  match l with
  | [] => INFO
  | s :: rest => foldl (λ m x, if severity_gt x m then x else m) s rest
  end.

Definition total_count (fs : list Finding) : nat := sum (f_count <$> fs).

(** The acceptability check of the masking assertion:
[[
    is_violation = False
    if masking_type == MaskingType.PLAINTEXT:
        is_violation = True
    elif masking_type == MaskingType.HASH:
        if pii_type not in hash_allowed:
            is_violation = True
]] *)
Definition is_violation (hash_allowed : gset PIIType) (t : PIIType)
    (masking_type : MaskingType) : bool :=
  if decide (masking_type = PLAINTEXT) then true
  else if decide (masking_type = HASH)
       then (if decide (t ∉ hash_allowed) then true else false)
  else false.

Section Assertions.
Context {Fl : PyFloat}.

(** *** [assert_no_forbidden_pii] *)

Definition forbidden_scan_cell (forbidden_types : gset PIIType)
    (max_violations : Z) (idx : nat) (value : option string)
    (col_findings : ColFindings) : option ColFindings :=
  match value with
  | None => Some col_findings
  | Some value =>
      let value_str := strip value in
      if is_empty value_str then Some col_findings
      else
        let detected := detect_pii_in_value value_str in
        let col_findings :=
          foldl (λ cf '(t, masking_type),
                   if decide (t ∈ forbidden_types)
                   then record max_violations t (idx, value_str, masking_type) cf
                   else cf)
                col_findings detected in
        col_findings ←
          (if decide (CREDIT_CARD ∈ forbidden_types) then
             is_cc ← is_credit_card value_str;
             if is_cc : bool then
               masking_type ← detect_credit_card_masking value_str;
               Some (record max_violations CREDIT_CARD
                            (idx, value_str, masking_type) col_findings)
             else Some col_findings
           else Some col_findings);
        Some (if decide (HIGH_ENTROPY_TOKEN ∈ forbidden_types)
              then if is_high_entropy_token value_str
                   then record max_violations HIGH_ENTROPY_TOKEN
                               (idx, value_str, PLAINTEXT) col_findings
                   else col_findings
              else col_findings)
  end.

(** The loop over the cells of one column, [idx] being the label of the
    first remaining one. *)
Fixpoint scan_rows (scan_cell : nat → option string → ColFindings → option ColFindings)
    (idx : nat) (cells : list (option string)) (col_findings : ColFindings)
    : option ColFindings :=
  match cells with
  | [] => Some col_findings
  | value :: rest =>
      col_findings ← scan_cell idx value col_findings;
      scan_rows scan_cell (S idx) rest col_findings
  end.

(** The loop that turns the buckets of a column into findings. *)
Fixpoint to_findings (mk : PIIType → list Violation → Violation → option Finding)
    (col_findings : ColFindings) : option (list Finding) :=
  match col_findings with
  | [] => Some []
  | (t, violations) :: rest =>
      match violations with
      | [] => to_findings mk rest
      | first_violation :: _ =>
          finding ← mk t violations first_violation;
          findings ← to_findings mk rest;
          Some (finding :: findings)
      end
  end.

(** The loop over the columns. *)
Fixpoint scan_columns (scan_cell : nat → option string → ColFindings → option ColFindings)
    (mk : string → PIIType → list Violation → Violation → option Finding)
    (df : DataFrame) : option (list Finding) :=
  match df with
  | [] => Some []
  | (col, cells) :: rest =>
      col_findings ← scan_rows scan_cell 0 cells [];
      here ← to_findings (mk col) col_findings;
      later ← scan_columns scan_cell mk rest;
      Some (here ++ later)%list
  end.

Definition forbidden_finding (policy : DatasetPolicy) (col : string)
    (t : PIIType) (violations : list Violation) (first_violation : Violation)
    : option Finding :=
  sample ← redact_value first_violation.1.2 (pii_value t);
  Some {| f_dataset := p_name policy;
          f_column := col;
          f_pii_type := t;
          f_masking_type := first_violation.2;
          f_row_index := Some first_violation.1.1;
          f_redacted_sample := Some sample;
          f_count := length violations;
          f_severity := CRITICAL;
          f_message := "Forbidden PII type '" ++ pii_value t
                       ++ "' found in column '" ++ col ++ "' ("
                       ++ str_of_nat (length violations) ++ " occurrence(s))" |}.

Definition assert_no_forbidden_pii (df : DataFrame) (policy : DatasetPolicy)
    (max_violations : Z) : option AssertionResult :=
  let forbidden_types : gset PIIType := list_to_set (forbidden_pii_types policy) in
  if decide (forbidden_types = ∅) then
    Some {| assertion_type := "no_forbidden_pii";
            r_dataset := p_name policy;
            passed := true;
            findings := [];
            r_message := "No forbidden PII types specified in policy";
            r_severity := INFO |}
  else
    findings ← scan_columns (forbidden_scan_cell forbidden_types max_violations)
                            (forbidden_finding policy) df;
    let passed := bool_decide (length findings = 0) in
    let severity := if negb passed then CRITICAL else INFO in
    let message :=
      if passed then "PASS: No forbidden PII detected in " ++ p_name policy
      else "FAIL: " ++ p_name policy ++ " contains "
           ++ str_of_nat (length findings) ++ " forbidden PII type(s) with "
           ++ str_of_nat (total_count findings) ++ " total violation(s)" in
    Some {| assertion_type := "no_forbidden_pii";
            r_dataset := p_name policy;
            passed := passed;
            findings := findings;
            r_message := message;
            r_severity := severity |}.

(** *** [assert_masking_applied] *)

Definition masking_scan_cell (masking_required hash_allowed : gset PIIType)
    (max_violations : Z) (idx : nat) (value : option string)
    (col_findings : ColFindings) : option ColFindings :=
  match value with
  | None => Some col_findings
  | Some value =>
      let value_str := strip value in
      if is_empty value_str then Some col_findings
      else
        let detected := detect_pii_in_value value_str in
        let col_findings :=
          foldl (λ cf '(t, masking_type),
                   if decide (t ∈ masking_required)
                   then if is_violation hash_allowed t masking_type
                        then record max_violations t
                                    (idx, value_str, masking_type) cf
                        else cf
                   else cf)
                col_findings detected in
        if decide (CREDIT_CARD ∈ masking_required) then
          is_cc ← is_credit_card value_str;
          if is_cc : bool then
            masking_type ← detect_credit_card_masking value_str;
            Some (if is_violation hash_allowed CREDIT_CARD masking_type
                  then record max_violations CREDIT_CARD
                              (idx, value_str, masking_type) col_findings
                  else col_findings)
          else Some col_findings
        else Some col_findings
  end.

(** The severity and message detail chosen from the first recorded
    violation of a bucket. *)
Definition masking_severity (m : MaskingType) : Severity * string :=
  if decide (m = PLAINTEXT) then (CRITICAL, "not masked (plaintext detected)")
  else if decide (m = HASH)
       then (HIGH, "hashed but hashing not allowed by policy")
  else (MEDIUM, "masking insufficient").

Definition masking_finding (policy : DatasetPolicy) (col : string)
    (t : PIIType) (violations : list Violation) (first_violation : Violation)
    : option Finding :=
  let '(severity, msg_detail) := masking_severity first_violation.2 in
  sample ← redact_value first_violation.1.2 (pii_value t);
  Some {| f_dataset := p_name policy;
          f_column := col;
          f_pii_type := t;
          f_masking_type := first_violation.2;
          f_row_index := Some first_violation.1.1;
          f_redacted_sample := Some sample;
          f_count := length violations;
          f_severity := severity;
          f_message := "Required masking not applied to '" ++ pii_value t
                       ++ "' in column '" ++ col ++ "' ("
                       ++ str_of_nat (length violations)
                       ++ " occurrence(s)): " ++ msg_detail |}.

Definition assert_masking_applied (df : DataFrame) (policy : DatasetPolicy)
    (max_violations : Z) : option AssertionResult :=
  let masking_required : gset PIIType := list_to_set (masking_required_for policy) in
  let hash_allowed : gset PIIType := list_to_set (hash_allowed_for policy) in
  if decide (masking_required = ∅) then
    Some {| assertion_type := "masking_applied";
            r_dataset := p_name policy;
            passed := true;
            findings := [];
            r_message := "No masking requirements specified in policy";
            r_severity := INFO |}
  else
    findings ← scan_columns
                 (masking_scan_cell masking_required hash_allowed max_violations)
                 (masking_finding policy) df;
    let passed := bool_decide (length findings = 0) in
    let max_sev := max_severity (f_severity <$> findings) in
    let message :=
      if passed
      then "PASS: All required masking properly applied in " ++ p_name policy
      else "FAIL: " ++ p_name policy ++ " has "
           ++ str_of_nat (length findings) ++ " masking violation(s) with "
           ++ str_of_nat (total_count findings) ++ " total occurrence(s)" in
    Some {| assertion_type := "masking_applied";
            r_dataset := p_name policy;
            passed := passed;
            findings := findings;
            r_message := message;
            r_severity := if negb passed then max_sev else INFO |}.

(** *** [assert_no_pii_leakage] *)

Definition detect_types_in_cell (value : option string)
    (found_types : gset PIIType) : option (gset PIIType) :=
  match value with
  | None => Some found_types
  | Some value =>
      let value_str := strip value in
      if is_empty value_str then Some found_types
      else
        let detected := detect_pii_in_value value_str in
        let found_types :=
          foldl (λ found '(t, _), found ∪ {[ t ]}) found_types detected in
        is_cc ← is_credit_card value_str;
        let found_types :=
          if is_cc : bool then found_types ∪ {[ CREDIT_CARD ]} else found_types in
        Some (if is_high_entropy_token value_str
              then found_types ∪ {[ HIGH_ENTROPY_TOKEN ]}
              else found_types)
  end.

Fixpoint detect_types_in_cells (cells : list (option string))
    (found_types : gset PIIType) : option (gset PIIType) :=
  match cells with
  | [] => Some found_types
  | value :: rest =>
      found_types ← detect_types_in_cell value found_types;
      detect_types_in_cells rest found_types
  end.

Fixpoint detect_types_in_columns (df : DataFrame) (found_types : gset PIIType)
    : option (gset PIIType) :=
  match df with
  | [] => Some found_types
  | (_, cells) :: rest =>
      found_types ← detect_types_in_cells cells found_types;
      detect_types_in_columns rest found_types
  end.

Definition _detect_pii_types_in_dataframe (df : DataFrame) : option (gset PIIType) :=
  detect_types_in_columns df ∅.

Definition leakage_finding (source_policy target_policy : DatasetPolicy)
    (col : string) (t : PIIType) (violations : list Violation)
    (first_violation : Violation) : option Finding :=
  sample ← redact_value first_violation.1.2 (pii_value t);
  Some {| f_dataset := p_name target_policy;
          f_column := col;
          f_pii_type := t;
          f_masking_type := first_violation.2;
          f_row_index := Some first_violation.1.1;
          f_redacted_sample := Some sample;
          f_count := length violations;
          f_severity := CRITICAL;
          f_message := "PII LEAKAGE: '" ++ pii_value t ++ "' leaked from "
                       ++ p_name source_policy ++ " to " ++ p_name target_policy
                       ++ " in column '" ++ col ++ "' ("
                       ++ str_of_nat (length violations) ++ " occurrence(s))" |}.

Definition leakage_dataset (source_policy target_policy : DatasetPolicy) : string :=
  p_name source_policy ++ " -> " ++ p_name target_policy.

Definition assert_no_pii_leakage (source_df target_df : DataFrame)
    (source_policy target_policy : DatasetPolicy) (lineage_edge : LineageEdge)
    (max_violations : Z) : option AssertionResult :=
  let target_forbidden : gset PIIType :=
    list_to_set (forbidden_pii_types target_policy) in
  if decide (target_forbidden = ∅) then
    Some {| assertion_type := "no_pii_leakage";
            r_dataset := leakage_dataset source_policy target_policy;
            passed := true;
            findings := [];
            r_message := "No forbidden PII types in target policy";
            r_severity := INFO |}
  else
    source_pii_types ← _detect_pii_types_in_dataframe source_df;
    let risky_types := target_forbidden ∩ source_pii_types in
    if decide (risky_types = ∅) then
      Some {| assertion_type := "no_pii_leakage";
              r_dataset := leakage_dataset source_policy target_policy;
              passed := true;
              findings := [];
              r_message := "No risky PII types flow from " ++ p_name source_policy
                           ++ " to " ++ p_name target_policy;
              r_severity := INFO |}
    else
      (* the scan of the target is the scan of the forbidden-PII assertion,
         with [risky_types] in place of the forbidden set *)
      findings ← scan_columns (forbidden_scan_cell risky_types max_violations)
                              (leakage_finding source_policy target_policy)
                              target_df;
      let passed := bool_decide (length findings = 0) in
      let severity := if negb passed then CRITICAL else INFO in
      let leaked_types := size (list_to_set (f_pii_type <$> findings) : gset PIIType) in
      let message :=
        if passed
        then "PASS: No PII leakage detected from " ++ p_name source_policy
             ++ " to " ++ p_name target_policy
        else "FAIL: " ++ str_of_nat leaked_types ++ " PII type(s) leaked from "
             ++ p_name source_policy ++ " to " ++ p_name target_policy ++ " ("
             ++ str_of_nat (total_count findings) ++ " total occurrence(s))" in
      Some {| assertion_type := "no_pii_leakage";
              r_dataset := leakage_dataset source_policy target_policy;
              passed := passed;
              findings := findings;
              r_message := message;
              r_severity := severity |}.
End Assertions.

(** ** Lineage cycle detection ([lineage/graph_trace.py]) *)

(** The adjacency dict, in insertion order of its keys. *)
Definition Graph : Type := list (string * list string).

Fixpoint graph_get (node : string) (graph : Graph) : option (list string) :=
  match graph with
  | [] => None
  | (k, targets) :: rest =>
      if decide (k = node) then Some targets else graph_get node rest
  end.

(** [if source not in graph: graph[source] = []] followed by
    [graph[source].append(target)]. *)
Fixpoint graph_add (source target : string) (graph : Graph) : Graph :=
  match graph with
  | [] => [(source, [target])]
  | (k, targets) :: rest =>
      if decide (k = source) then (k, targets ++ [target])%list :: rest
      else (k, targets) :: graph_add source target rest
  end.

Definition build_graph (edges : list LineageEdge) : Graph :=
  foldl (λ graph edge, graph_add (e_source edge) (e_target edge) graph) [] edges.

(** [path.index(x)]; [None] is its [ValueError]. *)
Fixpoint index_of (x : string) (path : list string) : option nat :=
  match path with
  | [] => None
  | y :: rest => if decide (y = x) then Some 0 else S <$> index_of x rest
  end.

(** The variables the nested [dfs] closes over and mutates. *)
Record DfsState : Type := mkDfsState {
  visited : gset string;
  rec_stack : gset string;
  cycles : list (list string)
}.

(** The nested function [dfs(node, path)].  [fuel] bounds the depth of the
    recursion; [None] is an exhausted [fuel] or a raised [ValueError]. *)
Fixpoint dfs (graph : Graph) (fuel : nat) (node : string) (path : list string)
    (st : DfsState) : option DfsState :=
  match fuel with
  | O => None
  | S fuel' =>
      let st := mkDfsState (visited st ∪ {[ node ]}) (rec_stack st ∪ {[ node ]})
                           (cycles st) in
      let path := (path ++ [node])%list in
      st ←
        match graph_get node graph with
        | Some neighbors =>
            (fix each (neighbors : list string) (st : DfsState) : option DfsState :=
               match neighbors with
               | [] => Some st
               | neighbor :: rest =>
                   st ←
                     (if decide (neighbor ∉ visited st) then
                        dfs graph fuel' neighbor path st
                      else if decide (neighbor ∈ rec_stack st) then
                        cycle_start ← index_of neighbor path;
                        Some (mkDfsState (visited st) (rec_stack st)
                                (cycles st ++ [drop cycle_start path ++ [neighbor]])%list)
                      else Some st);
                   each rest st
               end) neighbors st
        | None => Some st
        end;
      Some (mkDfsState (visited st) (rec_stack st ∖ {[ node ]}) (cycles st))
  end.

(** The loop [for dataset in graph: if dataset not in visited: dfs(dataset, [])]. *)
Fixpoint dfs_roots (graph : Graph) (fuel : nat) (roots : list string)
    (st : DfsState) : option DfsState :=
  match roots with
  | [] => Some st
  | dataset :: rest =>
      st ← (if decide (dataset ∉ visited st)
            then dfs graph fuel dataset [] st else Some st);
      dfs_roots graph fuel rest st
  end.

Definition detect_cycles (fuel : nat) (config : SuiteConfig) : option (list (list string)) :=
  let graph := build_graph (lineage config) in
  st ← dfs_roots graph fuel (graph.*1) (mkDfsState ∅ ∅ []);
  Some (cycles st).

(** ** Sample inputs *)

Definition ci_sample : SuiteResult :=
  mkSuiteResult "PIILeakTest Suite" 1 2 0 2
    [ mkAssertionResult "masking_applied" "ds" false [] "FAIL" MEDIUM;
      mkAssertionResult "no_forbidden_pii" "ds" true [] "PASS" INFO ]
    false.

Definition email_frame : DataFrame :=
  [ ("customer_id", [Some "1"; Some "2"]);
    ("email", [Some "john@example.com"; Some "jane@example.com"]) ].

Definition open_policy : DatasetPolicy :=
  mkDatasetPolicy "test_dataset" "test.csv" "csv" [] [] [] [].

(** A 33-character and a 32-character hexadecimal string. *)
Definition hex33 : string := "5d41402abc4b2a76b9719d911017c592a".
Definition hex32 : string := "5d41402abc4b2a76b9719d911017c592".

(** ** The Luhn rule as the specification words it

    "Double every second digit from the rightmost, sum the digits of the
    doubled values together with the undoubled digits, and the total modulo
    10 equals 0." *)

(** The sum of the decimal digits of a number below 100. *)
Definition digit_sum (n : nat) : nat := n / 10 + n mod 10.

(** The digit that has [k] digits to its right is doubled when [k] is odd. *)
Fixpoint luhn_total (digits : list nat) : nat :=
  match digits with
  | [] => 0
  | d :: rest =>
      (if Nat.even (length rest) then d else digit_sum (d * 2)) + luhn_total rest
  end.

Definition digit_value (c : ascii) : nat := N.to_nat (code c - 48).

Definition digit_values (s : string) : list nat :=
  digit_value <$> list_ascii_of_string s.

(** The string [s] with the character at position [i] replaced by [c]. *)
Definition set_chr (i : nat) (c : ascii) (s : string) : string :=
  string_of_list_ascii (<[i := c]> (list_ascii_of_string s)).

(** Auxiliary sums used to relate the two. *)
Definition sum_doubled (l : list nat) : nat :=
  foldr (λ d acc, digit_sum (d * 2) + acc) 0 l.

(** The weighted sum along a list whose head is doubled when [dbl]. *)
Fixpoint weighted_sum (dbl : bool) (l : list nat) : nat :=
  match l with
  | [] => 0
  | x :: l' => (if dbl then digit_sum (x * 2) else x) + weighted_sum (negb dbl) l'
  end.

(** The weight of a digit: itself, or the digit sum of its double. *)
Definition luhn_weight (dbl : bool) (d : nat) : nat :=
  if dbl then digit_sum (d * 2) else d.

(** A number the Luhn rule accepts. *)
Definition visa_sample : string := "4532015112830366".

(** The triangle A → B → C → A. *)
Definition triangle_config : SuiteConfig :=
  mkSuiteConfig []
    [mkLineageEdge "A" "B"; mkLineageEdge "B" "C"; mkLineageEdge "C" "A"]
    (mkThresholdConfig 10 [CRITICAL; HIGH]).

(** ** The scan as a list of occurrences

    What a scan records, retold in two steps: the occurrences ("hits") a
    cell contributes, in the order in which the source tests for them, and
    the recording of a list of hits into the buckets. *)

Definition Hit : Type := PIIType * Violation.

Definition record_all (max_violations : Z) (col_findings : ColFindings)
    (hits : list Hit) : ColFindings :=
  foldl (λ cf h, record max_violations h.1 h.2 cf) col_findings hits.

(** The hits of type [t], in order. *)
Definition bucket (t : PIIType) (hits : list Hit) : list Violation :=
  (filter (λ h, h.1 = t) hits).*2.

(** A bucket [l] after [new] is offered to it under the cap. *)
Definition extend (max_violations : Z) (l new : list Violation) : list Violation :=
  (l ++ take (Z.to_nat max_violations - length l) new)%list.

Fixpoint column_hits (cell_hits : nat → option string → option (list Hit))
    (idx : nat) (cells : list (option string)) : option (list Hit) :=
  match cells with
  | [] => Some []
  | value :: rest =>
      here ← cell_hits idx value;
      later ← column_hits cell_hits (S idx) rest;
      Some (here ++ later)%list
  end.

Section Hits.
Context {Fl : PyFloat}.

(** The occurrences the forbidden-PII scan (and the leakage scan of the
    target) finds in one cell, [types] being the forbidden (or risky) set. *)
Definition forbidden_cell_hits (types : gset PIIType) (idx : nat)
    (value : option string) : option (list Hit) :=
  match value with
  | None => Some []
  | Some value =>
      let value_str := strip value in
      if is_empty value_str then Some []
      else
        let standard :=
          (λ d, (d.1, (idx, value_str, d.2))) <$>
            filter (λ d, d.1 ∈ types) (detect_pii_in_value value_str) in
        card ←
          (if decide (CREDIT_CARD ∈ types) then
             is_cc ← is_credit_card value_str;
             if is_cc : bool then
               masking_type ← detect_credit_card_masking value_str;
               Some [(CREDIT_CARD, (idx, value_str, masking_type))]
             else Some []
           else Some []);
        let token :=
          if decide (HIGH_ENTROPY_TOKEN ∈ types)
          then if is_high_entropy_token value_str
               then [(HIGH_ENTROPY_TOKEN, (idx, value_str, PLAINTEXT))] else []
          else [] in
        Some (standard ++ card ++ token)%list
  end.

(** The detected occurrences of the types in [masking_required] in one
    cell, acceptable or not. *)
Definition masking_cell_occurrences (masking_required : gset PIIType) (idx : nat)
    (value : option string) : option (list Hit) :=
  match value with
  | None => Some []
  | Some value =>
      let value_str := strip value in
      if is_empty value_str then Some []
      else
        let standard :=
          (λ d, (d.1, (idx, value_str, d.2))) <$>
            filter (λ d, d.1 ∈ masking_required) (detect_pii_in_value value_str) in
        card ←
          (if decide (CREDIT_CARD ∈ masking_required) then
             is_cc ← is_credit_card value_str;
             if is_cc : bool then
               masking_type ← detect_credit_card_masking value_str;
               Some [(CREDIT_CARD, (idx, value_str, masking_type))]
             else Some []
           else Some []);
        Some (standard ++ card)%list
  end.

End Hits.

(** The rule of the specification for an unacceptable occurrence: plaintext,
    or a hash of a type for which hashing is not allowed. *)
Definition unacceptable (hash_allowed : gset PIIType) (h : Hit) : Prop :=
  h.2.2 = PLAINTEXT ∨ (h.2.2 = HASH ∧ h.1 ∉ hash_allowed).

#[global] Instance unacceptable_dec hash_allowed h :
  Decision (unacceptable hash_allowed h).
Proof. unfold unacceptable. apply _. Defined.

(** A column of eleven SSNs under a policy that forbids SSNs and requires
    them masked. *)
Definition ssn_policy : DatasetPolicy :=
  mkDatasetPolicy "customers" "customers.csv" "csv" [] [SSN] [SSN] [].

Definition eleven_ssns : DataFrame :=
  [("ssn", replicate 11 (Some "123-45-6789"))].

(** The masking scenario of the specification and its result. *)
Definition two_ssns : DataFrame :=
  [("ssn", [Some "123-45-6789"; Some "234-56-7890"])].

Definition two_ssns_result : AssertionResult :=
  {| assertion_type := "masking_applied";
     r_dataset := "customers";
     passed := false;
     findings :=
       [ {| f_dataset := "customers";
            f_column := "ssn";
            f_pii_type := SSN;
            f_masking_type := PLAINTEXT;
            f_row_index := Some 0;
            f_redacted_sample := Some "***-**-6789";
            f_count := 2;
            f_severity := CRITICAL;
            f_message := "Required masking not applied to 'ssn' in column 'ssn' (2 occurrence(s)): not masked (plaintext detected)" |} ];
     r_message := "FAIL: customers has 1 masking violation(s) with 2 total occurrence(s)";
     r_severity := CRITICAL |}.

(** The leakage scenario of the specification with an empty forbidden list. *)
Definition source_frame : DataFrame := [("email", [Some "a@x.com"])].
Definition target_frame : DataFrame := [("contact", [Some "a@x.com"])].
Definition source_policy0 : DatasetPolicy :=
  mkDatasetPolicy "raw" "raw.csv" "csv" [EMAIL] [] [] [].
Definition target_policy0 : DatasetPolicy :=
  mkDatasetPolicy "mart" "mart.csv" "csv" [] [] [] [].

(** A string without the superscript digits, the only characters in range
    that [str.isdigit] accepts and [int] rejects. *)
Definition plain_digits (s : string) : bool :=
  str_all (λ c, implb (is_digit c) (is_decimal c)) s.

(** A frame none of whose cells holds a superscript digit. *)
Definition plain_frame (df : DataFrame) : Prop :=
  ∀ col cells value, (col, cells) ∈ df → Some value ∈ cells →
                     plain_digits value = true.

(** ** Lineage loading ([lineage/flow_loader.py]) *)

(** The loop of [load_lineage_graph] is the one [detect_cycles] starts with. *)
Definition load_lineage_graph (config : SuiteConfig) : Graph :=
  build_graph (lineage config).

Definition get_upstream_datasets (dataset_name : string) (config : SuiteConfig)
    : list string :=
  e_source <$> filter (λ edge, e_target edge = dataset_name) (lineage config).

Definition get_downstream_datasets (dataset_name : string) (config : SuiteConfig)
    : list string :=
  e_target <$> filter (λ edge, e_source edge = dataset_name) (lineage config).

Definition validate_lineage_references (config : SuiteConfig) : list string :=
  let dataset_names : gset string := list_to_set (p_name <$> datasets config) in
  foldl (λ errors edge,
           let errors :=
             if decide (e_source edge ∉ dataset_names)
             then (errors ++ [("Lineage edge references unknown source dataset: "
                               ++ e_source edge)%string])%list
             else errors in
           if decide (e_target edge ∉ dataset_names)
           then (errors ++ [("Lineage edge references unknown target dataset: "
                             ++ e_target edge)%string])%list
           else errors)
        [] (lineage config).

(** The position of a severity when the names are sorted as strings. *)
Definition name_rank (s : Severity) : nat :=
  match s with CRITICAL => 0 | HIGH => 1 | INFO => 2 | LOW => 3 | MEDIUM => 4 end.

(** A lineage with one dangling target. *)
Definition dangling_config : SuiteConfig :=
  mkSuiteConfig [mkDatasetPolicy "raw" "raw.csv" "csv" [] [] [] []]
    [mkLineageEdge "raw" "mart"] (mkThresholdConfig 10 [CRITICAL; HIGH]).

(** The types of the registry, in its order. *)
Definition registry_types : list PIIType := pii_type <$> MATCHERS.

(** A policy that forbids only types no detector produces. *)
Definition passport_policy : DatasetPolicy :=
  mkDatasetPolicy "customers" "customers.csv" "csv" [] [PASSPORT; FULL_NAME] [] [].

(** A value with a superscript digit (U+00B2) in place of a digit. *)
Definition superscript_sample : string :=
  String (ascii_of_nat 178) "532015112830366".

(** ** A static analysis of patterns

    Three facts read off the syntax of a pattern: that every match consumes
    a character of a given class, a bound on the length of a match, and that
    a match ends where [$] holds. *)

Definition all_ascii : list ascii := ascii_of_nat <$> List.seq 0 256.

Definition class_subset (p q : ascii → bool) : bool :=
  forallb (λ c, implb (p c) (q c)) all_ascii.

Fixpoint consumes (q : ascii → bool) (r : regex) : bool :=
  match r with
  | Eps => false
  | Chr p => class_subset p q
  | Cat r1 r2 => consumes q r1 || consumes q r2
  | Alt r1 r2 => consumes q r1 && consumes q r2
  | Rep r' lo _ => (0 <? lo) && consumes q r'
  | Dollar => false
  end.

Fixpoint max_len (r : regex) : option nat :=
  match r with
  | Eps => Some 0
  | Chr _ => Some 1
  | Cat r1 r2 => n1 ← max_len r1; n2 ← max_len r2; Some (n1 + n2)
  | Alt r1 r2 => n1 ← max_len r1; n2 ← max_len r2; Some (n1 `max` n2)
  | Rep r' _ hi => x ← hi; m ← max_len r'; Some (x * m)
  | Dollar => Some 0
  end.

Fixpoint ends_at_dollar (r : regex) : bool :=
  match r with
  | Dollar => true
  | Cat _ r2 => ends_at_dollar r2
  | Alt r1 r2 => ends_at_dollar r1 && ends_at_dollar r2
  | _ => false
  end.

(** What a successful run of a matcher says about the text it consumed. *)
Definition decomposes (q : ascii → bool) (cq : bool) (ml : option nat) (ed : bool)
    (s : string) (k : string → bool) : Prop :=
  ∃ h rest, s = (h ++ rest)%string ∧ k rest = true
            ∧ (cq = true → str_any q h = true)
            ∧ (∀ n, ml = Some n → String.length h ≤ n)
            ∧ (ed = true → at_dollar rest = true).

(** A pattern that no string of 32 or more hexadecimal characters matches:
    it needs a character that is not hexadecimal, or it is anchored at the
    end and too short. *)
Definition never_hex32 (r : regex) : bool :=
  consumes (λ c, negb (is_hex c)) r
  || (ends_at_dollar r
      && match max_len r with Some n => n + 1 <? 32 | None => false end).

(** A dataset of masked and hashed SSNs under a policy that requires
    masking, with and without hashing allowed. *)
Definition masked_ssns : DataFrame :=
  [("ssn", [Some "***-**-6789"; Some "123-45-6789"])].

Definition ssn_hash_policy : DatasetPolicy :=
  mkDatasetPolicy "customers" "customers.csv" "csv" [] [SSN] [SSN] [SSN].

(** ** Walks in the lineage

    The vocabulary in which the searches of [lineage/graph_trace.py] are
    specified. *)

Definition has_edge (config : SuiteConfig) (u v : string) : Prop :=
  ∃ edge, edge ∈ lineage config ∧ e_source edge = u ∧ e_target edge = v.

(** The datasets the lineage names. *)
Definition lineage_nodes (config : SuiteConfig) : gset string :=
  list_to_set (e_source <$> lineage config) ∪ list_to_set (e_target <$> lineage config).

(** Every node of [l] but the last has an edge to the next one. *)
Fixpoint is_walk (edge : string → string → Prop) (l : list string) : Prop :=
  match l with
  | [] => True
  | u :: rest =>
      match head rest with Some v => edge u v | None => True end ∧ is_walk edge rest
  end.

(** A cycle as [detect_cycles] writes it down: a walk that comes back to its
    first node, the nodes before that being distinct. *)
Definition is_cycle (edge : string → string → Prop) (c : list string) : Prop :=
  ∃ first middle,
    c = (first :: middle ++ [first])%list ∧ NoDup (first :: middle) ∧ is_walk edge c.

(** No walk of one edge or more comes back to where it started. *)
Definition acyclic (config : SuiteConfig) : Prop :=
  ∀ u l, ¬ is_walk (has_edge config) (u :: l ++ [u]).

(** An edge of the adjacency dict. *)
Definition graph_edge (graph : Graph) (u v : string) : Prop :=
  v ∈ default [] (graph_get u graph).

(** The loop over the neighbours inside [dfs], given the recursive call. *)
Definition dfs_each (graph : Graph) (fuel' : nat) (path : list string)
    : list string → DfsState → option DfsState :=
  fix each (neighbors : list string) (st : DfsState) : option DfsState :=
    match neighbors with
    | [] => Some st
    | neighbor :: rest =>
        st ←
          (if decide (neighbor ∉ visited st) then
             dfs graph fuel' neighbor path st
           else if decide (neighbor ∈ rec_stack st) then
             cycle_start ← index_of neighbor path;
             Some (mkDfsState (visited st) (rec_stack st)
                     (cycles st ++ [drop cycle_start path ++ [neighbor]])%list)
           else Some st);
        each rest st
    end.

(** A list of nodes in which every node comes before all its successors and
    occurs once: the order in which a search without back edges leaves its
    nodes, latest first. *)
Fixpoint topo (graph : Graph) (order : list string) : Prop :=
  match order with
  | [] => True
  | u :: rest =>
      (u ∉ rest) ∧ (∀ v, graph_edge graph u v → v ∈ rest) ∧ topo graph rest
  end.

(** What holds of the state of the search whenever [dfs] is entered or left
    with [path] as the nodes being explored: the recursion stack holds the
    nodes of [path], a walk without repetition; the visited nodes are nodes
    of [V]; the cycles reported are cycles; and as long as none was
    reported, the nodes left behind are ordered before their successors. *)
Definition dfs_inv (graph : Graph) (V : gset string) (st : DfsState)
    (path : list string) : Prop :=
  rec_stack st = list_to_set path
  ∧ rec_stack st ⊆ visited st
  ∧ NoDup path
  ∧ is_walk (graph_edge graph) path
  ∧ visited st ⊆ V
  ∧ (∀ c, c ∈ cycles st → is_cycle (graph_edge graph) c)
  ∧ (cycles st = [] →
     ∃ order, topo graph order
              ∧ ∀ u, u ∈ order ↔ u ∈ visited st ∧ u ∉ rec_stack st).

(** ** Paths to the sources ([lineage/graph_trace.py])

    The reverse graph of [find_path_to_source], from a dataset to the
    datasets it is made from. *)
Definition build_reverse_graph (edges : list LineageEdge) : Graph :=
  foldl (λ graph edge, graph_add (e_target edge) (e_source edge) graph) [] edges.

(** The nested function [dfs(current, path, visited)] of
    [find_path_to_source]; the list [paths] it appends to is threaded
    through, [fuel] bounds the depth of the recursion and [None] is an
    exhausted [fuel]. *)
Fixpoint path_dfs (reverse_graph : Graph) (fuel : nat) (current : string)
    (path : list string) (visited : gset string) (paths : list (list string))
    : option (list (list string)) :=
  match fuel with
  | O => None
  | S fuel' =>
      if decide (current ∈ visited) then Some paths
      else
        let path := (path ++ [current])%list in
        let visited := visited ∪ {[ current ]} in
        match graph_get current reverse_graph with
        | None | Some [] => Some (paths ++ [reverse path])%list
        | Some upstreams =>
            (fix each (upstreams : list string) (paths : list (list string))
                 : option (list (list string)) :=
               match upstreams with
               | [] => Some paths
               | upstream :: rest =>
                   paths ← path_dfs reverse_graph fuel' upstream path visited paths;
                   each rest paths
               end) upstreams paths
        end
  end.

Definition find_path_to_source (fuel : nat) (target_dataset : string)
    (config : SuiteConfig) : option (list (list string)) :=
  path_dfs (build_reverse_graph (lineage config)) fuel target_dataset [] ∅ [].

(** [min(paths, key=len)]: the first of the shortest. *)
Definition min_by_len (first : list string) (rest : list (list string)) : list string :=
  foldl (λ best p, if length p <? length best then p else best) first rest.

(** The inner option is the [Optional] of the source. *)
Definition trace_pii_leakage_path (fuel : nat) (pii_type : PIIType)
    (target_dataset : string) (config : SuiteConfig) : option (option (list string)) :=
  paths ← find_path_to_source fuel target_dataset config;
  match paths with
  | [] => Some None
  | first :: rest => Some (Some (min_by_len first rest))
  end.

(** The loop over the upstream datasets inside [path_dfs]. *)
Definition path_dfs_each (reverse_graph : Graph) (fuel' : nat) (path : list string)
    (visited : gset string) : list string → list (list string) → option (list (list string)) :=
  fix each (upstreams : list string) (paths : list (list string)) :=
    match upstreams with
    | [] => Some paths
    | upstream :: rest =>
        paths ← path_dfs reverse_graph fuel' upstream path visited paths;
        each rest paths
    end.

(** A dataset nothing flows into. *)
Definition is_root (config : SuiteConfig) (r : string) : Prop :=
  ∀ u, ¬ has_edge config u r.

(** A path as [find_path_to_source] promises it: from a root along the
    edges to the target, no dataset twice. *)
Definition is_source_path (config : SuiteConfig) (target_dataset : string)
    (p : list string) : Prop :=
  NoDup p ∧ is_walk (has_edge config) p ∧ last p = Some target_dataset
  ∧ ∃ r, head p = Some r ∧ is_root config r.

(** The continuations of [path] that [path_dfs] looks for from [current]:
    walks [q] up the reverse graph that start at [current], end at a dataset
    without upstream and keep [path ++ q] free of repetitions. *)
Definition climbs (reverse_graph : Graph) (path : list string) (current : string)
    (q : list string) : Prop :=
  head q = Some current
  ∧ NoDup (path ++ q)
  ∧ is_walk (graph_edge reverse_graph) q
  ∧ ∃ r, last q = Some r ∧ default [] (graph_get r reverse_graph) = [].

(** Two datasets feeding a third. *)
Definition fan_in_config : SuiteConfig :=
  mkSuiteConfig []
    [mkLineageEdge "raw" "staging"; mkLineageEdge "staging" "mart";
     mkLineageEdge "crm" "mart"]
    (mkThresholdConfig 10 [CRITICAL; HIGH]).

(** ** [assert_only_allowed_pii] ([assertions/allowed_pii_assertion.py]) *)

Section AllowedOnly.
Context {Fl : PyFloat}.

(** The body of the loop over the cells.  The Luhn and entropy tests run on
    every cell, before the policy is looked at. *)
Definition allowed_scan_cell (allowed_types : gset PIIType)
    (max_violations : Z) (idx : nat) (value : option string)
    (col_findings : ColFindings) : option ColFindings :=
  match value with
  | None => Some col_findings
  | Some value =>
      let value_str := strip value in
      if is_empty value_str then Some col_findings
      else
        let detected := detect_pii_in_value value_str in
        let col_findings :=
          foldl (λ cf '(t, masking_type),
                   if decide (t ∉ allowed_types)
                   then record max_violations t (idx, value_str, masking_type) cf
                   else cf)
                col_findings detected in
        col_findings ←
          (is_cc ← is_credit_card value_str;
           if is_cc : bool then
             if decide (CREDIT_CARD ∉ allowed_types) then
               masking_type ← detect_credit_card_masking value_str;
               Some (record max_violations CREDIT_CARD
                            (idx, value_str, masking_type) col_findings)
             else Some col_findings
           else Some col_findings);
        Some (if is_high_entropy_token value_str
              then if decide (HIGH_ENTROPY_TOKEN ∉ allowed_types)
                   then record max_violations HIGH_ENTROPY_TOKEN
                               (idx, value_str, PLAINTEXT) col_findings
                   else col_findings
              else col_findings)
  end.

Definition allowed_finding (policy : DatasetPolicy) (col : string)
    (t : PIIType) (violations : list Violation) (first_violation : Violation)
    : option Finding :=
  sample ← redact_value first_violation.1.2 (pii_value t);
  Some {| f_dataset := p_name policy;
          f_column := col;
          f_pii_type := t;
          f_masking_type := first_violation.2;
          f_row_index := Some first_violation.1.1;
          f_redacted_sample := Some sample;
          f_count := length violations;
          f_severity := HIGH;
          f_message := "Disallowed PII type '" ++ pii_value t
                       ++ "' found in column '" ++ col ++ "' ("
                       ++ str_of_nat (length violations) ++ " occurrence(s))" |}.

Definition assert_only_allowed_pii (df : DataFrame) (policy : DatasetPolicy)
    (max_violations : Z) : option AssertionResult :=
  let allowed_types : gset PIIType := list_to_set (allowed_pii_types policy) in
  findings ← scan_columns (allowed_scan_cell allowed_types max_violations)
                          (allowed_finding policy) df;
  let passed := bool_decide (length findings = 0) in
  let severity := if negb passed then HIGH else INFO in
  let message :=
    if passed then "PASS: Only allowed PII types present in " ++ p_name policy
    else
      let total_violations := total_count findings in
      let unique_types := size (list_to_set (f_pii_type <$> findings) : gset PIIType) in
      "FAIL: " ++ p_name policy ++ " contains " ++ str_of_nat unique_types
      ++ " disallowed PII type(s) with " ++ str_of_nat total_violations
      ++ " total occurrence(s)" in
  Some {| assertion_type := "only_allowed_pii";
          r_dataset := p_name policy;
          passed := passed;
          findings := findings;
          r_message := message;
          r_severity := severity |}.

End AllowedOnly.

(** A finding of the forbidden-PII assertion, reworded as the allowed-only
    assertion words it. *)
Definition as_disallowed (f : Finding) : Finding :=
  {| f_dataset := f_dataset f;
     f_column := f_column f;
     f_pii_type := f_pii_type f;
     f_masking_type := f_masking_type f;
     f_row_index := f_row_index f;
     f_redacted_sample := f_redacted_sample f;
     f_count := f_count f;
     f_severity := HIGH;
     f_message := "Disallowed PII type '" ++ pii_value (f_pii_type f)
                  ++ "' found in column '" ++ f_column f ++ "' ("
                  ++ str_of_nat (f_count f) ++ " occurrence(s))" |}.

(** A cell on which [is_credit_card] raises, and a frame with such a cell. *)
Definition cell_raises (value : option string) : bool :=
  match value with
  | None => false
  | Some value =>
      if is_empty (strip value) then false
      else match is_credit_card (strip value) with Some _ => false | None => true end
  end.

Definition frame_raises (df : DataFrame) : bool :=
  existsb (λ column, existsb cell_raises column.2) df.

(** A policy that allows every type but the SSN. *)
Definition all_but_ssn_policy : DatasetPolicy :=
  mkDatasetPolicy "customers" "customers.csv" "csv"
    [EMAIL; PHONE; CREDIT_CARD; IP_ADDRESS; DOB; ZIP_CODE; FULL_NAME;
     ACCOUNT_NUMBER; PASSPORT; HIGH_ENTROPY_TOKEN]
    [] [] [].

(** ** What a cell holds

    The three tests the scans apply to the stripped text of a cell. *)
Definition value_has_type `{Fl : PyFloat} (t : PIIType) (value_str : string) : Prop :=
  t ∈ (detect_pii_in_value value_str).*1
  ∨ (t = CREDIT_CARD ∧ is_credit_card value_str = Some true)
  ∨ (t = HIGH_ENTROPY_TOKEN ∧ is_high_entropy_token value_str = true).

Definition cell_has_type `{Fl : PyFloat} (t : PIIType) (cell : option string) : Prop :=
  match cell with
  | Some value => is_empty (strip value) = false ∧ value_has_type t (strip value)
  | None => False
  end.

#[global] Instance cell_has_type_dec `{Fl : PyFloat} t cell :
  Decision (cell_has_type t cell).
Proof. unfold cell_has_type, value_has_type. destruct cell; apply _. Defined.


(** ** The suite runner ([cli.py], [run_suite])

    What [run_suite] does between loading the configuration and writing the
    reports.  [load ds_policy] stands for [load_dataframe] followed by
    [sample_dataframe]; [None] is any exception, and the [typer.Exit(1)]
    raised on lineage errors. *)

Section Suite.
Context {Fl : PyFloat}.

(** The dict [datasets], filled in the order of the configuration. *)
Fixpoint load_datasets (load : DatasetPolicy → option DataFrame)
    (policies : list DatasetPolicy) (frames : gmap string DataFrame)
    : option (gmap string DataFrame) :=
  match policies with
  | [] => Some frames
  | ds_policy :: rest =>
      df ← load ds_policy;
      load_datasets load rest (<[p_name ds_policy := df]> frames)
  end.



(** [next(ds for ds in suite_config.datasets if ds.name == name)]; [None] is
    its [StopIteration]. *)
Definition find_policy (name : string) (policies : list DatasetPolicy)
    : option DatasetPolicy :=
  head (filter (λ ds, p_name ds = name) policies).




End Suite.

(** A suite of one dataset with two plaintext SSNs, forbidden and to be
    masked. *)
Definition one_dataset_config : SuiteConfig :=
  mkSuiteConfig [ssn_policy] [] (mkThresholdConfig 10 [CRITICAL; HIGH]).

(** A frame one of whose cells holds the type. *)
Definition frame_has_type `{Fl : PyFloat} (t : PIIType) (df : DataFrame) : Prop :=
  ∃ col cells cell, (col, cells) ∈ df ∧ cell ∈ cells ∧ cell_has_type t cell.

(** A target policy that forbids e-mail addresses. *)
Definition mart_policy : DatasetPolicy :=
  mkDatasetPolicy "mart" "mart.csv" "csv" [] [EMAIL] [] [].

(** ** Column-name heuristics ([detectors/column_heuristics.py]) *)

(** [str.lower] on one character of the range: the letters A-Z and the
    capital letters of Latin-1 (U+00C0..U+00DE but for the multiplication
    sign U+00D7) move up by 32, every other character stays. *)
Definition chr_lower (c : ascii) : ascii :=
  let n := code c in
  if (((65 <=? n) && (n <=? 90))
      || ((192 <=? n) && (n <=? 222) && negb (n =? 215)))%N
  then ascii_of_N (n + 32) else c.

Fixpoint str_lower (s : string) : string :=
  match s with
  | EmptyString => EmptyString
  | String c s' => String (chr_lower c) (str_lower s')
  end.

(** A pattern without metacharacters: its characters, one after the other. *)
Definition literal (pattern : string) : regex :=
  seq (lit <$> list_ascii_of_string pattern).

(** [bool(re.search(r, s))]: a match that starts at some position of [s],
    the end included. *)
Fixpoint re_search (r : regex) (s : string) : bool :=
  re_match r s
  || match s with
     | String _ s' => re_search r s'
     | EmptyString => false
     end.

Definition PII_COLUMN_PATTERNS : list (PIIType * list string) :=
  [ (EMAIL, ["email"; "e_mail"; "mail"; "contact_email"; "user_email"]);
    (PHONE, ["phone"; "telephone"; "mobile"; "cell"; "contact_number"; "phone_number"]);
    (SSN, ["ssn"; "social_security"; "social_security_number"; "ss_number"]);
    (CREDIT_CARD, ["credit_card"; "card_number"; "cc_number"; "card_num"; "payment_card"]);
    (IP_ADDRESS, ["ip_address"; "ip_addr"; "ipaddress"; "client_ip"; "user_ip"]);
    (DOB, ["dob"; "date_of_birth"; "birth_date"; "birthdate"; "birthday"]);
    (ZIP_CODE, ["zip"; "zipcode"; "zip_code"; "postal_code"; "postcode"]);
    (FULL_NAME, ["full_name"; "fullname"; "customer_name"; "user_name"; "name"]);
    (ACCOUNT_NUMBER, ["account_number"; "account_num"; "acct_number"; "account_id";
                      "bank_account"]);
    (PASSPORT, ["passport"; "passport_number"; "passport_num"; "passport_id"]) ].

(** The inner loop: some pattern of the list is found. *)
Definition matches_any (patterns : list string) (col_lower : string) : bool :=
  existsb (λ pattern, re_search (literal pattern) col_lower) patterns.

(** The set [potential_types] built for one column. *)
Definition potential_types (col : string) : gset PIIType :=
  let col_lower := strip (str_lower col) in
  foldl (λ types '(pii_type, patterns),
           if matches_any patterns col_lower then types ∪ {[ pii_type ]} else types)
        ∅ PII_COLUMN_PATTERNS.

(** The dict [results], in insertion order. *)
Fixpoint results_get (col : string) (results : list (string * gset PIIType))
    : option (gset PIIType) :=
  match results with
  | [] => None
  | (k, types) :: rest => if decide (k = col) then Some types else results_get col rest
  end.

Fixpoint results_set (col : string) (types : gset PIIType)
    (results : list (string * gset PIIType)) : list (string * gset PIIType) :=
  match results with
  | [] => [(col, types)]
  | (k, old) :: rest =>
      if decide (k = col) then (k, types) :: rest
      else (k, old) :: results_set col types rest
  end.

Definition identify_pii_columns (column_names : list string)
    : list (string * gset PIIType) :=
  foldl (λ results col,
           let potential_types := potential_types col in
           if decide (potential_types ≠ ∅)
           then results_set col potential_types results else results)
        [] column_names.

Definition is_likely_pii_column (column_name : string) : bool :=
  let col_lower := strip (str_lower column_name) in
  existsb (λ entry, matches_any entry.2 col_lower) PII_COLUMN_PATTERNS.

(** [p] occurs in [s]. *)
Definition occurs (p s : string) : Prop := ∃ a b, s = (a ++ p ++ b)%string.

(** The patterns of a type that no other pattern of the type makes
    redundant. *)
Definition minimal_patterns (t : PIIType) : list string :=
  match t with
  | EMAIL => ["mail"]
  | PHONE => ["phone"; "mobile"; "cell"; "contact_number"]
  | SSN => ["ssn"; "social_security"; "ss_number"]
  | CREDIT_CARD => ["credit_card"; "cc_number"; "card_num"; "payment_card"]
  | IP_ADDRESS => ["ip_addr"; "ipaddress"; "client_ip"; "user_ip"]
  | DOB => ["dob"; "date_of_birth"; "birth_date"; "birthdate"; "birthday"]
  | ZIP_CODE => ["zip"; "postal_code"; "postcode"]
  | FULL_NAME => ["name"]
  | ACCOUNT_NUMBER => ["account_num"; "acct_number"; "account_id"; "bank_account"]
  | PASSPORT => ["passport"]
  | HIGH_ENTROPY_TOKEN => []
  end.

(** [p] is a prefix of [s], and [p] occurs in [s], as tests. *)
Fixpoint prefixb (p s : string) : bool :=
  match p, s with
  | EmptyString, _ => true
  | String a p', String c s' => chr_eqb a c && prefixb p' s'
  | String _ _, EmptyString => false
  end.

Fixpoint occursb (p s : string) : bool :=
  prefixb p s
  || match s with
     | String _ s' => occursb p s'
     | EmptyString => false
     end.

(** ** Common token patterns ([detectors/entropy.py]) *)









(** Every character class of the pattern lies within [q]. *)
Fixpoint only_chars (q : ascii → bool) (r : regex) : bool :=
  match r with
  | Eps | Dollar => true
  | Chr p => class_subset p q
  | Cat r1 r2 | Alt r1 r2 => only_chars q r1 && only_chars q r2
  | Rep r' _ _ => only_chars q r'
  end.

(** The characters of a date, and of an IPv4 address. *)
Definition date_chr (c : ascii) : bool :=
  is_decimal c || chr_eqb "-" c || chr_eqb "/" c.
Definition ip_chr (c : ascii) : bool := is_decimal c || chr_eqb "." c.




(** * Properties *)

(** ** The CI decision *)

(** The decision reads nothing but the [passed] flag and the severity of
    each assertion result. *)
Lemma should_fail_ci_existsb (sr : SuiteResult) :
  should_fail_ci sr =
  existsb (λ ar, negb (passed ar)
                 && bool_decide (r_severity ar = CRITICAL ∨ r_severity ar = HIGH))
          (assertion_results sr).
Proof.
  unfold should_fail_ci.
  induction (assertion_results sr) as [|ar l IH]; [done|].
  rewrite filter_cons. simpl existsb. rewrite <- IH. clear IH.
  destruct (passed ar), (r_severity ar); simpl;
    repeat case_decide; simpl; try done;
    repeat match goal with
    | H : _ ∧ _ |- _ => destruct H
    | H : _ ∈ _ |- _ => rewrite ?elem_of_cons, ?elem_of_nil in H
    | H : ¬ _ |- _ => exfalso; apply H; clear H
    end; rewrite ?elem_of_cons; try (split; first done); try tauto;
    try (apply bool_decide_eq_true; simpl; lia); intuition congruence.
Qed.

(** C10.  [should_fail_ci] is true exactly when some assertion result has
    [passed = False] and severity CRITICAL or HIGH; a result list whose
    failures are all MEDIUM, LOW or INFO never fails CI; and the method
    reads the [passed] flags and severities of the assertion results alone,
    so the decision is the same whatever [thresholds] (and its
    [fail_on_severity]) is configured. *)
Theorem should_fail_ci_iff (thresholds : ThresholdConfig) (sr : SuiteResult) :
  (should_fail_ci sr = true ↔
   ∃ ar, ar ∈ assertion_results sr ∧ passed ar = false
         ∧ (r_severity ar = CRITICAL ∨ r_severity ar = HIGH))
  ∧ ((∀ ar, ar ∈ assertion_results sr → passed ar = false →
            r_severity ar ∈ [MEDIUM; LOW; INFO]) →
     should_fail_ci sr = false)
  ∧ should_fail_ci sr =
    existsb (λ ar, negb (passed ar)
                   && bool_decide (r_severity ar = CRITICAL ∨ r_severity ar = HIGH))
            (assertion_results sr).
Proof.
  assert (Hiff : should_fail_ci sr = true ↔
    ∃ ar, ar ∈ assertion_results sr ∧ passed ar = false
          ∧ (r_severity ar = CRITICAL ∨ r_severity ar = HIGH)).
  { rewrite should_fail_ci_existsb, existsb_exists. split.
    - intros (ar & Hin & Hb). apply andb_prop in Hb as [Hp Hs].
      exists ar. rewrite <- list_elem_of_In in Hin.
      apply bool_decide_eq_true in Hs. apply negb_true_iff in Hp. done.
    - intros (ar & Hin & Hp & Hs). exists ar.
      rewrite <- list_elem_of_In. split; [done|].
      rewrite Hp. simpl. by apply bool_decide_eq_true. }
  split; [exact Hiff|]. split.
  - intros Hall. apply not_true_is_false. rewrite Hiff.
    intros (ar & Hin & Hp & Hs). specialize (Hall ar Hin Hp).
    rewrite !elem_of_cons, elem_of_nil in Hall.
    destruct Hs as [Hs|Hs]; rewrite Hs in Hall; intuition discriminate.
  - apply should_fail_ci_existsb.
Qed.

(** A failed MEDIUM result does not fail CI, even under a configuration whose
    [fail_on_severity] lists MEDIUM. *)
Lemma should_fail_ci_iff_witness :
  should_fail_ci ci_sample = false.
Proof.
  apply (proj1 (proj2 (should_fail_ci_iff (mkThresholdConfig 10 [MEDIUM]) ci_sample))).
  intros ar Hin Hp.
  unfold ci_sample in Hin. simpl in Hin.
  rewrite !elem_of_cons, elem_of_nil in Hin.
  destruct Hin as [->|[->|[]]]; simpl in *; [|discriminate].
  rewrite !elem_of_cons. tauto.
Defined.

(** ** The forbidden-PII assertion with an empty forbidden list *)

(** C7.  With an empty [forbidden_pii_types] the forbidden-PII assertion
    returns at once: passed, severity INFO, no findings, whatever the
    dataset holds. *)
Theorem assert_no_forbidden_pii_empty `{Fl : PyFloat}
    (df : DataFrame) (policy : DatasetPolicy) (max_violations : Z) :
  forbidden_pii_types policy = [] →
  assert_no_forbidden_pii df policy max_violations =
  Some {| assertion_type := "no_forbidden_pii";
          r_dataset := p_name policy;
          passed := true;
          findings := [];
          r_message := "No forbidden PII types specified in policy";
          r_severity := INFO |}.
Proof.
  intros H. unfold assert_no_forbidden_pii. rewrite H. simpl.
  by rewrite decide_True.
Qed.

Lemma assert_no_forbidden_pii_empty_witness :
  passed <$> assert_no_forbidden_pii (Fl := RFloat) email_frame open_policy 10
  = Some true.
Proof.
  rewrite (assert_no_forbidden_pii_empty email_frame open_policy 10); reflexivity.
Defined.

(** ** Entropy of a one-symbol string *)

Lemma RFloat_laws : PyFloatLaws RFloat.
Proof.
  assert (Hself : ∀ n, 0 < n → (INR n / INR n)%R = 1%R).
  { intros n Hn. apply Rdiv_diag. apply not_0_INR. lia. }
  split; simpl.
  - intros n Hn. rewrite Hself by done. rewrite ln_1. unfold Rdiv. apply Rmult_0_l.
  - intros n Hn. apply Rmult_0_r.
  - apply Rminus_diag.
Defined.

Lemma length_str_repeat c n : String.length (str_repeat c n) = n.
Proof. unfold str_repeat. induction n as [|n IH]; simpl; [done | by rewrite IH]. Qed.

Lemma char_freq_repeat_aux c n k :
  foldl (λ freq char, freq_incr char freq) [(c, k)]
        (list_ascii_of_string (str_repeat c n)) = [(c, k + n)].
Proof.
  revert k. induction n as [|n IH]; intros k; simpl.
  - by rewrite Nat.add_0_r.
  - unfold chr_eqb. rewrite N.eqb_refl. unfold str_repeat in IH. rewrite IH.
    do 2 f_equal. lia.
Qed.

Lemma char_freq_repeat c n : char_freq (str_repeat c (S n)) = [(c, S n)].
Proof.
  unfold char_freq. pose proof (char_freq_repeat_aux c n 1) as H.
  unfold str_repeat in *. simpl. exact H.
Qed.

(** C9.  For a string made of one character repeated zero or more times the
    entropy scorer returns [0.0], in every float arithmetic in which
    [n / n] is [1.0], [log2(1.0)] is [0.0], [1.0 * 0.0] is [0.0] and
    [0.0 - 0.0] is [0.0]. *)
Theorem entropy_of_repeated_char `{Fl : PyFloat} (Laws : PyFloatLaws Fl)
    (c : ascii) (n : nat) :
  calculate_shannon_entropy (str_repeat c n) = f_zero.
Proof.
  destruct n as [|n]; [done|].
  unfold calculate_shannon_entropy.
  change (is_empty (str_repeat c (S n))) with false. cbv iota zeta.
  rewrite char_freq_repeat, length_str_repeat. simpl.
  rewrite f_log2_one by lia. rewrite f_mul_one_zero by lia.
  apply f_sub_zero_zero.
Qed.

Lemma entropy_of_repeated_char_witness :
  calculate_shannon_entropy (Fl := RFloat) "aaaa" = 0%R
  ∧ calculate_shannon_entropy (Fl := RFloat) "" = 0%R.
Proof.
  split.
  - exact (entropy_of_repeated_char RFloat_laws "a" 4).
  - exact (entropy_of_repeated_char RFloat_laws "a" 0).
Defined.

(** ** Hash classification *)

Lemma str_app_cons (c : ascii) (t s : string) :
  (String c t ++ s)%string = String c (t ++ s)%string.
Proof. reflexivity. Qed.

Lemma str_app_nil_l (s : string) : ("" ++ s)%string = s.
Proof. reflexivity. Qed.

Lemma str_app_nil_r (t : string) : t = (t ++ "")%string.
Proof.
  induction t as [|c t IH]; [done|]. rewrite str_app_cons. by rewrite <- IH.
Qed.

Lemma rep_loop_chr (p : ascii → bool) (k : string → bool) (fuel lo : nat)
    (hi : option nat) (s : string) :
  String.length s < fuel →
  rep_loop (accept (Chr p)) k fuel lo hi s = true ↔
  ∃ h rest, s = h ++ rest ∧ lo ≤ String.length h
            ∧ (∀ x, hi = Some x → String.length h ≤ x)
            ∧ str_all p h = true ∧ k rest = true.
Proof.
  revert lo hi s. induction fuel as [|fuel IH]; intros lo hi s Hfuel; [lia|].
  simpl. rewrite orb_true_iff, andb_true_iff. split.
  - intros [H0|[Hopen Hstep]].
    + destruct lo; [|done]. exists "", s. repeat split; simpl; try done; lia.
    + destruct s as [|c s']; [done|].
      apply andb_prop in Hstep as [Hc Hrest].
      apply IH in Hrest as (h & rest & -> & Hlo & Hhi & Hall & Hk);
        [|simpl in Hfuel; lia].
      exists (String c h), rest. rewrite str_app_cons. simpl. rewrite Hc, Hall.
      repeat split; try done; [lia|].
      intros x ->. destruct x as [|x]; [done|].
      specialize (Hhi x eq_refl). lia.
  - intros (h & rest & -> & Hlo & Hhi & Hall & Hk).
    destruct h as [|c h]; rewrite ?str_app_cons, ?str_app_nil_l in *; simpl in *.
    + left. by destruct lo; [|lia].
    + right. apply andb_prop in Hall as [Hc Hall]. split.
      * destruct hi as [[|x]|]; try done. specialize (Hhi 0 eq_refl). lia.
      * rewrite Hc. simpl. apply IH; [lia|].
        exists h, rest. repeat split; try done; [lia|].
        intros x Hx. destruct hi as [[|y]|]; simpl in Hx; try done.
        -- specialize (Hhi 0 eq_refl). lia.
        -- injection Hx as <-. specialize (Hhi (S y) eq_refl). lia.
Qed.


(** What [hash_pattern.match] accepts: between 32 and 64 hexadecimal
    characters, then the end of the string or one final newline. *)
Lemma hash_pattern_match (s : string) :
  re_match hash_pattern s = true ↔
  ∃ h rest, s = h ++ rest ∧ str_all is_hex h = true
            ∧ 32 ≤ String.length h ≤ 64
            ∧ (rest = "" ∨ rest = String newline "").
Proof.
  change (re_match hash_pattern s)
    with (rep_loop (accept (Chr is_hex)) (λ s', accept Dollar s' (λ _, true))
                   (S (32 + String.length s)) 32 (Some 64) s).
  rewrite rep_loop_chr by lia. cbn [accept]. split.
  - intros (h & rest & -> & Hlo & Hhi & Hall & Hk).
    exists h, rest. specialize (Hhi 64 eq_refl).
    repeat split; try done.
    rewrite andb_true_r in Hk. destruct rest as [|c [|]]; simpl in Hk; try done.
    + by left.
    + right. unfold chr_eqb in Hk. apply N.eqb_eq in Hk.
      unfold code in Hk. apply (f_equal ascii_of_N) in Hk.
      rewrite !ascii_N_embedding in Hk. by subst.
  - intros (h & rest & -> & Hall & [Hlo Hhi] & Hrest).
    exists h, rest. repeat split; try done.
    + by intros x [= <-].
    + by destruct Hrest as [->| ->].
Qed.

(** A hexadecimal string of length 32, 40 or 64 matches [hash_pattern]. *)
Lemma hash_pattern_32_40_64 (s : string) :
  str_all is_hex s = true →
  String.length s ∈ [32; 40; 64] →
  re_match hash_pattern s = true.
Proof.
  intros Hall Hlen. apply hash_pattern_match. exists s, "".
  pose proof (str_app_nil_r s) as Happ.
  repeat split; try done; [| |by left];
    rewrite !elem_of_cons, elem_of_nil in Hlen; lia.
Qed.

(** So does one of any length from 32 to 64. *)
Lemma hash_pattern_32_to_64 (s : string) :
  str_all is_hex s = true →
  32 ≤ String.length s ≤ 64 →
  re_match hash_pattern s = true.
Proof.
  intros Hall Hlen. apply hash_pattern_match. exists s, "".
  pose proof (str_app_nil_r s) as Happ.
  repeat split; try done; [lia | lia | by left].
Qed.

(** The classifiers that compile a [hash_pattern] answer [hash] exactly when
    it matches, before they look at mask characters. *)
Lemma detect_masking_hash_iff (s : string) :
  (EmailMatcher.detect_masking s = HASH ↔ re_match hash_pattern s = true)
  ∧ (PhoneMatcher.detect_masking s = HASH ↔ re_match hash_pattern s = true)
  ∧ (SSNMatcher.detect_masking s = HASH ↔ re_match hash_pattern s = true)
  ∧ (IPAddressMatcher.detect_masking s = HASH ↔ re_match hash_pattern s = true)
  ∧ (AccountNumberMatcher.detect_masking s = HASH ↔ re_match hash_pattern s = true)
  ∧ (detect_credit_card_masking s = Some HASH ↔ re_match hash_pattern s = true).
Proof.
  unfold EmailMatcher.detect_masking, PhoneMatcher.detect_masking,
    SSNMatcher.detect_masking, IPAddressMatcher.detect_masking,
    AccountNumberMatcher.detect_masking, detect_credit_card_masking.
  destruct (re_match hash_pattern s); repeat split; intros H; try done;
    repeat match type of H with
    | context [if ?b then _ else _] => destruct b
    | context [match ?o with Some _ => _ | None => _ end] => destruct o
    end; discriminate H.
Qed.

(** The DOB and ZIP classifiers have no hash rule. *)
Lemma detect_masking_dob_zip_never_hash (s : string) :
  DOBMatcher.detect_masking s ≠ HASH ∧ ZipCodeMatcher.detect_masking s ≠ HASH.
Proof.
  unfold DOBMatcher.detect_masking, ZipCodeMatcher.detect_masking.
  split; [by destruct (_ || _) | done].
Qed.

(** C2 (the code departs from the claim).  A string of 33 hexadecimal
    characters, a length other than 32, 40 and 64, is classified [hash] by
    the email, phone, SSN, IP, account-number and credit-card classifiers;
    the DOB classifier calls a 32-character hexadecimal string [plaintext]. *)
Theorem hash_classification_of_33_hex_chars :
  str_all is_hex hex33 = true
  ∧ String.length hex33 = 33
  ∧ EmailMatcher.detect_masking hex33 = HASH
  ∧ PhoneMatcher.detect_masking hex33 = HASH
  ∧ SSNMatcher.detect_masking hex33 = HASH
  ∧ IPAddressMatcher.detect_masking hex33 = HASH
  ∧ AccountNumberMatcher.detect_masking hex33 = HASH
  ∧ detect_credit_card_masking hex33 = Some HASH
  ∧ String.length hex32 = 32
  ∧ str_all is_hex hex32 = true
  ∧ DOBMatcher.detect_masking hex32 = PLAINTEXT.
Proof. vm_compute. repeat split. Qed.

(** ** The Luhn validator *)

Lemma digits_of_Some (s : string) (ds : list nat) :
  digits_of s = Some ds ↔ str_all is_decimal s = true ∧ ds = digit_values s.
Proof.
  unfold digits_of, digit_values. revert ds.
  induction s as [|c s IH]; intros ds.
  - simpl. split; [by intros [= <-] | by intros [_ ->]].
  - change (mapM int_of_chr (list_ascii_of_string (String c s)))
      with (int_of_chr c ≫= λ y,
            mapM int_of_chr (list_ascii_of_string s) ≫= λ k, mret (y :: k)).
    change (int_of_chr c)
      with (if is_decimal c then Some (digit_value c) else None).
    change (str_all is_decimal (String c s))
      with (is_decimal c && str_all is_decimal s).
    change (digit_value <$> list_ascii_of_string (String c s))
      with (digit_value c :: (digit_value <$> list_ascii_of_string s)).
    destruct (mapM int_of_chr (list_ascii_of_string s)) as [ds'|] eqn:E;
      destruct (is_decimal c); simpl.
    + destruct (IH ds') as [IH1 _]. destruct (IH1 eq_refl) as [Hall ->].
      split; [by intros [= <-] | by intros [_ ->]].
    + split; [done | by intros [? _]].
    + split; [done|]. intros [Hall _].
      destruct (IH (digit_value <$> list_ascii_of_string s)) as [_ IH2].
      by specialize (IH2 (conj Hall eq_refl)).
    + split; [done | by intros [? _]].
Qed.

Lemma digit_value_lt_10 (c : ascii) : is_decimal c = true → digit_value c < 10.
Proof.
  unfold is_decimal, in_range, digit_value. intros H.
  apply andb_prop in H as [H1 H2].
  apply N.leb_le in H1, H2. change (code "0") with 48%N in H1.
  change (code "9") with 57%N in H2. lia.
Qed.

Lemma digit_values_lt_10 (s : string) :
  str_all is_decimal s = true → Forall (λ d, d < 10) (digit_values s).
Proof.
  unfold digit_values. induction s as [|c s IH]; simpl; [by constructor|].
  intros H. apply andb_prop in H as [Hc Hs]. constructor; [|by apply IH].
  by apply digit_value_lt_10.
Qed.

Lemma foldl_add_acc (a : nat) (l : list nat) :
  foldl Nat.add a l = a + foldl Nat.add 0 l.
Proof.
  revert a. induction l as [|y l IH]; intros a; simpl; [lia|].
  rewrite (IH (a + y)), (IH y). lia.
Qed.

Lemma sum_cons (x : nat) (l : list nat) : sum (x :: l) = x + sum l.
Proof. unfold sum. simpl. apply foldl_add_acc. Qed.

(** [sum(digits_of(d * 2))] for a digit [d]. *)
Lemma doubled_digit_sum (d : nat) :
  d < 10 →
  ∃ ds, digits_of (str_of_nat (d * 2)) = Some ds ∧ sum ds = digit_sum (d * 2).
Proof.
  intros H.
  do 10 (destruct d as [|d]; [eexists; split; vm_compute; reflexivity|]).
  lia.
Qed.

Lemma add_doubled_Some (acc : nat) (evens : list nat) :
  Forall (λ d, d < 10) evens →
  add_doubled acc evens = Some (acc + sum_doubled evens).
Proof.
  intros H. revert acc. induction H as [|d l Hd Hl IH]; intros acc; simpl.
  - by rewrite Nat.add_0_r.
  - destruct (doubled_digit_sum d Hd) as (ds & -> & Hsum). simpl.
    rewrite IH, Hsum. f_equal. lia.
Qed.

Lemma every_other_cons {A} (x : A) (l : list A) :
  every_other (x :: l) = x :: every_other (tail l).
Proof. by destruct l. Qed.

Lemma Forall_every_other {A} (P : A → Prop) (l : list A) :
  Forall P l → Forall P (every_other l) ∧ Forall P (every_other (tail l)).
Proof.
  induction 1 as [|x l Hx Hl [IH1 IH2]]; [by split; constructor|].
  rewrite every_other_cons. split; [by constructor | done].
Qed.

Lemma slices_weighted_sum (l : list nat) :
  sum (every_other l) + sum_doubled (every_other (tail l)) = weighted_sum false l
  ∧ sum (every_other (tail l)) + sum_doubled (every_other l) = weighted_sum true l.
Proof.
  induction l as [|x l [IH1 IH2]]; [done|].
  rewrite every_other_cons. cbn [tail weighted_sum negb].
  rewrite sum_cons. cbn [sum_doubled foldr]. fold (sum_doubled (every_other (tail l))).
  rewrite <- IH1, <- IH2. split; lia.
Qed.

Lemma weighted_sum_snoc (dbl : bool) (l : list nat) (d : nat) :
  weighted_sum dbl (l ++ [d]) =
  weighted_sum dbl l
  + (if xorb dbl (Nat.odd (length l)) then digit_sum (d * 2) else d).
Proof.
  revert dbl. induction l as [|x l IH]; intros dbl; cbn [weighted_sum app length].
  - destruct dbl; simpl; lia.
  - rewrite IH. rewrite Nat.odd_succ, <- Nat.negb_odd.
    destruct dbl, (Nat.odd (length l)); simpl; lia.
Qed.

Lemma weighted_sum_rev (ds : list nat) :
  weighted_sum false (rev ds) = luhn_total ds.
Proof.
  induction ds as [|d rest IH]; [done|].
  cbn [rev luhn_total]. rewrite weighted_sum_snoc, IH, length_rev.
  rewrite <- Nat.negb_odd. destruct (Nat.odd (length rest)); simpl; lia.
Qed.

(** The checksum of the source is the total of the specification. *)
Lemma luhn_checksum_total (s : string) :
  str_all is_decimal s = true →
  luhn_checksum s = Some (luhn_total (digit_values s) mod 10 =? 0).
Proof.
  intros Hall. unfold luhn_checksum.
  destruct (digits_of_Some s (digit_values s)) as [_ ->]; [|done]. simpl.
  pose proof (digit_values_lt_10 s Hall) as Hlt.
  unfold slice_m1_m2, slice_m2_m2.
  assert (Hrev : Forall (λ d, d < 10) (rev (digit_values s))).
  { apply Forall_forall. intros d Hd. apply list_elem_of_In, in_rev in Hd.
    rewrite Forall_forall in Hlt. apply Hlt. by apply list_elem_of_In. }
  rewrite add_doubled_Some by (by apply Forall_every_other). simpl.
  destruct (slices_weighted_sum (rev (digit_values s))) as [-> _].
  by rewrite weighted_sum_rev.
Qed.

Lemma luhn_checksum_None (s : string) :
  luhn_checksum s = None ↔ str_all is_decimal s = false.
Proof.
  split.
  - intros H. destruct (str_all is_decimal s) eqn:E; [|done].
    by rewrite luhn_checksum_total in H.
  - intros H. unfold luhn_checksum.
    destruct (digits_of s) as [ds|] eqn:E; [|done].
    apply digits_of_Some in E as [E _]. congruence.
Qed.

Lemma str_all_impl (p q : ascii → bool) (s : string) :
  (∀ c, p c = true → q c = true) → str_all p s = true → str_all q s = true.
Proof.
  intros Hpq. induction s as [|c s IH]; simpl; [done|].
  intros H. apply andb_prop in H as [Hc Hs]. by rewrite (Hpq c Hc), IH.
Qed.

Lemma is_decimal_is_digit (c : ascii) : is_decimal c = true → is_digit c = true.
Proof. unfold is_digit. by intros ->. Qed.

(** C5.  [is_credit_card] returns true exactly when the value, with white
    space and hyphens removed, consists of decimal digits only, is 13 to 19
    characters long, and its Luhn total is a multiple of 10. *)
Theorem is_credit_card_iff (value : string) :
  is_credit_card value = Some true ↔
  let cleaned := remove_separators value in
  str_all is_decimal cleaned = true
  ∧ 13 ≤ String.length cleaned ≤ 19
  ∧ luhn_total (digit_values cleaned) mod 10 = 0.
Proof.
  unfold is_credit_card. cbv zeta.
  set (cleaned := remove_separators value). split.
  - intros H.
    destruct (negb (isdigit cleaned)) eqn:Hd; [done|].
    destruct (String.length cleaned <? 13) eqn:H13; [done|].
    destruct (19 <? String.length cleaned) eqn:H19; [done|].
    simpl in H. apply Nat.ltb_ge in H13, H19.
    destruct (str_all is_decimal cleaned) eqn:Hall.
    + rewrite luhn_checksum_total in H by done.
      injection H as H. apply Nat.eqb_eq in H. split; [done|]. split; [lia|done].
    + apply luhn_checksum_None in Hall. congruence.
  - intros (Hall & [H13 H19] & Hmod).
    assert (isdigit cleaned = true) as ->.
    { unfold isdigit. destruct cleaned; [simpl in H13; lia|].
      simpl is_empty. simpl negb. rewrite andb_true_l.
      apply (str_all_impl is_decimal); [apply is_decimal_is_digit | exact Hall]. }
    apply Nat.ltb_ge in H13 as ->. apply Nat.ltb_ge in H19 as ->. simpl.
    rewrite luhn_checksum_total by done. f_equal. by apply Nat.eqb_eq.
Qed.

(** *** Single-digit substitutions *)

Lemma luhn_weight_inj (dbl : bool) (d d' : nat) :
  d < 10 → d' < 10 →
  luhn_weight dbl d mod 10 = luhn_weight dbl d' mod 10 → d = d'.
Proof.
  intros Hd Hd'. destruct dbl;
    do 10 (destruct d as [|d]; [
      do 10 (destruct d' as [|d']; [vm_compute; congruence|]); lia |]); lia.
Qed.

Lemma luhn_total_insert (ds : list nat) (i d d' : nat) :
  ds !! i = Some d →
  luhn_total (<[i := d']> ds) + luhn_weight (Nat.odd (length ds - 1 - i)) d =
  luhn_total ds + luhn_weight (Nat.odd (length ds - 1 - i)) d'.
Proof.
  revert i. induction ds as [|x ds IH]; intros i Hi; [done|].
  destruct i as [|i]; simpl in Hi.
  - injection Hi as ->. change (<[0:=d']> (d :: ds)) with (d' :: ds).
    cbn [luhn_total length].
    replace (S (length ds) - 1 - 0) with (length ds) by lia.
    rewrite <- Nat.negb_even. unfold luhn_weight.
    generalize (digit_sum (d * 2)), (digit_sum (d' * 2)). intros a b.
    destruct (Nat.even (length ds)); cbn [negb]; lia.
  - change (<[S i:=d']> (x :: ds)) with (x :: <[i:=d']> ds).
    cbn [luhn_total length]. rewrite length_insert.
    specialize (IH i Hi).
    assert (i < length ds) by (by apply lookup_lt_Some in Hi).
    replace (S (length ds) - 1 - S i) with (length ds - 1 - i) by lia.
    generalize dependent (luhn_weight (Nat.odd (length ds - 1 - i))).
    intros w Hw. destruct (Nat.even (length ds)); lia.
Qed.

Lemma luhn_total_insert_mod (ds : list nat) (i d d' : nat) :
  ds !! i = Some d → d < 10 → d' < 10 → d ≠ d' →
  luhn_total ds mod 10 = 0 →
  luhn_total (<[i := d']> ds) mod 10 ≠ 0.
Proof.
  intros Hi Hd Hd' Hne H0 H0'.
  pose proof (luhn_total_insert ds i d d' Hi) as Heq.
  set (b := Nat.odd (length ds - 1 - i)) in *.
  apply Hne, (luhn_weight_inj b); [done..|].
  apply (f_equal (λ n, n mod 10)) in Heq.
  rewrite (Nat.Div0.add_mod (luhn_total (<[i:=d']> ds))) in Heq.
  rewrite (Nat.Div0.add_mod (luhn_total ds)) in Heq.
  rewrite H0, H0', !Nat.add_0_l, !Nat.Div0.mod_mod in Heq. done.
Qed.

Lemma digit_value_inj (c c' : ascii) :
  is_decimal c = true → is_decimal c' = true →
  digit_value c = digit_value c' → c = c'.
Proof.
  unfold is_decimal, in_range, digit_value. intros H H' Heq.
  apply andb_prop in H as [H1 H2]. apply andb_prop in H' as [H1' H2'].
  apply N.leb_le in H1, H2, H1', H2'. change (code "0") with 48%N in *.
  assert (Hc : code c = code c') by lia.
  unfold code in Hc. apply (f_equal ascii_of_N) in Hc.
  by rewrite !ascii_N_embedding in Hc.
Qed.

Lemma str_all_lookup (p : ascii → bool) (s : string) (i : nat) (c : ascii) :
  str_all p s = true → list_ascii_of_string s !! i = Some c → p c = true.
Proof.
  revert i. induction s as [|x s IH]; intros i Hall Hi; [done|].
  simpl in Hall. apply andb_prop in Hall as [Hx Hs].
  destruct i as [|i]; simpl in Hi; [by injection Hi as <- | by eapply IH].
Qed.

Lemma list_ascii_of_set_chr (i : nat) (c : ascii) (s : string) :
  list_ascii_of_string (set_chr i c s) = <[i := c]> (list_ascii_of_string s).
Proof. unfold set_chr. apply list_ascii_of_string_of_list_ascii. Qed.

Lemma str_all_list (p : ascii → bool) (s : string) :
  str_all p s = true ↔ Forall (λ c, p c = true) (list_ascii_of_string s).
Proof.
  induction s as [|x s IH]; simpl; [by split; [constructor|]|].
  rewrite andb_true_iff, Forall_cons. by rewrite IH.
Qed.

Lemma str_all_set_chr (p : ascii → bool) (i : nat) (c : ascii) (s : string) :
  str_all p s = true → p c = true → str_all p (set_chr i c s) = true.
Proof.
  rewrite !str_all_list, list_ascii_of_set_chr. intros Hs Hc.
  by apply Forall_insert.
Qed.

Lemma length_list_ascii (s : string) :
  length (list_ascii_of_string s) = String.length s.
Proof. induction s as [|x s IH]; simpl; [done | by rewrite IH]. Qed.

Lemma length_set_chr (i : nat) (c : ascii) (s : string) :
  String.length (set_chr i c s) = String.length s.
Proof.
  by rewrite <- !length_list_ascii, list_ascii_of_set_chr, length_insert.
Qed.

Lemma digit_values_set_chr (i : nat) (c : ascii) (s : string) :
  digit_values (set_chr i c s) = <[i := digit_value c]> (digit_values s).
Proof.
  unfold digit_values. by rewrite list_ascii_of_set_chr, list_fmap_insert.
Qed.

(** A string of decimal digits holds no separator. *)
Lemma remove_separators_decimal (s : string) :
  str_all is_decimal s = true → remove_separators s = s.
Proof.
  unfold remove_separators. induction s as [|x s IH]; simpl; [done|].
  intros H. apply andb_prop in H as [Hx Hs]. rewrite (IH Hs).
  assert (is_space x || chr_eqb "-" x = false) as ->; [|done].
  unfold is_decimal, in_range in Hx. apply andb_prop in Hx as [H1 H2].
  apply N.leb_le in H1, H2. change (code "0") with 48%N in H1.
  change (code "9") with 57%N in H2.
  unfold is_space, chr_eqb. change (code "-") with 45%N.
  cbv zeta. repeat rewrite orb_false_iff. repeat rewrite andb_false_iff.
  repeat split; try (left; apply N.leb_gt; lia); try (right; apply N.leb_gt; lia);
    apply N.eqb_neq; lia.
Qed.

(** On 13 to 19 decimal digits the validator is the Luhn test. *)
Lemma is_credit_card_decimal (s : string) :
  str_all is_decimal s = true →
  13 ≤ String.length s ≤ 19 →
  is_credit_card s = Some (luhn_total (digit_values s) mod 10 =? 0).
Proof.
  intros Hall [H13 H19]. unfold is_credit_card.
  rewrite remove_separators_decimal by done.
  assert (isdigit s = true) as ->.
  { unfold isdigit. destruct s; [simpl in H13; lia|].
    simpl is_empty. simpl negb. rewrite andb_true_l.
    apply (str_all_impl is_decimal); [apply is_decimal_is_digit | exact Hall]. }
  apply Nat.ltb_ge in H13 as ->. apply Nat.ltb_ge in H19 as ->. simpl.
  by apply luhn_checksum_total.
Qed.

(** C6.  In a string of 13 to 19 decimal digits that [is_credit_card]
    accepts, replacing any one digit by a different digit gives a string
    that [is_credit_card] rejects. *)
Theorem luhn_detects_single_digit_error (s : string) (i : nat) (c c' : ascii) :
  str_all is_decimal s = true →
  13 ≤ String.length s ≤ 19 →
  is_credit_card s = Some true →
  list_ascii_of_string s !! i = Some c →
  is_decimal c' = true →
  c' ≠ c →
  is_credit_card (set_chr i c' s) = Some false.
Proof.
  intros Hall Hlen Hok Hi Hc' Hne.
  rewrite is_credit_card_decimal in Hok by done.
  injection Hok as Hmod. apply Nat.eqb_eq in Hmod.
  pose proof (str_all_lookup _ _ _ _ Hall Hi) as Hc.
  rewrite is_credit_card_decimal;
    [|by apply str_all_set_chr | by rewrite length_set_chr].
  f_equal. apply Nat.eqb_neq. rewrite digit_values_set_chr.
  apply (luhn_total_insert_mod _ _ (digit_value c)); try done.
  - unfold digit_values. by rewrite list_lookup_fmap, Hi.
  - by apply digit_value_lt_10.
  - by apply digit_value_lt_10.
  - intros Heq. apply Hne. symmetry. by apply digit_value_inj.
Qed.

Lemma luhn_detects_single_digit_error_witness :
  is_credit_card (set_chr 15 "7" visa_sample) = Some false.
Proof.
  apply (luhn_detects_single_digit_error visa_sample 15 "6" "7");
    first [reflexivity | (vm_compute; lia) | (intros H; discriminate H)].
Defined.

(** ** Cycle detection on a triangle *)

Ltac decide_names :=
  repeat match goal with
  | |- context [decide (?x = ?x)] =>
      rewrite (decide_True (P := x = x)) by reflexivity
  | |- context [decide (?x = ?y)] =>
      rewrite (decide_False (P := x = y)) by congruence
  | |- context [decide (?x ∉ ?X)] =>
      first [ rewrite (decide_True (P := x ∉ X)) by (set_unfold; intuition congruence)
            | rewrite (decide_False (P := x ∉ X)) by (set_unfold; intuition congruence) ]
  | |- context [decide (?x ∈ ?X)] =>
      first [ rewrite (decide_True (P := x ∈ X)) by (set_unfold; intuition congruence)
            | rewrite (decide_False (P := x ∈ X)) by (set_unfold; intuition congruence) ]
  end.

Ltac run_dfs :=
  repeat (cbn [detect_cycles build_graph foldl graph_add graph_get e_source
               e_target dfs dfs_roots index_of visited rec_stack cycles
               mbind option_bind fmap option_fmap option_map list_fmap fst
               drop app];
          decide_names).

(** The traversal from root [x] of the triangle [x → y → z → x], with the
    keys of the adjacency dict in any order. *)
Lemma dfs_triangle (x y z : string) (graph : Graph) (n : nat) :
  x ≠ y → y ≠ z → x ≠ z →
  graph_get x graph = Some [y] →
  graph_get y graph = Some [z] →
  graph_get z graph = Some [x] →
  dfs graph (S (S (S n))) x [] (mkDfsState ∅ ∅ []) =
  Some (mkDfsState (∅ ∪ {[x]} ∪ {[y]} ∪ {[z]})
                   ((((∅ ∪ {[x]} ∪ {[y]} ∪ {[z]}) ∖ {[z]}) ∖ {[y]}) ∖ {[x]})
                   [[x; y; z; x]]).
Proof.
  intros Hxy Hyz Hxz Gx Gy Gz.
  cbn [dfs visited rec_stack cycles app]. rewrite Gx.
  decide_names. cbn [dfs visited rec_stack cycles app mbind option_bind].
  rewrite Gy. decide_names.
  cbn [dfs visited rec_stack cycles app mbind option_bind].
  rewrite Gz. decide_names.
  run_dfs. reflexivity.
Qed.

Lemma dfs_roots_triangle (x y z : string) (graph : Graph) (n : nat) :
  x ≠ y → y ≠ z → x ≠ z →
  graph_get x graph = Some [y] →
  graph_get y graph = Some [z] →
  graph_get z graph = Some [x] →
  (∃ k2 k3, graph.*1 = [x; k2; k3] ∧ k2 ∈ [x; y; z] ∧ k3 ∈ [x; y; z]) →
  cycles <$> dfs_roots graph (S (S (S n))) (graph.*1) (mkDfsState ∅ ∅ [])
  = Some [[x; y; z; x]].
Proof.
  intros Hxy Hyz Hxz Gx Gy Gz (k2 & k3 & -> & H2 & H3).
  cbn [dfs_roots visited]. rewrite (decide_True (P := x ∉ ∅)) by apply not_elem_of_empty.
  rewrite (dfs_triangle x y z graph n) by done.
  cbn [mbind option_bind dfs_roots visited].
  rewrite (decide_False (P := k2 ∉ _)).
  2:{ rewrite !elem_of_cons, elem_of_nil in H2. set_unfold. intuition congruence. }
  cbn [mbind option_bind dfs_roots visited].
  rewrite (decide_False (P := k3 ∉ _)).
  2:{ rewrite !elem_of_cons, elem_of_nil in H3. set_unfold. intuition congruence. }
  reflexivity.
Qed.

(** C8.  On a lineage with exactly the edges [a → b], [b → c], [c → a]
    between three distinct datasets, listed in any order, [detect_cycles]
    returns exactly one cycle: the three datasets in traversal order from
    the DFS root (the source of the first listed edge), closed by the root.
    Any recursion budget of at least 3 is enough. *)
Theorem detect_cycles_triangle (a b c : string) (config : SuiteConfig) (fuel : nat) :
  a ≠ b → b ≠ c → a ≠ c →
  lineage config ≡ₚ [mkLineageEdge a b; mkLineageEdge b c; mkLineageEdge c a] →
  3 ≤ fuel →
  ∃ r1 r2 r3,
    e_source <$> head (lineage config) = Some r1
    ∧ (r1, r2, r3) ∈ [(a, b, c); (b, c, a); (c, a, b)]
    ∧ detect_cycles fuel config = Some [[r1; r2; r3; r1]].
Proof.
  intros Hab Hbc Hac Hperm Hfuel.
  destruct fuel as [|[|[|n]]]; [lia..|].
  symmetry in Hperm. apply permutations_Permutation in Hperm. cbn in Hperm.
  rewrite !elem_of_cons, elem_of_nil in Hperm.
  assert (Hrun : ∀ x y z, x ≠ y → y ≠ z → x ≠ z →
    graph_get x (build_graph (lineage config)) = Some [y] →
    graph_get y (build_graph (lineage config)) = Some [z] →
    graph_get z (build_graph (lineage config)) = Some [x] →
    (∃ k2 k3, (build_graph (lineage config)).*1 = [x; k2; k3]
              ∧ k2 ∈ [x; y; z] ∧ k3 ∈ [x; y; z]) →
    detect_cycles (S (S (S n))) config = Some [[x; y; z; x]]).
  { intros x y z ? ? ? Gx Gy Gz Hk. unfold detect_cycles.
    pose proof (dfs_roots_triangle x y z _ n ltac:(done) ltac:(done) ltac:(done)
                  Gx Gy Gz Hk) as Hr.
    destruct (dfs_roots _ _ _ _) as [st|]; [|done].
    simpl in Hr. simpl. congruence. }
  destruct Hperm as [H|[H|[H|[H|[H|[H|[]]]]]]]; rewrite H in *; clear H.
  all: first
    [ exists a, b, c; split; [reflexivity|]; split; [rewrite !elem_of_cons; tauto|];
      apply Hrun; try done; run_dfs; try reflexivity;
      eexists _, _; split; [reflexivity|]; rewrite !elem_of_cons; tauto
    | exists b, c, a; split; [reflexivity|]; split; [rewrite !elem_of_cons; tauto|];
      apply Hrun; try done; try congruence; run_dfs; try reflexivity;
      eexists _, _; split; [reflexivity|]; rewrite !elem_of_cons; tauto
    | exists c, a, b; split; [reflexivity|]; split; [rewrite !elem_of_cons; tauto|];
      apply Hrun; try done; try congruence; run_dfs; try reflexivity;
      eexists _, _; split; [reflexivity|]; rewrite !elem_of_cons; tauto ].
Qed.

Lemma detect_cycles_triangle_witness :
  detect_cycles 3 triangle_config = Some [["A"; "B"; "C"; "A"]].
Proof.
  destruct (detect_cycles_triangle "A" "B" "C" triangle_config 3)
    as (r1 & r2 & r3 & Hroot & Hrot & Hrun);
    [discriminate | discriminate | discriminate | reflexivity | lia |].
  injection Hroot as <-.
  rewrite !elem_of_cons, elem_of_nil in Hrot.
  destruct Hrot as [H|[H|[H|[]]]]; inversion H; subst r2 r3. exact Hrun.
Defined.

(** ** The recording of occurrences into buckets *)

Lemma dict_get_set_eq (t : PIIType) (l : list Violation) (d : ColFindings) :
  dict_get t (dict_set t l d) = Some l.
Proof.
  induction d as [|[t' l'] d IH]; simpl.
  - by rewrite decide_True.
  - destruct (decide (t' = t)) as [->|Hne]; simpl.
    + by rewrite decide_True.
    + by rewrite decide_False.
Qed.

Lemma dict_get_set_ne (t t' : PIIType) (l : list Violation) (d : ColFindings) :
  t ≠ t' → dict_get t' (dict_set t l d) = dict_get t' d.
Proof.
  intros Hne. induction d as [|[t0 l0] d IH]; simpl.
  - by rewrite decide_False.
  - destruct (decide (t0 = t)) as [->|Hne0]; simpl.
    + by rewrite !decide_False.
    + destruct (decide (t0 = t')); [done | exact IH].
Qed.

Lemma dict_keys_set (t : PIIType) (l : list Violation) (d : ColFindings) :
  (dict_set t l d).*1 = if decide (t ∈ d.*1) then d.*1 else (d.*1 ++ [t])%list.
Proof.
  induction d as [|[t0 l0] d IH].
  - done.
  - cbn [dict_set]. destruct (decide (t0 = t)) as [->|Hne0].
    + rewrite !fmap_cons. cbn [fst]. rewrite decide_True; [done | left].
    + rewrite !fmap_cons. cbn [fst]. rewrite IH. destruct (decide (t ∈ d.*1)) as [Hin|Hnin].
      * rewrite decide_True; [done | by right].
      * rewrite decide_False; [done|].
        rewrite elem_of_cons. intros [?|?]; congruence.
Qed.

Lemma dict_get_None (t : PIIType) (d : ColFindings) :
  dict_get t d = None ↔ t ∉ d.*1.
Proof.
  induction d as [|[t0 l0] d IH]; simpl.
  - split; [intros _; apply not_elem_of_nil | done].
  - rewrite not_elem_of_cons. destruct (decide (t0 = t)) as [->|Hne].
    + split; [done | by intros [? _]].
    + rewrite IH. split; [by intros ?; split | by intros [_ ?]].
Qed.

Lemma dict_get_elem_of (t : PIIType) (l : list Violation) (d : ColFindings) :
  NoDup d.*1 → (t, l) ∈ d ↔ dict_get t d = Some l.
Proof.
  induction d as [|[t0 l0] d IH]; simpl; intros Hnd.
  - split; [by intros ?%elem_of_nil | done].
  - apply NoDup_cons in Hnd as [Hnin Hnd]. rewrite elem_of_cons.
    destruct (decide (t0 = t)) as [->|Hne].
    + split.
      * intros [[= ->]|Hin]; [done|]. exfalso. apply Hnin.
        apply list_elem_of_fmap. by exists (t, l).
      * intros [= ->]. by left.
    + rewrite <- (IH Hnd). split; [|by right].
      intros [[= ? ?]|?]; [congruence | done].
Qed.

Lemma record_keys_NoDup (mv : Z) (t : PIIType) (v : Violation) (d : ColFindings) :
  NoDup d.*1 → NoDup (record mv t v d).*1.
Proof.
  intros Hnd. unfold record.
  assert (Hset : ∀ l d', NoDup d'.*1 → NoDup (dict_set t l d').*1).
  { intros l d' Hd'. rewrite dict_keys_set. case_decide; [done|].
    apply NoDup_app. split; [done|]. split; [|apply NoDup_singleton].
    intros x Hx ->%list_elem_of_singleton. done. }
  destruct (dict_get t d) as [l|] eqn:E.
  - rewrite E. case_match; [by apply Hset | done].
  - rewrite dict_get_set_eq. simpl. case_match; by repeat apply Hset.
Qed.

Lemma dict_get_record_eq (mv : Z) (t : PIIType) (v : Violation) (d : ColFindings) :
  dict_get t (record mv t v d) = Some (extend mv (default [] (dict_get t d)) [v]).
Proof.
  unfold record, extend.
  assert (Hone : ∀ l : list Violation,
    (if (Z.of_nat (length l) <? mv)%Z then (l ++ [v])%list else l)
    = (l ++ take (Z.to_nat mv - length l) [v])%list).
  { intros l. destruct (Z.ltb_spec (Z.of_nat (length l)) mv).
    - destruct (Z.to_nat mv - length l) as [|k] eqn:Ek; [lia | by destruct k].
    - replace (Z.to_nat mv - length l) with 0 by lia. simpl. by rewrite app_nil_r. }
  destruct (dict_get t d) as [l|] eqn:E.
  - rewrite E. cbn [default]. rewrite <- Hone.
    destruct (_ <? _)%Z; [by rewrite dict_get_set_eq | done].
  - rewrite dict_get_set_eq. cbn [default]. rewrite <- (Hone []).
    destruct (_ <? _)%Z; by rewrite !dict_get_set_eq.
Qed.

Lemma dict_get_record_ne (mv : Z) (t t' : PIIType) (v : Violation) (d : ColFindings) :
  t ≠ t' → dict_get t' (record mv t v d) = dict_get t' d.
Proof.
  intros Hne. unfold record.
  destruct (dict_get t d) as [l|] eqn:E.
  - rewrite E. case_match; [by rewrite dict_get_set_ne | done].
  - rewrite dict_get_set_eq. case_match; by rewrite !dict_get_set_ne.
Qed.

Lemma extend_extend (mv : Z) (l a b : list Violation) :
  extend mv (extend mv l a) b = extend mv l (a ++ b).
Proof.
  unfold extend. rewrite take_app, <- app_assoc. f_equal. f_equal.
  rewrite length_app, length_take. f_equal. lia.
Qed.

Lemma extend_nil (mv : Z) (l : list Violation) : extend mv l [] = l.
Proof. unfold extend. by rewrite take_nil, app_nil_r. Qed.

Lemma bucket_cons (t : PIIType) (h : Hit) (hits : list Hit) :
  bucket t (h :: hits) =
  if decide (h.1 = t) then h.2 :: bucket t hits else bucket t hits.
Proof. unfold bucket. rewrite filter_cons. by case_decide. Qed.

(** The bucket of [t] after recording [hits]: what it held, extended under
    the cap by the hits of type [t]; a key appears once a hit of its type
    has been seen, even when the cap leaves its bucket empty. *)
Lemma dict_get_record_all (mv : Z) (t : PIIType) (d : ColFindings) (hits : list Hit) :
  dict_get t (record_all mv d hits) =
  match dict_get t d with
  | Some l => Some (extend mv l (bucket t hits))
  | None =>
      match bucket t hits with
      | [] => None
      | b => Some (extend mv [] b)
      end
  end.
Proof.
  revert d. induction hits as [|[t0 v] hits IH]; intros d.
  - simpl. destruct (dict_get t d); [by rewrite extend_nil | done].
  - change (record_all mv d ((t0, v) :: hits))
      with (record_all mv (record mv t0 v d) hits).
    rewrite IH, bucket_cons. simpl. destruct (decide (t0 = t)) as [->|Hne].
    + rewrite dict_get_record_eq.
      destruct (dict_get t d) as [l|]; simpl;
        by rewrite extend_extend.
    + rewrite dict_get_record_ne by done. done.
Qed.

Lemma record_all_keys_NoDup (mv : Z) (d : ColFindings) (hits : list Hit) :
  NoDup d.*1 → NoDup (record_all mv d hits).*1.
Proof.
  revert d. induction hits as [|[t0 v] hits IH]; intros d Hnd; [done|].
  apply IH. by apply record_keys_NoDup.
Qed.

(** The entries of the buckets recorded from scratch. *)
Lemma elem_of_record_all (mv : Z) (t : PIIType) (l : list Violation) (hits : list Hit) :
  (t, l) ∈ record_all mv [] hits ↔
  bucket t hits ≠ [] ∧ l = take (Z.to_nat mv) (bucket t hits).
Proof.
  rewrite dict_get_elem_of by (apply record_all_keys_NoDup; constructor).
  rewrite dict_get_record_all. simpl. unfold extend. simpl.
  rewrite Nat.sub_0_r.
  destruct (bucket t hits) as [|v b]; [split; [done | by intros [? _]]|].
  split; [by intros [= <-] | by intros [_ ->]].
Qed.

(** ** The scans, retold through their occurrences *)

Lemma record_all_app (mv : Z) (d : ColFindings) (a b : list Hit) :
  record_all mv d (a ++ b) = record_all mv (record_all mv d a) b.
Proof. apply foldl_app. Qed.

Lemma scan_rows_hits (mv : Z)
    (scan_cell : nat → option string → ColFindings → option ColFindings)
    (cell_hits : nat → option string → option (list Hit)) :
  (∀ idx value cf,
     scan_cell idx value cf = h ← cell_hits idx value; Some (record_all mv cf h)) →
  ∀ cells idx cf,
    scan_rows scan_cell idx cells cf =
    hits ← column_hits cell_hits idx cells; Some (record_all mv cf hits).
Proof.
  intros Hcell cells. induction cells as [|value rest IH]; intros idx cf; [done|].
  cbn [scan_rows column_hits]. rewrite Hcell.
  destruct (cell_hits idx value) as [h|]; [|done].
  cbn [mbind option_bind]. rewrite IH.
  destruct (column_hits cell_hits (S idx) rest) as [hs|]; [|done].
  cbn [mbind option_bind]. by rewrite record_all_app.
Qed.

Lemma record_standard_hits (mv : Z) (types : gset PIIType) (idx : nat)
    (value_str : string) (detected : list (PIIType * MaskingType)) (cf : ColFindings) :
  foldl (λ cf '(t, masking_type),
           if decide (t ∈ types)
           then record mv t (idx, value_str, masking_type) cf else cf)
        cf detected
  = record_all mv cf
      ((λ d, (d.1, (idx, value_str, d.2))) <$> filter (λ d, d.1 ∈ types) detected).
Proof.
  revert cf. induction detected as [|[t m] detected IH]; intros cf; [done|].
  cbn [foldl]. rewrite IH, filter_cons. cbn [fst].
  destruct (decide (t ∈ types)); done.
Qed.

Lemma forbidden_scan_cell_hits `{Fl : PyFloat} (types : gset PIIType) (mv : Z)
    (idx : nat) (value : option string) (cf : ColFindings) :
  forbidden_scan_cell types mv idx value cf =
  h ← forbidden_cell_hits types idx value; Some (record_all mv cf h).
Proof.
  unfold forbidden_scan_cell, forbidden_cell_hits.
  destruct value as [value|]; [|done].
  destruct (is_empty (strip value)); [done|]. cbv zeta.
  rewrite record_standard_hits.
  set (standard := (λ d, (d.1, (idx, strip value, d.2))) <$> _).
  destruct (decide (CREDIT_CARD ∈ types)).
  - destruct (is_credit_card (strip value)) as [[|]|]; cbn [mbind option_bind]; [|..|done].
    + destruct (detect_credit_card_masking (strip value)) as [m|];
        cbn [mbind option_bind]; [|done].
      rewrite !record_all_app. f_equal.
      destruct (decide (HIGH_ENTROPY_TOKEN ∈ types)); [|done].
      by destruct (is_high_entropy_token (strip value)).
    + rewrite !record_all_app. f_equal.
      destruct (decide (HIGH_ENTROPY_TOKEN ∈ types)); [|done].
      by destruct (is_high_entropy_token (strip value)).
  - cbn [mbind option_bind]. rewrite !record_all_app. f_equal.
    destruct (decide (HIGH_ENTROPY_TOKEN ∈ types)); [|done].
    by destruct (is_high_entropy_token (strip value)).
Qed.

(** The acceptability check of the source decides the rule of the
    specification. *)
Lemma is_violation_unacceptable (hash_allowed : gset PIIType) (t : PIIType)
    (v : Violation) :
  is_violation hash_allowed t v.2 = true ↔ unacceptable hash_allowed (t, v).
Proof.
  unfold is_violation, unacceptable. cbn [fst snd].
  destruct v.2; repeat case_decide; try done; intuition congruence.
Qed.

Lemma record_masking_hits (mv : Z) (required hash_allowed : gset PIIType)
    (idx : nat) (value_str : string) (detected : list (PIIType * MaskingType))
    (cf : ColFindings) :
  foldl (λ cf '(t, masking_type),
           if decide (t ∈ required)
           then if is_violation hash_allowed t masking_type
                then record mv t (idx, value_str, masking_type) cf else cf
           else cf)
        cf detected
  = record_all mv cf
      (filter (unacceptable hash_allowed)
         ((λ d, (d.1, (idx, value_str, d.2))) <$> filter (λ d, d.1 ∈ required) detected)).
Proof.
  revert cf. induction detected as [|[t m] detected IH]; intros cf; [done|].
  cbn [foldl]. rewrite IH, filter_cons. cbn [fst].
  destruct (decide (t ∈ required)); [|done].
  rewrite fmap_cons, filter_cons. cbn [fst snd].
  pose proof (is_violation_unacceptable hash_allowed t (idx, value_str, m)) as Hv.
  cbn [snd] in Hv.
  destruct (is_violation hash_allowed t m).
  - rewrite decide_True by (by apply Hv). done.
  - rewrite decide_False; [done|]. intros H. apply Hv in H. done.
Qed.

Lemma masking_scan_cell_hits `{Fl : PyFloat} (required hash_allowed : gset PIIType)
    (mv : Z) (idx : nat) (value : option string) (cf : ColFindings) :
  masking_scan_cell required hash_allowed mv idx value cf =
  occ ← masking_cell_occurrences required idx value;
  Some (record_all mv cf (filter (unacceptable hash_allowed) occ)).
Proof.
  unfold masking_scan_cell, masking_cell_occurrences.
  destruct value as [value|]; [|done].
  destruct (is_empty (strip value)); [done|]. cbv zeta.
  rewrite record_masking_hits.
  set (standard := (λ d, (d.1, (idx, strip value, d.2))) <$> _).
  destruct (decide (CREDIT_CARD ∈ required)).
  - destruct (is_credit_card (strip value)) as [[|]|]; cbn [mbind option_bind]; [|..|done].
    + destruct (detect_credit_card_masking (strip value)) as [m|];
        cbn [mbind option_bind]; [|done].
      rewrite filter_app, record_all_app. f_equal.
      rewrite filter_cons, filter_nil.
      pose proof (is_violation_unacceptable hash_allowed CREDIT_CARD
                    (idx, strip value, m)) as Hv. cbn [snd] in Hv.
      destruct (is_violation hash_allowed CREDIT_CARD m).
      * rewrite decide_True by (by apply Hv). done.
      * rewrite decide_False; [done|]. intros H. apply Hv in H. done.
    + by rewrite app_nil_r.
  - cbn [mbind option_bind]. by rewrite app_nil_r.
Qed.

(** The findings of a column are made from its non-empty buckets. *)
Lemma to_findings_elem_of (mk : PIIType → list Violation → Violation → option Finding)
    (cf : ColFindings) (fs : list Finding) :
  to_findings mk cf = Some fs →
  ∀ f, f ∈ fs ↔ ∃ t first rest, (t, first :: rest) ∈ cf
                                ∧ mk t (first :: rest) first = Some f.
Proof.
  revert fs. induction cf as [|[t l] cf IH]; intros fs H f.
  - injection H as <-. split; [by intros ?%elem_of_nil|].
    by intros (? & ? & ? & ?%elem_of_nil & _).
  - cbn [to_findings] in H. destruct l as [|first rest].
    + rewrite (IH fs H f). split; intros (t' & first' & rest' & Hin & Hmk);
        exists t', first', rest'; (split; [|done]).
      * by right.
      * apply elem_of_cons in Hin as [[= _ ?]|?]; done.
    + destruct (mk t (first :: rest) first) as [f0|] eqn:Emk; [|done].
      cbn [mbind option_bind] in H.
      destruct (to_findings mk cf) as [fs'|]; [|done].
      cbn [mbind option_bind] in H. injection H as <-.
      rewrite elem_of_cons, (IH fs' eq_refl f). split.
      * intros [->|(t' & first' & rest' & Hin & Hmk)].
        -- exists t, first, rest. split; [left | done].
        -- exists t', first', rest'. split; [by right | done].
      * intros (t' & first' & rest' & Hin & Hmk).
        apply elem_of_cons in Hin as [[= -> -> ->]|Hin].
        -- left. congruence.
        -- right. by exists t', first', rest'.
Qed.

(** The findings of a frame are those of its columns. *)
Lemma scan_columns_elem_of
    (scan_cell : nat → option string → ColFindings → option ColFindings)
    (mk : string → PIIType → list Violation → Violation → option Finding)
    (df : DataFrame) (fs : list Finding) :
  scan_columns scan_cell mk df = Some fs →
  (∀ col cells, (col, cells) ∈ df →
     ∃ cf here, scan_rows scan_cell 0 cells [] = Some cf
                ∧ to_findings (mk col) cf = Some here
                ∧ ∀ f, f ∈ here → f ∈ fs)
  ∧ ∀ f, f ∈ fs ↔
         ∃ col cells cf t first rest,
           (col, cells) ∈ df
           ∧ scan_rows scan_cell 0 cells [] = Some cf
           ∧ (t, first :: rest) ∈ cf
           ∧ mk col t (first :: rest) first = Some f.
Proof.
  revert fs. induction df as [|[col cells] df IH]; intros fs H.
  - injection H as <-. split; [by intros ? ? ?%elem_of_nil|].
    intros f. split; [by intros ?%elem_of_nil|].
    by intros (? & ? & ? & ? & ? & ? & ?%elem_of_nil & _).
  - cbn [scan_columns] in H.
    destruct (scan_rows scan_cell 0 cells []) as [cf|] eqn:Erows; [|done].
    cbn [mbind option_bind] in H.
    destruct (to_findings (mk col) cf) as [here|] eqn:Ehere; [|done].
    cbn [mbind option_bind] in H.
    destruct (scan_columns scan_cell mk df) as [later|]; [|done].
    cbn [mbind option_bind] in H. injection H as <-.
    destruct (IH later eq_refl) as [IHret IHin]. split.
    + intros col' cells' [[= -> ->]|Hin]%elem_of_cons.
      * exists cf, here. repeat split; try done.
        intros f Hf. apply elem_of_app. by left.
      * destruct (IHret col' cells' Hin) as (cf' & here' & ? & ? & Hsub).
        exists cf', here'. repeat split; try done.
        intros f Hf. apply elem_of_app. right. by apply Hsub.
    + intros f. rewrite elem_of_app, (to_findings_elem_of _ _ _ Ehere), IHin. split.
      * intros [(t & first & rest & Hin & Hmk)|
                (col' & cells' & cf' & t & first & rest & Hin & Hr & Hb & Hmk)].
        -- exists col, cells, cf, t, first, rest. repeat split; try done. left.
        -- exists col', cells', cf', t, first, rest. repeat split; try done. by right.
      * intros (col' & cells' & cf' & t & first & rest & Hin & Hr & Hb & Hmk).
        apply elem_of_cons in Hin as [[= -> ->]|Hin].
        -- left. rewrite Erows in Hr. injection Hr as <-. by exists t, first, rest.
        -- right. by exists col', cells', cf', t, first, rest.
Qed.

Lemma to_findings_total (mk : PIIType → list Violation → Violation → option Finding)
    (cf : ColFindings) (fs : list Finding) (t : PIIType) (first : Violation)
    (rest : list Violation) :
  to_findings mk cf = Some fs →
  (t, first :: rest) ∈ cf →
  ∃ f, mk t (first :: rest) first = Some f ∧ f ∈ fs.
Proof.
  intros H Hin.
  destruct (mk t (first :: rest) first) as [f|] eqn:Emk.
  - exists f. split; [done|]. apply (to_findings_elem_of _ _ _ H).
    by exists t, first, rest.
  - exfalso. revert fs H. induction cf as [|[t' l'] cf IH]; intros fs H.
    + by apply elem_of_nil in Hin.
    + cbn [to_findings] in H. apply elem_of_cons in Hin as [[= <- <-]|Hin].
      * by rewrite Emk in H.
      * destruct l' as [|first' rest']; [by apply (IH Hin fs)|].
        destruct (mk t' (first' :: rest') first'); [|done].
        cbn [mbind option_bind] in H.
        destruct (to_findings mk cf) as [fs'|]; [|done]. by apply (IH Hin fs').
Qed.

Lemma column_hits_filter (P : Hit → Prop) `{∀ h, Decision (P h)}
    (cell_hits : nat → option string → option (list Hit))
    (cells : list (option string)) (idx : nat) :
  column_hits (λ i v, filter P <$> cell_hits i v) idx cells =
  filter P <$> column_hits cell_hits idx cells.
Proof.
  revert idx. induction cells as [|value rest IH]; intros idx; [done|].
  cbn [column_hits]. rewrite IH.
  destruct (cell_hits idx value) as [h|]; [|done].
  cbn [fmap option_fmap option_map mbind option_bind].
  destruct (column_hits cell_hits (S idx) rest) as [hs|]; [|done].
  cbn [fmap option_fmap option_map mbind option_bind]. by rewrite filter_app.
Qed.

(** The findings of a scan, in terms of the occurrences of each column:
    one finding for each type whose occurrences the cap does not cut down to
    nothing, made from the first [max_violations] of them. *)
Lemma scan_findings_spec (mv : Z)
    (scan_cell : nat → option string → ColFindings → option ColFindings)
    (cell_hits : nat → option string → option (list Hit))
    (mk : string → PIIType → list Violation → Violation → option Finding)
    (df : DataFrame) (fs : list Finding) :
  (∀ idx value cf,
     scan_cell idx value cf = h ← cell_hits idx value; Some (record_all mv cf h)) →
  scan_columns scan_cell mk df = Some fs →
  (∀ col cells, (col, cells) ∈ df →
     ∃ hits, column_hits cell_hits 0 cells = Some hits
             ∧ ∀ t first rest,
                 take (Z.to_nat mv) (bucket t hits) = first :: rest →
                 ∃ f, mk col t (first :: rest) first = Some f ∧ f ∈ fs)
  ∧ (∀ f, f ∈ fs →
       ∃ col cells hits t first rest,
         (col, cells) ∈ df
         ∧ column_hits cell_hits 0 cells = Some hits
         ∧ take (Z.to_nat mv) (bucket t hits) = first :: rest
         ∧ mk col t (first :: rest) first = Some f).
Proof.
  intros Hcell Hscan.
  destruct (scan_columns_elem_of _ _ _ _ Hscan) as [Hret Hin]. split.
  - intros col cells Hc. destruct (Hret col cells Hc) as (cf & _ & Hcf & _ & _).
    rewrite (scan_rows_hits mv scan_cell cell_hits Hcell) in Hcf.
    destruct (column_hits cell_hits 0 cells) as [hits|] eqn:Ehits; [|done].
    injection Hcf as <-. exists hits. split; [done|].
    intros t first rest Htake.
    assert (Hb : (t, first :: rest) ∈ record_all mv [] hits).
    { apply elem_of_record_all. split; [|done].
      intros Hnil. by rewrite Hnil, take_nil in Htake. }
    destruct (Hret col cells Hc) as (cf' & here & Hcf' & Hhere & Hsub).
    rewrite (scan_rows_hits mv scan_cell cell_hits Hcell), Ehits in Hcf'.
    injection Hcf' as <-.
    destruct (to_findings_total _ _ _ _ _ _ Hhere Hb) as (f & Hmk & Hf).
    exists f. split; [done | by apply Hsub].
  - intros f Hf. apply Hin in Hf as (col & cells & cf & t & first & rest & Hc & Hr & Hb & Hmk).
    rewrite (scan_rows_hits mv scan_cell cell_hits Hcell) in Hr.
    destruct (column_hits cell_hits 0 cells) as [hits|] eqn:Ehits; [|done].
    injection Hr as <-. apply elem_of_record_all in Hb as [_ Htake].
    exists col, cells, hits, t, first, rest. done.
Qed.


Lemma elem_of_bucket (t : PIIType) (v : Violation) (hits : list Hit) :
  v ∈ bucket t hits ↔ (t, v) ∈ hits.
Proof.
  unfold bucket. rewrite list_elem_of_fmap. split.
  - intros ([t' v'] & -> & [Ht Hin]%list_elem_of_filter). simpl in Ht. by subst.
  - intros Hin. exists (t, v). split; [done|]. by apply list_elem_of_filter.
Qed.

Lemma take_cons_head {A} (n : nat) (l : list A) (x : A) (rest : list A) :
  take n l = x :: rest → head l = Some x ∧ x ∈ l ∧ 0 < n.
Proof.
  destruct n as [|n], l as [|y l]; try done.
  simpl. intros [= -> _]. repeat split; [left | lia].
Qed.

Lemma take_nonempty {A} (n : nat) (l : list A) :
  0 < n → l ≠ [] → ∃ x rest, take n l = x :: rest.
Proof. destruct n as [|n], l as [|y l]; try done; [lia | by eexists _, _]. Qed.

(** ** The masking assertion *)

Lemma masking_scan_cell_filtered `{Fl : PyFloat} (required hash_allowed : gset PIIType)
    (mv : Z) (idx : nat) (value : option string) (cf : ColFindings) :
  masking_scan_cell required hash_allowed mv idx value cf =
  h ← filter (unacceptable hash_allowed) <$> masking_cell_occurrences required idx value;
  Some (record_all mv cf h).
Proof.
  rewrite masking_scan_cell_hits.
  by destruct (masking_cell_occurrences required idx value).
Qed.

(** C4.  In [assert_masking_applied] a detected occurrence of a type in
    [masking_required_for] is a violation exactly when its masking is
    plaintext, or hash with the type not in [hash_allowed_for]; partial
    masks, full masks and tokens never are.  A (column, type) pair with such
    an occurrence gets a finding; every finding is made from the first such
    occurrence of its column and type and counts only such occurrences; its
    severity is CRITICAL when that occurrence is plaintext, HIGH when it is a
    hash, MEDIUM otherwise. *)
Theorem masking_assertion_rule `{Fl : PyFloat} (df : DataFrame)
    (policy : DatasetPolicy) (mv : Z) (r : AssertionResult) :
  let required : gset PIIType := list_to_set (masking_required_for policy) in
  let hash_allowed : gset PIIType := list_to_set (hash_allowed_for policy) in
  masking_required_for policy ≠ [] →
  assert_masking_applied df policy mv = Some r →
  (∀ t m, is_violation hash_allowed t m = true
          ↔ m = PLAINTEXT ∨ (m = HASH ∧ t ∉ hash_allowed))
  ∧ (∀ t m, m ∈ [PARTIAL_MASK; FULL_MASK; TOKENIZED] →
            is_violation hash_allowed t m = false)
  ∧ (∀ col cells, (col, cells) ∈ df →
       ∃ occs, column_hits (masking_cell_occurrences required) 0 cells = Some occs
               ∧ ∀ h, h ∈ occs → unacceptable hash_allowed h → (0 < mv)%Z →
                      ∃ f, f ∈ findings r ∧ f_column f = col ∧ f_pii_type f = h.1)
  ∧ (∀ f, f ∈ findings r →
       ∃ cells occs idx value,
         (f_column f, cells) ∈ df
         ∧ column_hits (masking_cell_occurrences required) 0 cells = Some occs
         ∧ head (bucket (f_pii_type f) (filter (unacceptable hash_allowed) occs))
           = Some (idx, value, f_masking_type f)
         ∧ f_row_index f = Some idx
         ∧ f_count f = length (take (Z.to_nat mv)
                         (bucket (f_pii_type f) (filter (unacceptable hash_allowed) occs)))
         ∧ (f_masking_type f = PLAINTEXT
            ∨ (f_masking_type f = HASH ∧ f_pii_type f ∉ hash_allowed))
         ∧ f_severity f = match f_masking_type f with
                          | PLAINTEXT => CRITICAL
                          | HASH => HIGH
                          | _ => MEDIUM
                          end).
Proof.
  intros required hash_allowed Hreq Hrun.
  assert (Hrule : ∀ t m, is_violation hash_allowed t m = true
                         ↔ m = PLAINTEXT ∨ (m = HASH ∧ t ∉ hash_allowed)).
  { intros t m. apply (is_violation_unacceptable hash_allowed t (0, "", m)). }
  split; [exact Hrule|]. split.
  { intros t m Hm. apply not_true_is_false. rewrite Hrule.
    rewrite !elem_of_cons, elem_of_nil in Hm. intuition congruence. }
  unfold assert_masking_applied in Hrun. fold required hash_allowed in Hrun.
  rewrite decide_False in Hrun.
  2:{ subst required. destruct (masking_required_for policy) as [|t l]; [done|].
      intros Hempty. assert (t ∈ (∅ : gset PIIType)) as Hin; [|by apply elem_of_empty in Hin].
      rewrite <- Hempty. apply elem_of_list_to_set. left. }
  destruct (scan_columns _ _ df) as [fs|] eqn:Escan; [|done].
  cbn [mbind option_bind] in Hrun. injection Hrun as <-. cbn [findings].
  destruct (scan_findings_spec mv _ _ _ df fs
              (masking_scan_cell_filtered required hash_allowed mv) Escan)
    as [Hcomplete Hsound].
  split.
  - intros col cells Hc. destruct (Hcomplete col cells Hc) as (hits & Hhits & Hmk).
    rewrite column_hits_filter in Hhits.
    destruct (column_hits (masking_cell_occurrences required) 0 cells)
      as [occs|]; [|done].
    injection Hhits as <-. exists occs. split; [done|].
    intros [t v] Hin Hbad Hmv.
    assert (Hb : v ∈ bucket t (filter (unacceptable hash_allowed) occs)).
    { apply elem_of_bucket, list_elem_of_filter. done. }
    destruct (take_nonempty (Z.to_nat mv)
                (bucket t (filter (unacceptable hash_allowed) occs)))
      as (first & rest & Htake); [lia | by intros E; rewrite E in Hb; apply elem_of_nil in Hb |].
    destruct (Hmk t first rest Htake) as (f & Hf & Hfin).
    exists f. split; [done|]. unfold masking_finding in Hf.
    destruct (masking_severity first.2) as [sev msg].
    destruct (redact_value _ _); [|done].
    cbn [mbind option_bind] in Hf. by injection Hf as <-.
  - intros f Hf.
    destruct (Hsound f Hf) as (col & cells & hits & t & first & rest & Hc & Hhits & Htake & Hmk).
    rewrite column_hits_filter in Hhits.
    destruct (column_hits (masking_cell_occurrences required) 0 cells)
      as [occs|] eqn:Eoccs; [|done].
    injection Hhits as <-.
    destruct first as [[idx value] m].
    unfold masking_finding in Hmk. cbn [fst snd] in Hmk.
    destruct (take_cons_head _ _ _ _ Htake) as (Hhead & Hfirst & _).
    apply elem_of_bucket, list_elem_of_filter in Hfirst as [Hbad _].
    unfold unacceptable in Hbad. cbn [fst snd] in Hbad.
    unfold masking_severity in Hmk.
    destruct (redact_value value (pii_value t)) as [sample|] eqn:Ered.
    2:{ by repeat case_decide. }
    exists cells, occs, idx, value.
    repeat case_decide; cbn [mbind option_bind] in Hmk; injection Hmk as <-;
      cbn [f_column f_pii_type f_masking_type f_row_index f_count f_severity];
      rewrite Eoccs, Htake; subst;
      repeat split; try done; intuition congruence.
Qed.

(** ** When the validator raises *)

Lemma is_credit_card_None (value : string) :
  is_credit_card value = None ↔
  let cleaned := remove_separators value in
  isdigit cleaned = true ∧ 13 ≤ String.length cleaned ≤ 19
  ∧ str_all is_decimal cleaned = false.
Proof.
  unfold is_credit_card. cbv zeta.
  destruct (isdigit (remove_separators value)); simpl.
  - destruct (String.length _ <? 13) eqn:H13; simpl.
    { apply Nat.ltb_lt in H13. split; [done | intros (_ & ? & _); lia]. }
    destruct (19 <? String.length _) eqn:H19; simpl.
    { apply Nat.ltb_lt in H19. split; [done | intros (_ & ? & _); lia]. }
    apply Nat.ltb_ge in H13, H19. rewrite luhn_checksum_None.
    split; [by intros ?; repeat split | by intros (_ & _ & ?)].
  - split; [done | by intros [? _]].
Qed.

Lemma str_all_filter (p q : ascii → bool) (s : string) :
  str_all p s = true → str_all p (str_filter q s) = true.
Proof.
  induction s as [|c s IH]; simpl; [done|].
  intros H. apply andb_prop in H as [Hc Hs].
  destruct (q c); simpl; [by rewrite Hc, IH | by apply IH].
Qed.

Lemma str_all_lstrip (p : ascii → bool) (s : string) :
  str_all p s = true → str_all p (lstrip s) = true.
Proof.
  induction s as [|c s IH]; simpl; [done|].
  intros H. destruct (is_space c); [|done].
  apply andb_prop in H as [_ Hs]. by apply IH.
Qed.

Lemma str_all_rstrip (p : ascii → bool) (s : string) :
  str_all p s = true → str_all p (rstrip s) = true.
Proof.
  induction s as [|c s IH]; simpl; [done|].
  intros H. apply andb_prop in H as [Hc Hs].
  destruct (is_space c && is_empty (rstrip s)); simpl; [done|].
  by rewrite Hc, IH.
Qed.

Lemma plain_digits_strip (s : string) :
  plain_digits s = true → plain_digits (strip s) = true.
Proof. intros H. by apply str_all_rstrip, str_all_lstrip. Qed.

(** Without superscript digits the validator returns. *)
Lemma is_credit_card_returns (value : string) :
  plain_digits value = true → is_Some (is_credit_card value).
Proof.
  intros Hplain. destruct (is_credit_card value) as [b|] eqn:E; [by eexists|].
  apply is_credit_card_None in E as (Hd & _ & Hnd). exfalso.
  apply (str_all_filter _ (λ c, negb (is_space c || chr_eqb "-" c))) in Hplain.
  fold (remove_separators value) in Hplain.
  unfold isdigit in Hd. apply andb_prop in Hd as [_ Hd].
  revert Hplain Hd Hnd. generalize (remove_separators value) as s.
  induction s as [|c s IH]; simpl; [done|].
  intros [Hc Hs]%andb_prop [Hdc Hds]%andb_prop.
  rewrite Hdc in Hc. simpl in Hc. rewrite Hc. simpl. by apply IH.
Qed.

(** So does the scan of a source without superscript digits. *)
Lemma detect_pii_types_returns `{Fl : PyFloat} (df : DataFrame) :
  plain_frame df → is_Some (_detect_pii_types_in_dataframe df).
Proof.
  unfold _detect_pii_types_in_dataframe. generalize (∅ : gset PIIType).
  induction df as [|[col cells] df IH]; intros found Hplain; [by eexists|].
  cbn [detect_types_in_columns].
  assert (Hcells : ∀ found, (∀ value, Some value ∈ cells → plain_digits value = true) →
                            is_Some (detect_types_in_cells cells found)).
  { clear. induction cells as [|cell cells IHc]; intros found Hp; [by eexists|].
    cbn [detect_types_in_cells].
    assert (Hcell : is_Some (detect_types_in_cell cell found)).
    { unfold detect_types_in_cell. destruct cell as [value|]; [|by eexists].
      destruct (is_empty (strip value)); [by eexists|]. cbv zeta.
      destruct (is_credit_card_returns (strip value)) as [b ->];
        [apply plain_digits_strip, Hp; left | by eexists]. }
    destruct Hcell as [found' ->]. cbn [mbind option_bind].
    apply IHc. intros value Hv. apply Hp. by right. }
  destruct (Hcells found) as [found' ->].
  { intros value Hv. apply (Hplain col cells value); [left | done]. }
  cbn [mbind option_bind]. apply IH.
  intros col' cells' value Hc Hv. apply (Hplain col' cells' value); [by right | done].
Qed.

(** ** The leakage assertion *)

Lemma forbidden_cell_hits_types `{Fl : PyFloat} (types : gset PIIType) (idx : nat)
    (value : option string) (hits : list Hit) :
  forbidden_cell_hits types idx value = Some hits →
  ∀ h, h ∈ hits → h.1 ∈ types.
Proof.
  unfold forbidden_cell_hits. destruct value as [value|]; [|by intros [= <-] h ?%elem_of_nil].
  destruct (is_empty (strip value)); [by intros [= <-] h ?%elem_of_nil|].
  cbv zeta. intros H h Hh.
  match type of H with (?c ≫= _) = _ => destruct c as [card|] eqn:Ecard end; [|done].
  cbn [mbind option_bind] in H. injection H as <-.
  rewrite !elem_of_app in Hh. destruct Hh as [Hh|[Hh|Hh]].
  - apply list_elem_of_fmap in Hh as (d & -> & Hd).
    by apply list_elem_of_filter in Hd as [Hd _].
  - destruct (decide (CREDIT_CARD ∈ types)) as [Hcc|];
      [|injection Ecard as <-; by apply elem_of_nil in Hh].
    destruct (is_credit_card (strip value)) as [[|]|]; cbn [mbind option_bind] in Ecard;
      [|injection Ecard as <-; by apply elem_of_nil in Hh|done].
    destruct (detect_credit_card_masking (strip value)); [|done].
    cbn [mbind option_bind] in Ecard. injection Ecard as <-.
    by apply list_elem_of_singleton in Hh as ->.
  - destruct (decide (HIGH_ENTROPY_TOKEN ∈ types)); [|by apply elem_of_nil in Hh].
    destruct (is_high_entropy_token (strip value)); [|by apply elem_of_nil in Hh].
    by apply list_elem_of_singleton in Hh as ->.
Qed.

Lemma column_hits_elem_of (cell_hits : nat → option string → option (list Hit))
    (P : Hit → Prop) :
  (∀ idx value hits, cell_hits idx value = Some hits → ∀ h, h ∈ hits → P h) →
  ∀ cells idx hits, column_hits cell_hits idx cells = Some hits →
                    ∀ h, h ∈ hits → P h.
Proof.
  intros Hcell cells. induction cells as [|value rest IH]; intros idx hits H h Hh.
  - injection H as <-. by apply elem_of_nil in Hh.
  - cbn [column_hits] in H.
    destruct (cell_hits idx value) as [here|] eqn:Ehere; [|done].
    cbn [mbind option_bind] in H.
    destruct (column_hits cell_hits (S idx) rest) as [later|] eqn:Elater; [|done].
    cbn [mbind option_bind] in H. injection H as <-.
    apply elem_of_app in Hh as [Hh|Hh]; [by eapply Hcell | by eapply IH].
Qed.

Lemma leakage_message_not_forbidden_message `{Fl : PyFloat}
    (sp tp policy : DatasetPolicy) (col col' : string) (t t' : PIIType)
    (vs vs' : list Violation) (v v' : Violation) (f g : Finding) :
  leakage_finding sp tp col t vs v = Some f →
  forbidden_finding policy col' t' vs' v' = Some g →
  String.prefix "PII LEAKAGE: " (f_message f) = true
  ∧ f_message f ≠ f_message g.
Proof.
  unfold leakage_finding, forbidden_finding. intros Hf Hg.
  destruct (redact_value v.1.2 (pii_value t)); [|done].
  destruct (redact_value v'.1.2 (pii_value t')); [|done].
  cbn [mbind option_bind] in Hf, Hg. injection Hf as <-. injection Hg as <-.
  cbn [f_message]. split; [reflexivity | discriminate].
Qed.

(** C3.  [assert_no_pii_leakage] passes with severity INFO when the
    target's forbidden list is empty, and when no type detected in the source
    is forbidden in the target, whatever the target holds.  Otherwise its
    result is made from the target and the risky types alone: every finding
    is CRITICAL, is of a risky type, comes from an occurrence in a column of
    the target, and carries the leakage message, which no finding of the
    forbidden-PII assertion carries. *)
Theorem leakage_assertion `{Fl : PyFloat} (source_df target_df : DataFrame)
    (source_policy target_policy : DatasetPolicy) (edge : LineageEdge) (mv : Z) :
  let forbidden : gset PIIType := list_to_set (forbidden_pii_types target_policy) in
  (forbidden_pii_types target_policy = [] →
   assert_no_pii_leakage source_df target_df source_policy target_policy edge mv =
   Some {| assertion_type := "no_pii_leakage";
           r_dataset := leakage_dataset source_policy target_policy;
           passed := true;
           findings := [];
           r_message := "No forbidden PII types in target policy";
           r_severity := INFO |})
  ∧ (∀ found, _detect_pii_types_in_dataframe source_df = Some found →
       forbidden ∩ found = ∅ →
       ∃ message,
         assert_no_pii_leakage source_df target_df source_policy target_policy edge mv =
         Some {| assertion_type := "no_pii_leakage";
                 r_dataset := leakage_dataset source_policy target_policy;
                 passed := true;
                 findings := [];
                 r_message := message;
                 r_severity := INFO |})
  ∧ (∀ found r, _detect_pii_types_in_dataframe source_df = Some found →
       forbidden ∩ found ≠ ∅ →
       assert_no_pii_leakage source_df target_df source_policy target_policy edge mv
       = Some r →
       (∀ source_df' found',
          _detect_pii_types_in_dataframe source_df' = Some found' →
          forbidden ∩ found' = forbidden ∩ found →
          assert_no_pii_leakage source_df' target_df source_policy target_policy edge mv
          = Some r)
       ∧ passed r = bool_decide (findings r = [])
       ∧ r_severity r = (if passed r then INFO else CRITICAL)
       ∧ ∀ f, f ∈ findings r →
           f_severity f = CRITICAL
           ∧ f_pii_type f ∈ forbidden ∩ found
           ∧ f_dataset f = p_name target_policy
           ∧ String.prefix "PII LEAKAGE: " (f_message f) = true
           ∧ (∀ policy col t vs v g,
                forbidden_finding policy col t vs v = Some g →
                f_message f ≠ f_message g)
           ∧ ∃ cells hits idx value,
               (f_column f, cells) ∈ target_df
               ∧ column_hits (forbidden_cell_hits (forbidden ∩ found)) 0 cells = Some hits
               ∧ (f_pii_type f, (idx, value, f_masking_type f)) ∈ hits
               ∧ f_row_index f = Some idx).
Proof.
  intros forbidden. unfold assert_no_pii_leakage. fold forbidden.
  split; [|split].
  - intros Hempty. subst forbidden. rewrite Hempty. simpl. by rewrite decide_True.
  - intros found Hfound Hrisky. rewrite Hfound. cbn [mbind option_bind].
    destruct (decide (forbidden = ∅)); [by eexists|].
    rewrite decide_True by done. by eexists.
  - intros found r Hfound Hrisky Hrun.
    assert (Hne : forbidden ≠ ∅).
    { intros E. apply Hrisky. rewrite E. apply (left_absorb_L _ _). }
    rewrite decide_False in Hrun by done.
    rewrite Hfound in Hrun. cbn [mbind option_bind] in Hrun.
    rewrite decide_False in Hrun by done.
    destruct (scan_columns _ _ target_df) as [fs|] eqn:Escan; [|done].
    cbn [mbind option_bind] in Hrun. injection Hrun as <-.
    cbn [passed findings r_severity]. split; [|split; [|split]].
    + intros source_df' found' Hfound' Heq.
      rewrite decide_False by done. rewrite Hfound'.
      cbn [mbind option_bind]. rewrite Heq, decide_False by done.
      by rewrite Escan.
    + by destruct fs.
    + by destruct fs.
    + intros f Hf.
      destruct (scan_findings_spec mv _ _ _ target_df fs
                  (forbidden_scan_cell_hits (forbidden ∩ found) mv) Escan)
        as [_ Hsound].
      destruct (Hsound f Hf)
        as (col & cells & hits & t & first & rest & Hc & Hhits & Htake & Hmk).
      destruct (take_cons_head _ _ _ _ Htake) as (_ & Hfirst & _).
      apply elem_of_bucket in Hfirst.
      pose proof (column_hits_elem_of _ (λ h, h.1 ∈ forbidden ∩ found)
                    (forbidden_cell_hits_types (forbidden ∩ found))
                    _ _ _ Hhits _ Hfirst) as Htype.
      assert (Hmsg : String.prefix "PII LEAKAGE: " (f_message f) = true
                     ∧ ∀ policy col' t' vs v g,
                         forbidden_finding policy col' t' vs v = Some g →
                         f_message f ≠ f_message g).
      { split.
        - unfold leakage_finding in Hmk. destruct (redact_value _ _); [|done].
          cbn [mbind option_bind] in Hmk. by injection Hmk as <-.
        - intros policy col' t' vs v g Hg.
          by destruct (leakage_message_not_forbidden_message _ _ _ _ _ _ _ _ _ _ _ _ _ Hmk Hg). }
      destruct Hmsg as [Hprefix Hdistinct].
      destruct first as [[idx value] m].
      unfold leakage_finding in Hmk. cbn [fst snd] in Hmk.
      destruct (redact_value value (pii_value t)); [|done].
      cbn [mbind option_bind] in Hmk. injection Hmk as <-.
      cbn [f_severity f_pii_type f_dataset f_column f_masking_type f_row_index] in *.
      repeat split; try done.
      by exists cells, hits, idx, value.
Qed.

Lemma leakage_assertion_witness :
  assert_no_pii_leakage (Fl := RFloat) source_frame target_frame
    source_policy0 target_policy0 (mkLineageEdge "raw" "mart") 10
  = Some {| assertion_type := "no_pii_leakage";
            r_dataset := "raw -> mart";
            passed := true;
            findings := [];
            r_message := "No forbidden PII types in target policy";
            r_severity := INFO |}.
Proof.
  apply (proj1 (leakage_assertion (Fl := RFloat) source_frame target_frame
                  source_policy0 target_policy0 (mkLineageEdge "raw" "mart") 10)).
  reflexivity.
Defined.

Lemma masking_assertion_rule_witness :
  Forall (λ f, f_masking_type f = PLAINTEXT ∧ f_severity f = CRITICAL)
         (findings two_ssns_result).
Proof.
  destruct (masking_assertion_rule (Fl := RFloat) two_ssns ssn_policy 10
              two_ssns_result) as (_ & _ & _ & H).
  - discriminate.
  - vm_compute. reflexivity.
  - apply Forall_forall. intros f Hf.
    destruct (H f Hf) as (_ & _ & _ & _ & _ & _ & _ & _ & _ & _ & Hsev).
    apply list_elem_of_singleton in Hf. subst f. split; [reflexivity | exact Hsev].
Defined.

(** ** The count of a finding *)

(** What [count] holds: the number of occurrences of the type in the column,
    cut at [max_violations]. *)
Lemma forbidden_finding_count `{Fl : PyFloat} (df : DataFrame)
    (policy : DatasetPolicy) (mv : Z) (r : AssertionResult) :
  let forbidden : gset PIIType := list_to_set (forbidden_pii_types policy) in
  assert_no_forbidden_pii df policy mv = Some r →
  ∀ f, f ∈ findings r →
    ∃ cells hits,
      (f_column f, cells) ∈ df
      ∧ column_hits (forbidden_cell_hits forbidden) 0 cells = Some hits
      ∧ f_count f = Z.to_nat mv `min` length (bucket (f_pii_type f) hits).
Proof.
  intros forbidden Hrun f Hf. unfold assert_no_forbidden_pii in Hrun.
  fold forbidden in Hrun.
  destruct (decide (forbidden = ∅)).
  { injection Hrun as <-. by apply elem_of_nil in Hf. }
  destruct (scan_columns _ _ df) as [fs|] eqn:Escan; [|done].
  cbn [mbind option_bind] in Hrun. injection Hrun as <-. cbn [findings] in Hf.
  destruct (scan_findings_spec mv _ _ _ df fs
              (forbidden_scan_cell_hits forbidden mv) Escan) as [_ Hsound].
  destruct (Hsound f Hf)
    as (col & cells & hits & t & first & rest & Hc & Hhits & Htake & Hmk).
  assert (Hlen : length (first :: rest)
                 = Z.to_nat mv `min` length (bucket t hits))
    by (by rewrite <- Htake, length_take).
  unfold forbidden_finding in Hmk. destruct (redact_value _ _); [|done].
  cbn [mbind option_bind] in Hmk. injection Hmk as <-.
  cbn [f_column f_count f_pii_type]. by exists cells, hits.
Qed.

(** C1 (the code departs from the claim).  A column holds eleven SSNs and
    [max_violations] is the default 10: the finding of the forbidden-PII
    assertion, and that of the masking assertion, has [count] 10, not 11. *)
Theorem finding_count_is_capped `{Fl : PyFloat} :
  (length ∘ bucket SSN) <$>
    column_hits (forbidden_cell_hits {[ SSN ]}) 0 (replicate 11 (Some "123-45-6789"))
  = Some 11
  ∧ (λ r, f_count <$> findings r) <$>
      assert_no_forbidden_pii eleven_ssns ssn_policy 10 = Some [10]
  ∧ (λ r, f_count <$> findings r) <$>
      assert_masking_applied eleven_ssns ssn_policy 10 = Some [10].
Proof. vm_compute. repeat split. Qed.

(** * Further properties of the code *)

(** ** Strings *)

Lemma chr_eqb_eq (a c : ascii) : chr_eqb a c = true ↔ a = c.
Proof.
  unfold chr_eqb, code. rewrite N.eqb_eq. split; [|by intros ->].
  intros H. apply (f_equal ascii_of_N) in H. by rewrite !ascii_N_embedding in H.
Qed.

Lemma rstrip_idempotent (s : string) : rstrip (rstrip s) = rstrip s.
Proof.
  induction s as [|c s IH]; [done|]. cbn [rstrip].
  destruct (is_space c && is_empty (rstrip s)) eqn:E; [done|].
  cbn [rstrip]. by rewrite IH, E.
Qed.

Lemma lstrip_head (s : string) :
  lstrip s = "" ∨ ∃ c t, lstrip s = String c t ∧ is_space c = false.
Proof.
  induction s as [|c s IH]; [by left|]. cbn [lstrip].
  destruct (is_space c) eqn:E; [done|]. right. by exists c, s.
Qed.

Lemma strip_idempotent (s : string) : strip (strip s) = strip s.
Proof.
  assert (Hr : ∀ c t, is_space c = false → rstrip (String c t) = String c (rstrip t)).
  { intros c t Hc. cbn [rstrip]. by rewrite Hc. }
  assert (Hl : ∀ c t, is_space c = false → lstrip (String c t) = String c t).
  { intros c t Hc. cbn [lstrip]. by rewrite Hc. }
  unfold strip. destruct (lstrip_head s) as [->|(c & t & -> & Hc)]; [done|].
  rewrite (Hr c t Hc), (Hl c _ Hc), (Hr c _ Hc). by rewrite rstrip_idempotent.
Qed.

(** X1.  Detection ignores white space around a value, and a value of white
    space only is not detected as anything. *)
Theorem detect_pii_in_value_strip (value : string) :
  detect_pii_in_value (strip value) = detect_pii_in_value value
  ∧ (str_all is_space value = true → detect_pii_in_value value = []).
Proof.
  split.
  - unfold detect_pii_in_value. by rewrite !strip_idempotent.
  - intros Hall. unfold detect_pii_in_value.
    assert (lstrip value = "") as Hl.
    { induction value as [|c v IH]; [done|]. simpl in Hall.
      apply andb_prop in Hall as [Hc Hv]. cbn [lstrip]. rewrite Hc. by apply IH. }
    unfold strip. by rewrite Hl.
Qed.

(** ** Character frequencies *)

Lemma freq_incr_spec (char : ascii) (freq : list (ascii * nat)) :
  NoDup freq.*1 →
  NoDup (freq_incr char freq).*1
  ∧ sum_list (freq_incr char freq).*2 = S (sum_list freq.*2)
  ∧ (∀ c, c ∈ (freq_incr char freq).*1 ↔ c = char ∨ c ∈ freq.*1)
  ∧ (Forall (λ n, 0 < n) freq.*2 → Forall (λ n, 0 < n) (freq_incr char freq).*2).
Proof.
  induction freq as [|[c n] freq IH]; intros Hnd.
  - cbn. repeat split; try done.
    + apply NoDup_singleton.
    + intros ?%list_elem_of_singleton. by left.
    + intros [->|?%elem_of_nil]; [|done]. by apply list_elem_of_singleton.
    + intros _. repeat constructor.
  - cbn [freq_incr]. destruct (chr_eqb c char) eqn:E.
    + apply chr_eqb_eq in E as ->. cbn. repeat split; try done.
      * lia.
      * intros H. by right.
      * intros [->|H]; [left | done].
      * intros [? ?]%Forall_cons. constructor; [lia | done].
    + assert (c ≠ char) as Hne
        by (intros ->; unfold chr_eqb in E; by rewrite N.eqb_refl in E).
      rewrite fmap_cons in Hnd. cbn [fst] in Hnd.
      apply NoDup_cons in Hnd as [Hnin Hnd].
      destruct (IH Hnd) as (IH1 & IH2 & IH3 & IH4).
      rewrite !fmap_cons. cbn [fst snd]. split; [|split; [|split]].
      * apply NoDup_cons. split; [|done]. rewrite IH3. intros [?|?]; done.
      * cbn. cbn in IH2. rewrite IH2. lia.
      * intros c0. rewrite !elem_of_cons, IH3. tauto.
      * intros [? ?]%Forall_cons. constructor; [done | by apply IH4].
Qed.

(** X2.  The frequency table of a string has one entry for each character
    that occurs in it, every count is positive, and the counts add up to the
    length of the string. *)
Theorem char_freq_table (data : string) :
  NoDup (char_freq data).*1
  ∧ (∀ c, c ∈ (char_freq data).*1 ↔ c ∈ list_ascii_of_string data)
  ∧ Forall (λ n, 0 < n) (char_freq data).*2
  ∧ sum_list (char_freq data).*2 = String.length data.
Proof.
  unfold char_freq. rewrite <- length_list_ascii.
  generalize (list_ascii_of_string data) as l. intros l.
  assert (H : ∀ freq, NoDup freq.*1 → Forall (λ n, 0 < n) freq.*2 →
    let r := foldl (λ freq char, freq_incr char freq) freq l in
    NoDup r.*1 ∧ (∀ c, c ∈ r.*1 ↔ c ∈ l ∨ c ∈ freq.*1)
    ∧ Forall (λ n, 0 < n) r.*2 ∧ sum_list r.*2 = length l + sum_list freq.*2).
  { induction l as [|x l IH]; intros freq Hnd Hpos; cbn [foldl].
    - cbn. repeat split; try done; [by right | by intros [?%elem_of_nil|?]].
    - destruct (freq_incr_spec x freq Hnd) as (H1 & H2 & H3 & H4).
      destruct (IH (freq_incr x freq) H1 (H4 Hpos)) as (I1 & I2 & I3 & I4).
      cbv zeta. repeat split; try done.
      + rewrite I2, H3, elem_of_cons. tauto.
      + rewrite I2, H3, elem_of_cons. tauto.
      + rewrite I4, H2. cbn. lia. }
  destruct (H [] (NoDup_nil_2) (Forall_nil_2 _)) as (H1 & H2 & H3 & H4).
  repeat split; try done.
  - rewrite H2. intros [?|?%elem_of_nil]; done.
  - rewrite H2. by left.
  - rewrite H4. cbn. lia.
Qed.

(** ** Lineage loading *)

Lemma graph_get_add_eq (source target : string) (graph : Graph) :
  graph_get source (graph_add source target graph)
  = Some (default [] (graph_get source graph) ++ [target])%list.
Proof.
  induction graph as [|[k targets] graph IH]; cbn [graph_add graph_get].
  - by rewrite decide_True.
  - destruct (decide (k = source)) as [->|Hne]; cbn [graph_get].
    + by rewrite decide_True.
    + by rewrite decide_False.
Qed.

Lemma graph_get_add_ne (source target node : string) (graph : Graph) :
  source ≠ node →
  graph_get node (graph_add source target graph) = graph_get node graph.
Proof.
  intros Hne. induction graph as [|[k targets] graph IH]; cbn [graph_add graph_get].
  - by rewrite decide_False.
  - destruct (decide (k = source)) as [->|Hk]; cbn [graph_get].
    + by rewrite !decide_False.
    + destruct (decide (k = node)); [done | exact IH].
Qed.

Lemma graph_get_foldl_add (node : string) (graph : Graph) (edges : list LineageEdge) :
  graph_get node
    (foldl (λ graph edge, graph_add (e_source edge) (e_target edge) graph) graph edges)
  = match graph_get node graph,
          e_target <$> filter (λ edge, e_source edge = node) edges with
    | None, [] => None
    | o, l => Some (default [] o ++ l)%list
    end.
Proof.
  revert graph. induction edges as [|[s t] edges IH]; intros graph.
  - cbn. destruct (graph_get node graph); [by rewrite app_nil_r | done].
  - cbn [foldl]. rewrite IH, filter_cons. cbn [e_source e_target].
    destruct (decide (s = node)) as [->|Hne].
    + rewrite graph_get_add_eq, fmap_cons. cbn [e_target].
      destruct (graph_get node graph);
        destruct (e_target <$> filter _ edges); simpl;
        rewrite ?app_nil_r, <- ?app_assoc; done.
    + by rewrite graph_get_add_ne.
Qed.

(** X3.  Looking a dataset up in the adjacency dict of [load_lineage_graph]
    gives its downstream datasets as [get_downstream_datasets] lists them,
    duplicates included; a dataset with no outgoing edge is not a key. *)
Theorem load_lineage_graph_lookup (config : SuiteConfig) (dataset_name : string) :
  graph_get dataset_name (load_lineage_graph config)
  = match get_downstream_datasets dataset_name config with
    | [] => None
    | downstream => Some downstream
    end.
Proof.
  unfold load_lineage_graph, build_graph, get_downstream_datasets.
  rewrite graph_get_foldl_add. cbn [graph_get default app].
  by destruct (e_target <$> filter _ (lineage config)).
Qed.

Lemma filter_nil_iff {A} (P : A → Prop) `{∀ x, Decision (P x)} (l : list A) :
  filter P l = [] ↔ ∀ x, x ∈ l → ¬ P x.
Proof.
  induction l as [|y l IH]; [by split; [intros _ x ?%elem_of_nil|]|].
  rewrite filter_cons. destruct (decide (P y)) as [Hy|Hy].
  - split; [done|]. intros Hall. exfalso. apply (Hall y); [left | done].
  - rewrite IH. split.
    + intros Hall x [->|Hx]%elem_of_cons; [done | by apply Hall].
    + intros Hall x Hx. apply Hall. by right.
Qed.

(** X4.  [validate_lineage_references] reports no error exactly when every
    edge names declared datasets at both ends, and it reports one error for
    each dangling end. *)
Theorem validate_lineage_references_spec (config : SuiteConfig) :
  let declared (name : string) := name ∈ p_name <$> datasets config in
  (validate_lineage_references config = [] ↔
   ∀ edge, edge ∈ lineage config → declared (e_source edge) ∧ declared (e_target edge))
  ∧ length (validate_lineage_references config)
    = length (filter (λ edge, ¬ declared (e_source edge)) (lineage config))
      + length (filter (λ edge, ¬ declared (e_target edge)) (lineage config)).
Proof.
  intros declared. unfold validate_lineage_references.
  set (names := list_to_set (p_name <$> datasets config) : gset string).
  assert (Hnames : ∀ name, name ∈ names ↔ declared name).
  { intros name. unfold names, declared. apply elem_of_list_to_set. }
  set (step := λ (errors : list string) (edge : LineageEdge), _).
  assert (Hlen : ∀ edges errors,
    length (foldl step errors edges)
    = length errors
      + length (filter (λ edge, ¬ declared (e_source edge)) edges)
      + length (filter (λ edge, ¬ declared (e_target edge)) edges)).
  { induction edges as [|edge edges IH]; intros errors; [cbn; lia|].
    cbn [foldl]. rewrite IH, !filter_cons. unfold step. cbv zeta.
    destruct (decide (e_source edge ∉ names)) as [Hs|Hs];
      destruct (decide (e_target edge ∉ names)) as [Ht|Ht];
      rewrite Hnames in Hs, Ht;
      repeat (first [rewrite decide_True by done | rewrite decide_False by done]);
      rewrite ?length_app; cbn [length]; lia. }
  split; [|by rewrite Hlen].
  rewrite <- length_zero_iff_nil, Hlen. cbn [length].
  assert (Hzero : ∀ a b : list LineageEdge,
            0 + length a + length b = 0 ↔ a = [] ∧ b = []).
  { intros [|] [|]; cbn; split; try done; try lia; by intros [? ?]. }
  rewrite Hzero, !filter_nil_iff. split.
  - intros [H1 H2] edge Hin. specialize (H1 edge Hin). specialize (H2 edge Hin).
    split.
    + by destruct (decide (declared (e_source edge))).
    + by destruct (decide (declared (e_target edge))).
  - intros H. split; intros edge Hin Hn; by apply Hn, H.
Qed.

(** ** The maximum of severities *)

(** X5.  [max] over severities compares their names as strings: of a
    non-empty list it returns the member whose name comes last in
    alphabetical order (the first such member), so HIGH outranks CRITICAL
    and MEDIUM outranks everything; of the empty list, INFO. *)
Theorem max_severity_alphabetical (l : list Severity) :
  (l = [] → max_severity l = INFO)
  ∧ (l ≠ [] →
     max_severity l ∈ l
     ∧ ∀ s, s ∈ l → name_rank s ≤ name_rank (max_severity l))
  ∧ (∀ a b, severity_gt a b = true ↔ name_rank b < name_rank a).
Proof.
  assert (Hgt : ∀ a b, severity_gt a b = true ↔ name_rank b < name_rank a).
  { intros [] []; vm_compute; split; intros; first [done | lia]. }
  split; [by intros ->|]. split; [|exact Hgt].
  destruct l as [|x l]; [done|]. intros _. cbn [max_severity].
  revert x. induction l as [|y l IH]; intros x.
  - cbn. split; [left|]. by intros s ->%list_elem_of_singleton.
  - cbn [foldl]. destruct (severity_gt y x) eqn:E.
    + apply Hgt in E. destruct (IH y) as [IH1 IH2]. split.
      * by right.
      * intros s [->|Hs]%elem_of_cons; [|by apply IH2].
        specialize (IH2 y ltac:(left)). lia.
    + assert (name_rank y ≤ name_rank x).
      { destruct (decide (name_rank x < name_rank y)) as [Hlt|]; [|lia].
        apply Hgt in Hlt. congruence. }
      destruct (IH x) as [IH1 IH2]. split.
      * apply elem_of_cons in IH1 as [->|?]; [left | by do 2 right].
      * intros s [->|[->|Hs]%elem_of_cons]%elem_of_cons.
        -- apply IH2. left.
        -- specialize (IH2 x ltac:(left)). lia.
        -- apply IH2. by right.
Qed.

(** ** Redaction *)

Lemma split_first_Some (c : ascii) (s a b : string) :
  split_first c s = Some (a, b) ↔
  s = (a ++ String c b)%string ∧ contains_chr c a = false.
Proof.
  revert a. induction s as [|d s IH]; intros a; cbn [split_first].
  - split; [done|]. intros [H _]. by destruct a.
  - destruct (chr_eqb c d) eqn:E.
    + apply chr_eqb_eq in E as <-. split.
      * by intros [= <- <-].
      * intros [H Hc]. destruct a as [|x a]; [by injection H as ->|].
        rewrite str_app_cons in H. injection H as <- _.
        unfold contains_chr in Hc. cbn in Hc.
        unfold chr_eqb in Hc. by rewrite N.eqb_refl in Hc.
    + destruct (split_first c s) as [[a' b']|] eqn:Es; cbn.
      * destruct (IH a') as [IH1 _]. split.
        -- intros [= <- <-]. rewrite str_app_cons.
           destruct (IH a') as [H1 _]. destruct (H1 eq_refl) as [-> Hc].
           split; [done|]. unfold contains_chr. cbn. by rewrite E.
        -- intros [H Hc]. destruct a as [|x a].
           { rewrite str_app_nil_l in H. injection H as -> _.
             unfold chr_eqb in E. by rewrite N.eqb_refl in E. }
           rewrite str_app_cons in H. injection H as <- Hs.
           unfold contains_chr in Hc. cbn in Hc. rewrite E in Hc. cbn in Hc.
           destruct (IH a) as [_ H2].
           specialize (H2 (conj Hs Hc)). by injection H2 as <- <-.
      * split; [done|]. intros [H Hc]. destruct a as [|x a].
        { rewrite str_app_nil_l in H. injection H as -> _.
          unfold chr_eqb in E. by rewrite N.eqb_refl in E. }
        rewrite str_app_cons in H. injection H as <- Hs.
        unfold contains_chr in Hc. cbn in Hc. rewrite E in Hc. cbn in Hc.
        destruct (IH a) as [_ H2]. by specialize (H2 (conj Hs Hc)).
Qed.

Lemma length_str_app (a b : string) :
  String.length (a ++ b)%string = String.length a + String.length b.
Proof.
  induction a as [|c a IH]; [done|]. rewrite str_app_cons. cbn. by rewrite IH.
Qed.

(** X6.  Making the redacted sample of a finding raises only for the type
    email, and exactly when the value holds an [@] that is its first
    character, or whose first occurrence is the last character or is
    followed by a dot; and the generic mask keeps the length of the value. *)
Theorem redact_value_raises (value : string) (t : PIIType) :
  (redact_value value (pii_value t) = None ↔
   t = EMAIL
   ∧ ∃ local domain,
       value = (local ++ String "@" domain)%string
       ∧ contains_chr "@" local = false
       ∧ (local = "" ∨ domain = "" ∨ ∃ rest, domain = String "." rest))
  ∧ String.length (mask_string value) = String.length value.
Proof.
  split.
  - destruct t; try (split; [done | by intros [? _]]).
    change (redact_value value (pii_value EMAIL)) with (redact_email value).
    unfold redact_email. split.
    + intros H. split; [done|].
      destruct (split_first "@" value) as [[local domain]|] eqn:Es; [|done].
      apply split_first_Some in Es as [-> Hc]. exists local, domain.
      repeat split; try done.
      destruct local as [|l0 local]; [by left|]. right.
      destruct domain as [|d0 domain]; [by left|]. right.
      cbn [split_first] in H. destruct (chr_eqb "." d0) eqn:E.
      * apply chr_eqb_eq in E as <-. by eexists.
      * by destruct (split_first "." domain) as [[? ?]|].
    + intros (_ & local & domain & -> & Hc & Hshape).
      destruct (split_first_Some "@" (local ++ String "@" domain) local domain)
        as [_ ->]; [|done].
      destruct Hshape as [->|[->|[rest ->]]]; [by destruct (split_first _ _) as [[? ?]|]| |].
      * cbn. by destruct local.
      * cbn. by destruct local.
  - unfold mask_string. destruct (String.length value <=? 1) eqn:E;
      [apply length_str_repeat|].
    rewrite length_str_app, length_str_repeat. apply Nat.leb_gt in E.
    destruct value as [|c value]; [cbn in E; lia|].
    cbn [String.length substring]. destruct value; cbn; lia.
Qed.

(** ** The Luhn check digit *)

Lemma luhn_total_snoc (ds : list nat) (x : nat) :
  luhn_total (ds ++ [x]) = weighted_sum true (rev ds) + x.
Proof.
  rewrite <- weighted_sum_rev, rev_app_distr. cbn [rev app weighted_sum negb]. lia.
Qed.

Lemma digit_values_snoc (p : string) (d : ascii) :
  digit_values (p ++ String d "")%string = (digit_values p ++ [digit_value d])%list.
Proof.
  unfold digit_values. induction p as [|c p IH]; [done|].
  rewrite str_app_cons. cbn [list_ascii_of_string]. rewrite !fmap_cons, IH. done.
Qed.

Lemma str_all_snoc (q : ascii → bool) (p : string) (d : ascii) :
  str_all q (p ++ String d "")%string = str_all q p && q d.
Proof.
  induction p as [|c p IH];
    [rewrite str_app_nil_l; cbn [str_all]; by rewrite andb_true_r|].
  rewrite str_app_cons. cbn [str_all]. by rewrite IH, andb_assoc.
Qed.

(** The decimal digit of a value below 10. *)
Lemma decimal_digit_of (v : nat) :
  v < 10 → ∃ d, is_decimal d = true ∧ digit_value d = v.
Proof.
  intros H. exists (ascii_of_nat (48 + v)).
  do 10 (destruct v as [|v]; [by vm_compute|]). lia.
Qed.

Lemma mod10_complement (a x : nat) :
  a < 10 → x < 10 → (a + x) mod 10 = 0 ↔ x = (10 - a) mod 10.
Proof.
  intros Ha Hx.
  do 10 (destruct a as [|a];
         [do 10 (destruct x as [|x]; [vm_compute; split; congruence|]); lia|]).
  lia.
Qed.

(** X7.  Every string of 12 to 18 decimal digits has exactly one check
    digit: one decimal digit that, appended to it, gives a number
    [is_credit_card] accepts. *)
Theorem luhn_check_digit (p : string) :
  str_all is_decimal p = true →
  12 ≤ String.length p ≤ 18 →
  ∃ d, is_decimal d = true
       ∧ is_credit_card (p ++ String d "") = Some true
       ∧ ∀ d', is_decimal d' = true →
               is_credit_card (p ++ String d' "") = Some true → d' = d.
Proof.
  intros Hall Hlen.
  assert (Hcard : ∀ d, is_decimal d = true →
    is_credit_card (p ++ String d "")
    = Some ((weighted_sum true (rev (digit_values p)) + digit_value d) mod 10 =? 0)).
  { intros d Hd. rewrite is_credit_card_decimal.
    - by rewrite digit_values_snoc, luhn_total_snoc.
    - by rewrite str_all_snoc, Hall, Hd.
    - rewrite length_str_app. cbn. lia. }
  set (w := weighted_sum true (rev (digit_values p))) in *.
  destruct (decimal_digit_of ((10 - w mod 10) mod 10)) as (d & Hd & Hv).
  { apply Nat.mod_upper_bound. lia. }
  pose proof (Nat.mod_upper_bound w 10 ltac:(lia)) as Hw.
  assert (Hmod : ∀ x, x < 10 → (w + x) mod 10 = 0 ↔ x = (10 - w mod 10) mod 10).
  { intros x Hx. rewrite Nat.Div0.add_mod, (Nat.mod_small x) by lia.
    by apply mod10_complement. }
  exists d. split; [done|]. split.
  - rewrite Hcard by done. f_equal. apply Nat.eqb_eq, Hmod; [|done].
    rewrite Hv. apply Nat.mod_upper_bound. lia.
  - intros d' Hd' Hok. rewrite Hcard in Hok by done.
    injection Hok as Hok. apply Nat.eqb_eq in Hok.
    apply Hmod in Hok; [|by apply digit_value_lt_10].
    apply digit_value_inj; try done. congruence.
Qed.

Lemma luhn_check_digit_witness :
  ∃ d, is_decimal d = true
       ∧ is_credit_card ("453201511283036" ++ String d "") = Some true
       ∧ ∀ d', is_decimal d' = true →
               is_credit_card ("453201511283036" ++ String d' "") = Some true → d' = d.
Proof.
  apply (luhn_check_digit "453201511283036"); [reflexivity | cbn; lia].
Defined.

(** ** What the registry can detect *)

Lemma omap_matchers_sublist (value : string) (ms : list PatternMatcher) :
  (omap (λ m, if matches m value
              then Some (pii_type m, detect_masking m value) else None) ms).*1
  `sublist_of` pii_type <$> ms.
Proof.
  induction ms as [|m ms IH]; [done|]. cbn [omap list_omap].
  destruct (matches m value); rewrite !fmap_cons.
  - by apply sublist_skip.
  - by apply sublist_cons.
Qed.

Lemma registry_types_eq :
  registry_types = [EMAIL; PHONE; SSN; IP_ADDRESS; ZIP_CODE; DOB; ACCOUNT_NUMBER].
Proof. reflexivity. Qed.

Lemma detect_types_sublist (value : string) :
  (detect_pii_in_value value).*1 `sublist_of` registry_types.
Proof.
  unfold detect_pii_in_value. destruct (is_empty (strip value)).
  - apply sublist_nil_l.
  - apply omap_matchers_sublist.
Qed.

Lemma detect_pii_in_value_registry (value : string) (t : PIIType) (m : MaskingType) :
  (t, m) ∈ detect_pii_in_value value → t ∈ registry_types.
Proof.
  intros Hin. eapply elem_of_sublist; [|apply (detect_types_sublist value)].
  apply list_elem_of_fmap. by exists (t, m).
Qed.

(** X8.  The types [detect_pii_in_value] reports are taken from the seven
    types of the registry, each at most once and in registry order; credit
    cards, passports, full names and tokens are never among them. *)
Theorem detect_pii_in_value_types (value : string) :
  (detect_pii_in_value value).*1 `sublist_of` registry_types
  ∧ NoDup (detect_pii_in_value value).*1
  ∧ ∀ t m, (t, m) ∈ detect_pii_in_value value →
           t ∉ [CREDIT_CARD; PASSPORT; FULL_NAME; HIGH_ENTROPY_TOKEN].
Proof.
  pose proof (detect_types_sublist value) as Hsub.
  split; [done|]. split.
  - eapply sublist_NoDup; [|exact Hsub]. rewrite registry_types_eq.
    repeat (constructor; [rewrite ?elem_of_cons, elem_of_nil; intuition discriminate|]).
    constructor.
  - intros t m Hin Hbad.
    pose proof (detect_pii_in_value_registry value t m Hin) as Ht.
    rewrite registry_types_eq in Ht.
    repeat (apply elem_of_cons in Hbad as [->|Hbad];
            [rewrite !elem_of_cons, elem_of_nil in Ht; intuition discriminate|]).
    by apply elem_of_nil in Hbad.
Qed.

Lemma forbidden_cell_hits_undetectable `{Fl : PyFloat} (types : gset PIIType)
    (idx : nat) (value : option string) :
  (∀ t, t ∈ types → t = PASSPORT ∨ t = FULL_NAME) →
  forbidden_cell_hits types idx value = Some [].
Proof.
  intros Htypes. unfold forbidden_cell_hits. destruct value as [value|]; [|done].
  destruct (is_empty (strip value)); [done|]. cbv zeta.
  rewrite decide_False by (intros [?|?]%Htypes; discriminate).
  rewrite decide_False by (intros [?|?]%Htypes; discriminate).
  cbn [mbind option_bind]. rewrite !app_nil_r.
  replace (filter (λ d, d.1 ∈ types) (detect_pii_in_value (strip value)))
    with (@nil (PIIType * MaskingType)); [done|].
  symmetry. apply filter_nil_iff. intros [t m] Hin Ht. cbn in Ht.
  pose proof (detect_pii_in_value_registry (strip value) t m Hin) as Hreg.
  rewrite registry_types_eq in Hreg.
  apply Htypes in Ht as [->| ->];
    rewrite !elem_of_cons, elem_of_nil in Hreg; intuition discriminate.
Qed.

(** X9.  A policy that forbids only passports and full names is vacuous:
    no detector produces these types, so the forbidden-PII assertion passes
    on every dataset, and it does so without raising. *)
Theorem forbidding_undetectable_types `{Fl : PyFloat} (df : DataFrame)
    (policy : DatasetPolicy) (mv : Z) :
  forbidden_pii_types policy ≠ [] →
  (∀ t, t ∈ forbidden_pii_types policy → t = PASSPORT ∨ t = FULL_NAME) →
  assert_no_forbidden_pii df policy mv =
  Some {| assertion_type := "no_forbidden_pii";
          r_dataset := p_name policy;
          passed := true;
          findings := [];
          r_message := "PASS: No forbidden PII detected in " ++ p_name policy;
          r_severity := INFO |}.
Proof.
  intros Hne Hforb. unfold assert_no_forbidden_pii.
  set (forbidden := list_to_set (forbidden_pii_types policy) : gset PIIType).
  assert (Htypes : ∀ t, t ∈ forbidden → t = PASSPORT ∨ t = FULL_NAME).
  { intros t Ht. apply Hforb. by apply elem_of_list_to_set in Ht. }
  rewrite decide_False.
  2:{ assert (∃ t, t ∈ forbidden_pii_types policy) as [t Ht]
        by (destruct (forbidden_pii_types policy); [done | eexists; left]).
      intros Hempty. assert (t ∈ forbidden) as Hin
        by (by apply elem_of_list_to_set).
      rewrite Hempty in Hin. by apply elem_of_empty in Hin. }
  assert (Hrows : ∀ cells idx cf,
            scan_rows (forbidden_scan_cell forbidden mv) idx cells cf = Some cf).
  { intros cells idx cf.
    rewrite (scan_rows_hits mv _ _ (forbidden_scan_cell_hits forbidden mv)).
    assert (column_hits (forbidden_cell_hits forbidden) idx cells = Some []) as ->;
      [|done].
    revert idx. induction cells as [|value rest IH]; intros idx; [done|].
    cbn [column_hits]. rewrite forbidden_cell_hits_undetectable by done.
    cbn [mbind option_bind]. by rewrite IH. }
  assert (scan_columns (forbidden_scan_cell forbidden mv)
            (forbidden_finding policy) df = Some []) as ->; [|done].
  induction df as [|[col cells] df IH]; [done|].
  cbn [scan_columns]. rewrite Hrows. cbn [mbind option_bind to_findings].
  by rewrite IH.
Qed.

Lemma forbidding_undetectable_types_witness :
  passed <$> assert_no_forbidden_pii (Fl := RFloat) eleven_ssns passport_policy 10
  = Some true.
Proof.
  rewrite (forbidding_undetectable_types eleven_ssns passport_policy 10).
  - reflexivity.
  - discriminate.
  - intros t Ht. unfold passport_policy in Ht. cbn in Ht.
    rewrite !elem_of_cons, elem_of_nil in Ht. tauto.
Defined.

(** ** What the classifiers call a hash *)

(** X10.  The email, phone, SSN, IP, account-number and credit-card
    classifiers answer [hash] exactly for a value made of 32 to 64
    hexadecimal characters, possibly followed by one newline; this test comes
    first, so such a value is [hash] whatever else it holds. *)
Theorem hash_classification (value : string) :
  let hash_shaped :=
    ∃ h rest, value = (h ++ rest)%string ∧ str_all is_hex h = true
              ∧ 32 ≤ String.length h ≤ 64
              ∧ (rest = "" ∨ rest = String newline "") in
  (EmailMatcher.detect_masking value = HASH ↔ hash_shaped)
  ∧ (PhoneMatcher.detect_masking value = HASH ↔ hash_shaped)
  ∧ (SSNMatcher.detect_masking value = HASH ↔ hash_shaped)
  ∧ (IPAddressMatcher.detect_masking value = HASH ↔ hash_shaped)
  ∧ (AccountNumberMatcher.detect_masking value = HASH ↔ hash_shaped)
  ∧ (detect_credit_card_masking value = Some HASH ↔ hash_shaped).
Proof.
  intros hash_shaped.
  destruct (detect_masking_hash_iff value) as (H1 & H2 & H3 & H4 & H5 & H6).
  pose proof (hash_pattern_match value) as Hshape. fold hash_shaped in Hshape.
  rewrite H1, H2, H3, H4, H5, H6, Hshape. tauto.
Qed.

(** ** When the credit-card validator raises *)

(** X11.  [is_credit_card] raises [ValueError] exactly when the value, with
    its separators removed, has 13 to 19 characters that [str.isdigit]
    accepts of which one is not a decimal digit; it always returns on a
    value without superscript digits. *)
Theorem is_credit_card_raises_iff (value : string) :
  let cleaned := remove_separators value in
  (is_credit_card value = None ↔
   str_all is_digit cleaned = true ∧ 13 ≤ String.length cleaned ≤ 19
   ∧ str_any (λ c, negb (is_decimal c)) cleaned = true)
  ∧ (plain_digits value = true → is_credit_card value ≠ None).
Proof.
  intros cleaned. split.
  - pose proof (is_credit_card_None value) as H. cbv zeta in H. fold cleaned in H.
    rewrite H. clear H.
    assert (Hany : ∀ s, str_any (λ c, negb (is_decimal c)) s
                        = negb (str_all is_decimal s)).
    { induction s as [|c s IH]; [done|]. cbn. rewrite IH.
      by destruct (is_decimal c), (str_all is_decimal s). }
    rewrite Hany, negb_true_iff. unfold isdigit. split.
    + intros ([_ ?]%andb_prop & ? & ?). done.
    + intros (Hd & Hl & Hn). split; [|done].
      rewrite Hd, andb_true_r.
      clearbody cleaned. destruct cleaned; [cbn in Hl; lia | done].
  - intros Hplain. by destruct (is_credit_card_returns value Hplain) as [b ->].
Qed.

Lemma is_credit_card_raises_iff_witness :
  is_credit_card superscript_sample = None.
Proof.
  apply (proj1 (is_credit_card_raises_iff superscript_sample)).
  vm_compute. repeat split; lia.
Defined.

(** ** Detected values are never hashes *)

Lemma elem_of_all_ascii (c : ascii) : In c all_ascii.
Proof.
  apply list_elem_of_In. unfold all_ascii. apply list_elem_of_fmap.
  exists (nat_of_ascii c). split; [by rewrite ascii_nat_embedding|].
  apply elem_of_seq. pose proof (nat_ascii_bounded c). lia.
Qed.

Lemma class_subset_spec (p q : ascii → bool) (c : ascii) :
  class_subset p q = true → p c = true → q c = true.
Proof.
  unfold class_subset. rewrite forallb_forall. intros H Hp.
  specialize (H c (elem_of_all_ascii c)). by rewrite Hp in H.
Qed.

Lemma str_any_app (q : ascii → bool) (a b : string) :
  str_any q (a ++ b)%string = str_any q a || str_any q b.
Proof.
  induction a as [|c a IH]; [done|]. rewrite str_app_cons. cbn [str_any].
  by rewrite IH, orb_assoc.
Qed.

Lemma str_app_assoc (a b c : string) :
  ((a ++ b) ++ c)%string = (a ++ (b ++ c))%string.
Proof.
  induction a as [|x a IH]; [done|]. by rewrite !str_app_cons, IH.
Qed.

Lemma rep_loop_decomposes (q : ascii → bool)
    (step : string → (string → bool) → bool) (cq : bool) (ml : option nat)
    (k : string → bool) (fuel lo : nat) (hi : option nat) (s : string) :
  (∀ s k, step s k = true → decomposes q cq ml false s k) →
  rep_loop step k fuel lo hi s = true →
  decomposes q ((0 <? lo) && cq) (x ← hi; m ← ml; Some (x * m)) false s k.
Proof.
  intros Hstep. revert lo hi s. induction fuel as [|fuel IH]; intros lo hi s; [done|].
  cbn [rep_loop]. intros [H0|[Hopen Hrun]%andb_prop]%orb_prop.
  - destruct lo; [|done]. exists "", s. repeat split; try done.
    intros n _. cbn. lia.
  - apply Hstep in Hrun as (h1 & r1 & -> & Hloop & Hq1 & Hl1 & _).
    apply IH in Hloop as (h2 & rest & -> & Hk & Hq2 & Hl2 & _).
    exists (h1 ++ h2)%string, rest. rewrite str_app_assoc. repeat split; try done.
    + intros [_ Hcq]%andb_prop. rewrite str_any_app, (Hq1 Hcq). done.
    + intros n Hn. rewrite length_str_app.
      destruct hi as [[|x]|]; [done| |done]. destruct ml as [m|]; [|done].
      cbn in Hn. injection Hn as <-.
      specialize (Hl1 m eq_refl). specialize (Hl2 (x * m) eq_refl). lia.
Qed.

Lemma accept_decomposes (q : ascii → bool) (r : regex) (s : string)
    (k : string → bool) :
  accept r s k = true →
  decomposes q (consumes q r) (max_len r) (ends_at_dollar r) s k.
Proof.
  revert s k. induction r as [|p|r1 IH1 r2 IH2|r1 IH1 r2 IH2|r' IH lo hi|];
    intros s k; cbn [accept consumes max_len ends_at_dollar].
  - intros Hk. exists "", s. repeat split; try done. intros n [= <-]. cbn. lia.
  - destruct s as [|c s]; [done|]. intros [Hp Hk]%andb_prop.
    exists (String c ""), s. repeat split; try done.
    + intros Hsub. cbn. by rewrite (class_subset_spec p q c Hsub Hp).
    + intros n [= <-]. cbn. lia.
  - intros H. apply IH1 in H as (h1 & r1' & -> & H & Hq1 & Hl1 & _).
    apply IH2 in H as (h2 & rest & -> & Hk & Hq2 & Hl2 & Hd).
    exists (h1 ++ h2)%string, rest. rewrite str_app_assoc. repeat split; try done.
    + rewrite str_any_app. intros [H|H]%orb_prop; [by rewrite Hq1 | by rewrite Hq2, orb_true_r].
    + intros n Hn. rewrite length_str_app.
      destruct (max_len r1) as [n1|]; [|done]. destruct (max_len r2) as [n2|]; [|done].
      cbn in Hn. injection Hn as <-.
      specialize (Hl1 n1 eq_refl). specialize (Hl2 n2 eq_refl). lia.
  - intros [H|H]%orb_prop.
    + apply IH1 in H as (h & rest & -> & Hk & Hq & Hl & Hd).
      exists h, rest. repeat split; try done.
      * by intros [? _]%andb_prop; apply Hq.
      * intros n Hn. destruct (max_len r1) as [n1|]; [|done].
        destruct (max_len r2) as [n2|]; [|done]. cbn in Hn. injection Hn as <-.
        specialize (Hl n1 eq_refl). lia.
      * by intros [? _]%andb_prop; apply Hd.
    + apply IH2 in H as (h & rest & -> & Hk & Hq & Hl & Hd).
      exists h, rest. repeat split; try done.
      * by intros [_ ?]%andb_prop; apply Hq.
      * intros n Hn. destruct (max_len r1) as [n1|]; [|done].
        destruct (max_len r2) as [n2|]; [|done]. cbn in Hn. injection Hn as <-.
        specialize (Hl n2 eq_refl). lia.
      * by intros [_ ?]%andb_prop; apply Hd.
  - intros H. eapply rep_loop_decomposes; [|exact H].
    intros s' k' Hs'. apply IH in Hs' as (h & rest & -> & Hk & Hq & Hl & _).
    by exists h, rest.
  - intros [Hd Hk]%andb_prop. exists "", s. repeat split; try done.
    intros n [= <-]. cbn. lia.
Qed.

Lemma str_any_negb (p : ascii → bool) (s : string) :
  str_any (λ c, negb (p c)) s = negb (str_all p s).
Proof.
  induction s as [|c s IH]; [done|]. cbn. rewrite IH.
  by destruct (p c), (str_all p s).
Qed.

Lemma at_dollar_length (s : string) : at_dollar s = true → String.length s ≤ 1.
Proof. destruct s as [|c [|d s]]; cbn; [lia | lia | done]. Qed.

Lemma re_match_never_hex32 (r : regex) (u : string) :
  never_hex32 r = true →
  str_all is_hex u = true →
  32 ≤ String.length u →
  re_match r u = false.
Proof.
  intros Hnever Hhex Hlen. apply not_true_is_false. intros Hm.
  apply (accept_decomposes (λ c, negb (is_hex c))) in Hm
    as (h & rest & -> & _ & Hq & Hl & Hd).
  apply orb_prop in Hnever as [Hc|[He Hb]%andb_prop].
  - specialize (Hq Hc).
    assert (str_any (λ c, negb (is_hex c)) (h ++ rest)%string = true)
      by (by rewrite str_any_app, Hq).
    rewrite str_any_negb, Hhex in H. done.
  - destruct (max_len r) as [n|]; [|done]. apply Nat.ltb_lt in Hb.
    specialize (Hl n eq_refl). specialize (Hd He). apply at_dollar_length in Hd.
    rewrite length_str_app in Hlen. lia.
Qed.

Lemma existsb_never_hex32 (ps : list regex) (u : string) :
  forallb never_hex32 ps = true →
  str_all is_hex u = true →
  32 ≤ String.length u →
  existsb (λ p, re_match p u) ps = false.
Proof.
  intros Hall Hhex Hlen. induction ps as [|p ps IH]; [done|].
  cbn in Hall. apply andb_prop in Hall as [Hp Hps]. cbn.
  by rewrite (re_match_never_hex32 p u Hp Hhex Hlen), IH.
Qed.

Lemma is_hex_not_space (c : ascii) : is_hex c = true → is_space c = false.
Proof.
  intros H. apply negb_true_iff.
  apply (class_subset_spec is_hex (λ c, negb (is_space c)) c); [by vm_compute | done].
Qed.

Lemma is_hex_not_separator (c : ascii) :
  is_hex c = true → negb (is_space c || chr_eqb "-" c) = true.
Proof.
  apply (class_subset_spec is_hex (λ c, negb (is_space c || chr_eqb "-" c)) c).
  by vm_compute.
Qed.

(** The strip of a value that [hash_pattern] matches is its hexadecimal
    part. *)
Lemma hash_match_strip (w : string) :
  re_match hash_pattern w = true →
  str_all is_hex (strip w) = true ∧ 32 ≤ String.length (strip w).
Proof.
  intros (h & rest & -> & Hhex & [Hlo _] & Hrest)%hash_pattern_match.
  assert (strip (h ++ rest) = h) as ->; [|done].
  unfold strip.
  assert (lstrip (h ++ rest) = (h ++ rest)%string) as ->.
  { destruct h as [|c h]; [cbn in Hlo; lia|]. rewrite str_app_cons.
    cbn in Hhex. apply andb_prop in Hhex as [Hc _].
    cbn [lstrip]. by rewrite (is_hex_not_space c Hc). }
  clear Hlo. induction h as [|c h IH].
  - rewrite str_app_nil_l. by destruct Hrest as [-> | ->].
  - rewrite str_app_cons. cbn in Hhex. apply andb_prop in Hhex as [Hc Hh].
    cbn [rstrip]. by rewrite (is_hex_not_space c Hc), (IH Hh).
Qed.

(** No matcher that has a hash rule matches a value it would call a hash. *)
Lemma matchers_never_hash (w : string) :
  re_match hash_pattern w = true →
  EmailMatcher.matches w = false
  ∧ PhoneMatcher.matches w = false
  ∧ SSNMatcher.matches w = false
  ∧ IPAddressMatcher.matches w = false
  ∧ AccountNumberMatcher.matches w = false.
Proof.
  intros [Hhex Hlen]%hash_match_strip.
  unfold EmailMatcher.matches, PhoneMatcher.matches, SSNMatcher.matches,
    IPAddressMatcher.matches, AccountNumberMatcher.matches.
  assert (He : ∀ ps, forallb never_hex32 ps = true →
                     existsb (λ p, re_match p (strip w)) ps = false)
    by (intros ps Hps; by apply existsb_never_hex32).
  assert (Hr : ∀ p, never_hex32 p = true → re_match p (strip w) = false)
    by (intros p Hp; by apply re_match_never_hex32).
  rewrite (Hr EmailMatcher.pattern), (Hr EmailMatcher.masked_pattern),
    (He PhoneMatcher.patterns), (He PhoneMatcher.masked_patterns),
    (He SSNMatcher.patterns), (He SSNMatcher.masked_patterns),
    (Hr IPAddressMatcher.pattern), (Hr AccountNumberMatcher.pattern),
    (Hr AccountNumberMatcher.masked_pattern) by (by vm_compute).
  done.
Qed.

Lemma registry_detection_not_hash (value : string) (t : PIIType) (m : MaskingType) :
  (t, m) ∈ detect_pii_in_value value → m ≠ HASH.
Proof.
  intros Hin ->. unfold detect_pii_in_value in Hin.
  destruct (is_empty (strip value)); [by apply elem_of_nil in Hin|].
  apply list_elem_of_omap in Hin as (x & Hx & Hf).
  destruct (matches x (strip value)) eqn:Hm; [|done].
  injection Hf as <- Hd.
  unfold MATCHERS in Hx. rewrite !elem_of_cons, elem_of_nil in Hx.
  destruct (detect_masking_hash_iff (strip value)) as (H1 & H2 & H3 & H4 & H5 & _).
  destruct Hx as [->|[->|[->|[->|[->|[->|[->|[]]]]]]]];
    cbn [matches detect_masking pii_type] in Hm, Hd.
  + apply H1, matchers_never_hash in Hd. destruct Hd as (? & _). congruence.
  + apply H2, matchers_never_hash in Hd. destruct Hd as (_ & ? & _). congruence.
  + apply H3, matchers_never_hash in Hd. destruct Hd as (_ & _ & ? & _). congruence.
  + apply H4, matchers_never_hash in Hd. destruct Hd as (_ & _ & _ & ? & _). congruence.
  + done.
  + by destruct (detect_masking_dob_zip_never_hash (strip value)) as [? _].
  + apply H5, matchers_never_hash in Hd. destruct Hd as (_ & _ & _ & _ & ?). congruence.
Qed.

Lemma credit_card_not_hash (value : string) :
  is_credit_card value = Some true →
  detect_credit_card_masking value ≠ Some HASH.
Proof.
  intros Hcard Hhash.
  destruct (detect_masking_hash_iff value) as (_ & _ & _ & _ & _ & H6).
  apply H6, hash_pattern_match in Hhash as (h & rest & -> & Hhex & [Hlo _] & _).
  unfold is_credit_card in Hcard.
  assert (Hlen : 32 ≤ String.length (remove_separators (h ++ rest))).
  { clear Hcard H6. unfold remove_separators.
    revert Hlo. generalize 32. induction h as [|c h IH]; intros n Hn.
    - cbn in Hn. lia.
    - rewrite str_app_cons. cbn in Hhex. apply andb_prop in Hhex as [Hc Hh].
      cbn [str_filter]. rewrite (is_hex_not_separator c Hc). cbn [String.length].
      destruct n as [|n]; [lia|]. cbn in Hn. specialize (IH Hh n ltac:(lia)). lia. }
  destruct (negb _); [done|]. destruct (_ <? 13); [done|].
  destruct (19 <? _) eqn:E; [done|]. apply Nat.ltb_ge in E. lia.
Qed.

(** X12.  No value is both detected as a type by the registry and classified
    [hash] for it, and no value that is a valid credit card is classified
    [hash]: the patterns of a type and the hash pattern exclude each other. *)
Theorem detected_values_are_never_hash (value : string) :
  (∀ t m, (t, m) ∈ detect_pii_in_value value → m ≠ HASH)
  ∧ (is_credit_card value = Some true →
     detect_credit_card_masking value ≠ Some HASH).
Proof.
  split.
  - intros t m. apply registry_detection_not_hash.
  - apply credit_card_not_hash.
Qed.

(** ** The masking assertion never sees a hash *)

Lemma masking_cell_occurrences_not_hash `{Fl : PyFloat} (required : gset PIIType)
    (idx : nat) (value : option string) (occs : list Hit) :
  masking_cell_occurrences required idx value = Some occs →
  ∀ h, h ∈ occs → h.2.2 ≠ HASH.
Proof.
  unfold masking_cell_occurrences.
  destruct value as [value|]; [|by intros [= <-] h ?%elem_of_nil].
  destruct (is_empty (strip value)); [by intros [= <-] h ?%elem_of_nil|].
  cbv zeta. intros H h Hh.
  match type of H with (?c ≫= _) = _ => destruct c as [card|] eqn:Ecard end; [|done].
  cbn [mbind option_bind] in H. injection H as <-.
  apply elem_of_app in Hh as [Hh|Hh].
  - apply list_elem_of_fmap in Hh as ([t m] & -> & Hd).
    apply list_elem_of_filter in Hd as [_ Hd]. cbn.
    by apply (registry_detection_not_hash (strip value) t m).
  - destruct (decide (CREDIT_CARD ∈ required));
      [|injection Ecard as <-; by apply elem_of_nil in Hh].
    destruct (is_credit_card (strip value)) as [[|]|] eqn:Ecc;
      cbn [mbind option_bind] in Ecard;
      [|injection Ecard as <-; by apply elem_of_nil in Hh|done].
    destruct (detect_credit_card_masking (strip value)) as [m|] eqn:Em; [|done].
    cbn [mbind option_bind] in Ecard. injection Ecard as <-.
    apply list_elem_of_singleton in Hh as ->. cbn. intros ->.
    by apply (credit_card_not_hash (strip value)).
Qed.

Lemma filter_unacceptable_not_hash (ha ha' : gset PIIType) (occs : list Hit) :
  (∀ h, h ∈ occs → h.2.2 ≠ HASH) →
  filter (unacceptable ha) occs = filter (unacceptable ha') occs
  ∧ ∀ h, h ∈ filter (unacceptable ha) occs → h.2.2 = PLAINTEXT.
Proof.
  intros Hno. split.
  - induction occs as [|h occs IH]; [done|]. rewrite !filter_cons.
    assert (unacceptable ha h ↔ unacceptable ha' h) as Hiff.
    { unfold unacceptable. specialize (Hno h ltac:(left)). tauto. }
    rewrite IH by (intros h' Hh'; apply Hno; by right).
    destruct (decide (unacceptable ha h)) as [Hu|Hu].
    + by rewrite decide_True by (by apply Hiff).
    + by rewrite decide_False by (by rewrite <- Hiff).
  - intros h [Hu Hin]%list_elem_of_filter. specialize (Hno h Hin).
    unfold unacceptable in Hu. tauto.
Qed.

Lemma masking_scan_cell_hash_allowed `{Fl : PyFloat} (required ha ha' : gset PIIType)
    (mv : Z) (idx : nat) (value : option string) (cf : ColFindings) :
  masking_scan_cell required ha mv idx value cf
  = masking_scan_cell required ha' mv idx value cf.
Proof.
  rewrite !masking_scan_cell_hits.
  destruct (masking_cell_occurrences required idx value) as [occs|] eqn:E; [|done].
  cbn [mbind option_bind].
  by destruct (filter_unacceptable_not_hash ha ha' occs
                 (masking_cell_occurrences_not_hash _ _ _ _ E)) as [-> _].
Qed.

Lemma scan_rows_ext (f g : nat → option string → ColFindings → option ColFindings)
    (cells : list (option string)) (idx : nat) (cf : ColFindings) :
  (∀ idx value cf, f idx value cf = g idx value cf) →
  scan_rows f idx cells cf = scan_rows g idx cells cf.
Proof.
  intros Hfg. revert idx cf. induction cells as [|value rest IH]; intros idx cf; [done|].
  cbn [scan_rows]. rewrite Hfg. destruct (g idx value cf); [|done].
  cbn [mbind option_bind]. apply IH.
Qed.

Lemma scan_columns_ext (f g : nat → option string → ColFindings → option ColFindings)
    (mk mk' : string → PIIType → list Violation → Violation → option Finding)
    (df : DataFrame) :
  (∀ idx value cf, f idx value cf = g idx value cf) →
  (∀ col t vs v, mk col t vs v = mk' col t vs v) →
  scan_columns f mk df = scan_columns g mk' df.
Proof.
  intros Hfg Hmk. induction df as [|[col cells] df IH]; [done|].
  cbn [scan_columns]. rewrite (scan_rows_ext f g) by done.
  destruct (scan_rows g 0 cells []) as [cf|]; [|done]. cbn [mbind option_bind].
  assert (to_findings (mk col) cf = to_findings (mk' col) cf) as ->.
  { induction cf as [|[t [|v vs]] cf IHcf]; [done|exact IHcf|].
    cbn [to_findings]. by rewrite Hmk, IHcf. }
  by rewrite IH.
Qed.

Lemma max_severity_all_critical (l : list Severity) :
  l ≠ [] → Forall (λ s, s = CRITICAL) l → max_severity l = CRITICAL.
Proof.
  destruct l as [|x l]; [done|]. intros _ [-> Hl]%Forall_cons. cbn [max_severity].
  induction Hl as [|y l -> Hl IH]; [done|]. cbn [foldl]. exact IH.
Qed.

(** The findings of the masking assertion are plaintext occurrences. *)
Lemma masking_findings_plaintext `{Fl : PyFloat} (df : DataFrame)
    (policy : DatasetPolicy) (mv : Z) (r : AssertionResult) :
  assert_masking_applied df policy mv = Some r →
  (∀ f, f ∈ findings r → f_masking_type f = PLAINTEXT ∧ f_severity f = CRITICAL)
  ∧ (passed r = false → r_severity r = CRITICAL).
Proof.
  intros Hrun. unfold assert_masking_applied in Hrun.
  set (required := list_to_set (masking_required_for policy) : gset PIIType) in *.
  set (ha := list_to_set (hash_allowed_for policy) : gset PIIType) in *.
  destruct (decide (_ = ∅)).
  { injection Hrun as <-. split; [by intros f ?%elem_of_nil | done]. }
  destruct (scan_columns _ _ df) as [fs|] eqn:Escan; [|done].
  cbn [mbind option_bind] in Hrun. injection Hrun as <-.
  cbn [findings passed r_severity].
  assert (Hall : ∀ f, f ∈ fs → f_masking_type f = PLAINTEXT ∧ f_severity f = CRITICAL).
  { intros f Hf.
    destruct (scan_findings_spec mv _ _ _ df fs
                (masking_scan_cell_filtered _ _ mv) Escan) as [_ Hsound].
    destruct (Hsound f Hf)
      as (col & cells & hits & t & first & rest & Hc & Hhits & Htake & Hmk).
    rewrite column_hits_filter in Hhits.
    destruct (column_hits (masking_cell_occurrences required) 0 cells)
      as [occs|] eqn:Eoccs; [|done].
    injection Hhits as <-.
    destruct (take_cons_head _ _ _ _ Htake) as (_ & Hfirst & _).
    apply elem_of_bucket in Hfirst.
    pose proof (column_hits_elem_of _ (λ h, h.2.2 ≠ HASH)
                  (masking_cell_occurrences_not_hash required)
                  _ _ _ Eoccs) as Hno.
    destruct (filter_unacceptable_not_hash ha ∅ occs Hno) as [_ Hplain].
    specialize (Hplain _ Hfirst). cbn in Hplain.
    unfold masking_finding, masking_severity in Hmk. rewrite Hplain in Hmk.
    rewrite decide_True in Hmk by done.
    destruct (redact_value _ _); [|done].
    cbn [mbind option_bind] in Hmk. by injection Hmk as <-. }
  split; [exact Hall|]. intros Hfail.
  destruct fs as [|f fs]; [done|]. cbn [negb bool_decide]. 
  rewrite Hfail. cbn [negb].
  apply max_severity_all_critical; [done|].
  apply Forall_fmap, Forall_forall. intros g Hg. by apply Hall.
Qed.

(** X13.  The masking assertion never meets a hashed occurrence: its result
    does not depend on [hash_allowed_for], every finding is a plaintext
    occurrence of severity CRITICAL, and a failing result has severity
    CRITICAL. *)
Theorem masking_assertion_never_sees_hash `{Fl : PyFloat} (df : DataFrame)
    (policy policy' : DatasetPolicy) (mv : Z) :
  p_name policy' = p_name policy →
  masking_required_for policy' = masking_required_for policy →
  assert_masking_applied df policy' mv = assert_masking_applied df policy mv
  ∧ ∀ r, assert_masking_applied df policy mv = Some r →
         (∀ f, f ∈ findings r →
               f_masking_type f = PLAINTEXT ∧ f_severity f = CRITICAL)
         ∧ (passed r = false → r_severity r = CRITICAL).
Proof.
  intros Hname Hreq. split.
  - unfold assert_masking_applied. rewrite Hname, Hreq.
    destruct (decide (_ = ∅)); [done|].
    rewrite (scan_columns_ext _
               (masking_scan_cell (list_to_set (masking_required_for policy))
                  (list_to_set (hash_allowed_for policy)) mv)
               _ (masking_finding policy) df); [done| |].
    + intros idx value cf. apply masking_scan_cell_hash_allowed.
    + intros col t vs v. unfold masking_finding. by rewrite Hname.
  - intros r Hrun. by apply (masking_findings_plaintext df policy mv r).
Qed.

Lemma masking_assertion_never_sees_hash_witness :
  assert_masking_applied masked_ssns ssn_hash_policy 10
  = assert_masking_applied masked_ssns ssn_policy 10.
Proof.
  apply (masking_assertion_never_sees_hash (Fl := RFloat)
           masked_ssns ssn_policy ssn_hash_policy 10);
    reflexivity.
Defined.

(** ** Cycle detection in general *)

Lemma is_walk_snoc (edge : string → string → Prop) (l : list string) (v : string) :
  is_walk edge l → (∀ u, last l = Some u → edge u v) → is_walk edge (l ++ [v]).
Proof.
  induction l as [|a l IH]; intros Hw Hlast; [done|].
  destruct Hw as [Ha Hw]. destruct l as [|b l].
  - cbn. split; [|done]. by apply Hlast.
  - change ((a :: b :: l) ++ [v])%list with (a :: (b :: l) ++ [v])%list.
    split; [exact Ha|]. apply IH; [exact Hw|]. intros u Hu. by apply Hlast.
Qed.

Lemma is_walk_drop (edge : string → string → Prop) (l : list string) (i : nat) :
  is_walk edge l → is_walk edge (drop i l).
Proof.
  revert l. induction i as [|i IH]; intros l Hw; [by rewrite drop_0|].
  destruct l as [|a l]; [done|]. apply IH, Hw.
Qed.

Lemma last_drop_lt {A} (l : list A) (i : nat) :
  i < length l → last (drop i l) = last l.
Proof.
  revert l. induction i as [|i IH]; intros l Hi; [by rewrite drop_0|].
  destruct l as [|a l]; [simpl in Hi; lia|]. cbn [drop]. simpl in Hi.
  rewrite IH by lia. destruct l; [simpl in Hi; lia | done].
Qed.

Lemma index_of_elem_of (x : string) (path : list string) :
  x ∈ path →
  ∃ i rest, index_of x path = Some i ∧ drop i path = x :: rest ∧ i < length path.
Proof.
  induction path as [|y path IH]; [by intros ?%elem_of_nil|]. intros Hin.
  cbn [index_of]. destruct (decide (y = x)) as [->|Hne].
  - exists 0, path. repeat split; simpl; lia.
  - apply elem_of_cons in Hin as [->|Hin]; [done|].
    destruct (IH Hin) as (i & rest & -> & Hd & Hi).
    exists (S i), rest. repeat split; [done|]. simpl. lia.
Qed.

Lemma topo_closed (graph : Graph) (order : list string) :
  topo graph order → ∀ u v, u ∈ order → graph_edge graph u v → v ∈ order.
Proof.
  induction order as [|a order IH]; intros Ht u v Hu He; [by apply elem_of_nil in Hu|].
  destruct Ht as (_ & Hsucc & Ht). apply elem_of_cons in Hu as [->|Hu].
  - right. by apply Hsucc.
  - right. by apply (IH Ht u v).
Qed.

Lemma walk_stays_inside (edge : string → string → Prop) (inside : string → Prop)
    (l : list string) (u : string) :
  (∀ u v, inside u → edge u v → inside v) →
  inside u → is_walk edge (u :: l) → ∀ x, x ∈ l → inside x.
Proof.
  intros Hclosed. revert u. induction l as [|v l IH]; intros u Hu Hw x Hx;
    [by apply elem_of_nil in Hx|].
  destruct Hw as [He Hw]. cbn in He.
  assert (inside v) as Hv by by apply (Hclosed u v).
  apply elem_of_cons in Hx as [->|Hx]; [done|]. by apply (IH v).
Qed.

(** A topological order has no closed walk through any of its nodes. *)
Lemma topo_no_closed_walk (graph : Graph) (order : list string) :
  topo graph order →
  ∀ u l, u ∈ order → ¬ is_walk (graph_edge graph) (u :: l ++ [u]).
Proof.
  induction order as [|a order IH]; intros Ht u l Hu Hw; [by apply elem_of_nil in Hu|].
  destruct (decide (u ∈ order)) as [Hin|Hnin].
  { destruct Ht as (_ & _ & Ht). by apply (IH Ht u l). }
  apply elem_of_cons in Hu as [->|Hu]; [|done].
  destruct Ht as (_ & Hsucc & Ht). apply Hnin.
  destruct l as [|v l].
  - destruct Hw as [He _]. cbn in He. by apply Hsucc.
  - destruct Hw as [He Hw]. cbn in He.
    apply (walk_stays_inside (graph_edge graph) (λ x, x ∈ order) (l ++ [a]) v).
    + intros x y Hx Hxy. by apply (topo_closed graph order Ht x y).
    + by apply Hsucc.
    + exact Hw.
    + apply elem_of_app. right. by apply list_elem_of_singleton.
Qed.

Lemma dfs_unfold (graph : Graph) (fuel' : nat) (node : string) (path : list string)
    (st : DfsState) :
  dfs graph (S fuel') node path st =
  st2 ← match graph_get node graph with
        | Some neighbors =>
            dfs_each graph fuel' (path ++ [node])%list neighbors
              (mkDfsState (visited st ∪ {[ node ]}) (rec_stack st ∪ {[ node ]}) (cycles st))
        | None =>
            Some (mkDfsState (visited st ∪ {[ node ]}) (rec_stack st ∪ {[ node ]})
                    (cycles st))
        end;
  Some (mkDfsState (visited st2) (rec_stack st2 ∖ {[ node ]}) (cycles st2)).
Proof. reflexivity. Qed.

Lemma dfs_each_unfold (graph : Graph) (fuel' : nat) (path : list string)
    (neighbor : string) (rest : list string) (st : DfsState) :
  dfs_each graph fuel' path (neighbor :: rest) st =
  st1 ← (if decide (neighbor ∉ visited st) then
           dfs graph fuel' neighbor path st
         else if decide (neighbor ∈ rec_stack st) then
           cycle_start ← index_of neighbor path;
           Some (mkDfsState (visited st) (rec_stack st)
                   (cycles st ++ [drop cycle_start path ++ [neighbor]])%list)
         else Some st);
  dfs_each graph fuel' path rest st1.
Proof. reflexivity. Qed.

Section DfsCorrect.
Variables (graph : Graph) (V : gset string).
Hypothesis HV : ∀ u v, graph_edge graph u v → v ∈ V.

(** The loop over the neighbours of the last node of [path], given that the
    recursive calls behave. *)
Lemma dfs_each_spec (fuel' : nat) :
  (∀ node path st,
     dfs_inv graph V st path → node ∈ V → node ∉ visited st →
     (∀ u, last path = Some u → graph_edge graph u node) →
     size (V ∖ visited st) ≤ fuel' →
     ∃ st', dfs graph fuel' node path st = Some st'
            ∧ dfs_inv graph V st' path
            ∧ visited st ⊆ visited st' ∧ node ∈ visited st'
            ∧ (cycles st' = [] → cycles st = [])) →
  ∀ ns node path st,
    dfs_inv graph V st path → last path = Some node →
    (∀ v, v ∈ ns → graph_edge graph node v) →
    size (V ∖ visited st) ≤ fuel' →
    ∃ st', dfs_each graph fuel' path ns st = Some st'
           ∧ dfs_inv graph V st' path
           ∧ visited st ⊆ visited st'
           ∧ (cycles st' = [] →
              cycles st = [] ∧ ∀ v, v ∈ ns → v ∈ visited st' ∧ v ∉ rec_stack st').
Proof.
  intros IH ns. induction ns as [|v ns IHns]; intros node path st Hinv Hlast Hns Hsize.
  { exists st. split; [done|]. split; [done|]. split; [done|].
    intros Hnil. split; [done|]. by intros v ?%elem_of_nil. }
  rewrite dfs_each_unfold.
  assert (∃ st1,
    (if decide (v ∉ visited st) then dfs graph fuel' v path st
     else if decide (v ∈ rec_stack st) then
       cycle_start ← index_of v path;
       Some (mkDfsState (visited st) (rec_stack st)
               (cycles st ++ [drop cycle_start path ++ [v]])%list)
     else Some st) = Some st1
    ∧ dfs_inv graph V st1 path
    ∧ visited st ⊆ visited st1
    ∧ (cycles st1 = [] → cycles st = [] ∧ v ∈ visited st1 ∧ v ∉ rec_stack st1))
    as (st1 & -> & Hinv1 & Hsub1 & Hdone1).
  { assert (graph_edge graph node v) as Hedge by (apply Hns; left).
    destruct (decide (v ∉ visited st)) as [Hnv|Hv].
    - destruct (IH v path st Hinv (HV _ _ Hedge) Hnv) as (st1 & -> & Hinv1 & Hsub1 & Hv1 & Hc1).
      { intros u Hu. rewrite Hlast in Hu. by injection Hu as <-. }
      { exact Hsize. }
      exists st1. split; [done|]. split; [done|]. split; [done|].
      intros Hnil. split; [by apply Hc1|]. split; [done|].
      destruct Hinv as (Hrec & Hrv & _), Hinv1 as (Hrec1 & _).
      rewrite Hrec1, <- Hrec. intros Hin. apply Hnv. by apply Hrv.
    - apply dec_stable in Hv. destruct (decide (v ∈ rec_stack st)) as [Hr|Hnr].
      + destruct Hinv as (Hrec & Hrv & Hnd & Hw & HVis & Hcyc & Htopo).
        assert (v ∈ path) as Hvp by (rewrite Hrec in Hr; by apply elem_of_list_to_set in Hr).
        destruct (index_of_elem_of v path Hvp) as (i & rest & -> & Hdrop & Hi).
        cbn [mbind option_bind]. eexists. split; [done|]. cbn [visited rec_stack cycles].
        split; [|split; [done|]].
        * do 5 (split; [done|]). split.
          -- intros c [Hc|Hc%list_elem_of_singleton]%elem_of_app; [by apply Hcyc|].
             subst c.
             exists v, rest. rewrite Hdrop. split; [done|]. split.
             ++ rewrite <- Hdrop. eapply sublist_NoDup; [exact Hnd | apply sublist_drop].
             ++ rewrite <- Hdrop. apply is_walk_snoc; [by apply is_walk_drop|].
                intros u Hu. rewrite last_drop_lt, Hlast in Hu by done.
                by injection Hu as <-.
          -- intros Hnil. by apply app_eq_nil in Hnil as [_ ?].
        * intros Hnil. by apply app_eq_nil in Hnil as [_ ?].
      + exists st. split; [done|]. split; [done|]. split; [done|].
        intros Hnil. done. }
  cbn [mbind option_bind].
  destruct (IHns node path st1 Hinv1 Hlast) as (st' & -> & Hinv' & Hsub' & Hdone').
  { intros v' Hv'. apply Hns. by right. }
  { etrans; [|exact Hsize]. apply subseteq_size.
    intros x [Hx Hnx]%elem_of_difference. apply elem_of_difference.
    split; [done|]. intros Hin. by apply Hnx, Hsub1. }
  exists st'. split; [done|]. split; [done|]. split; [by etrans|].
  intros Hnil. destruct (Hdone' Hnil) as [Hnil1 Hns'].
  destruct (Hdone1 Hnil1) as (Hnil0 & Hv1 & Hnr1). split; [done|].
  intros v' [->|Hv']%elem_of_cons; [|by apply Hns'].
  split; [by apply Hsub'|].
  destruct Hinv1 as (Hrec1 & _), Hinv' as (Hrec' & _). by rewrite Hrec', <- Hrec1.
Qed.

(** [dfs] on a node not yet visited: it returns when [fuel] is at least the
    number of nodes not yet visited, and keeps the invariant. *)
Lemma dfs_spec (fuel : nat) :
  ∀ node path st,
    dfs_inv graph V st path → node ∈ V → node ∉ visited st →
    (∀ u, last path = Some u → graph_edge graph u node) →
    size (V ∖ visited st) ≤ fuel →
    ∃ st', dfs graph fuel node path st = Some st'
           ∧ dfs_inv graph V st' path
           ∧ visited st ⊆ visited st' ∧ node ∈ visited st'
           ∧ (cycles st' = [] → cycles st = []).
Proof.
  induction fuel as [|fuel' IH]; intros node path st Hinv HnV Hnv Hedge Hsize.
  { exfalso. assert (size (V ∖ visited st) = 0) as Hz by lia.
    apply size_empty_inv in Hz. apply (not_elem_of_empty (C := gset string) node).
    rewrite <- Hz. by apply elem_of_difference. }
  rewrite dfs_unfold.
  destruct Hinv as (Hrec & Hrv & Hnd & Hw & HVis & Hcyc & Htopo).
  assert (node ∉ path) as Hnp.
  { intros Hin. apply Hnv, Hrv. rewrite Hrec. by apply elem_of_list_to_set. }
  set (st1 := mkDfsState (visited st ∪ {[ node ]}) (rec_stack st ∪ {[ node ]}) (cycles st)).
  assert (dfs_inv graph V st1 (path ++ [node])) as Hinv1.
  { split; [|split; [|split; [|split; [|split; [|split]]]]]; cbn [st1 rec_stack visited cycles].
    - rewrite list_to_set_app_L, Hrec. cbn. by rewrite (right_id_L ∅ (∪)).
    - intros x [Hx| Hx]%elem_of_union; apply elem_of_union; [left; by apply Hrv | by right].
    - apply NoDup_app. split; [done|]. split; [|apply NoDup_singleton].
      intros x Hx Hx'%list_elem_of_singleton. by subst.
    - by apply is_walk_snoc.
    - intros x [Hx| Hx%elem_of_singleton]%elem_of_union; [by apply HVis | by subst].
    - exact Hcyc.
    - intros Hnil. destruct (Htopo Hnil) as (order & Ht & Horder).
      exists order. split; [done|]. intros u. rewrite Horder.
      rewrite !elem_of_union, !elem_of_singleton. split.
      + intros [Hu Hnu]. split; [by left|]. intros [?| ->]; [done|]. done.
      + intros [[Hu| ->] Hnu]; [|by destruct Hnu; right].
        split; [done|]. intros ?. apply Hnu. by left. }
  assert (size (V ∖ visited st1) ≤ fuel') as Hsize1.
  { assert (size (V ∖ visited st1) < size (V ∖ visited st)) as Hlt; [|lia].
    apply subset_size. split.
    - intros x [Hx Hnx]%elem_of_difference. apply elem_of_difference.
      split; [done|]. intros Hin. apply Hnx. cbn. apply elem_of_union. by left.
    - intros Hsub. specialize (Hsub node). rewrite !elem_of_difference in Hsub.
      destruct Hsub as [_ Hn]; [done|]. apply Hn. cbn. apply elem_of_union. right.
      by apply elem_of_singleton. }
  assert (∃ st2,
    match graph_get node graph with
    | Some neighbors => dfs_each graph fuel' (path ++ [node]) neighbors st1
    | None => Some st1
    end = Some st2
    ∧ dfs_inv graph V st2 (path ++ [node])
    ∧ visited st1 ⊆ visited st2
    ∧ (cycles st2 = [] →
       cycles st1 = []
       ∧ ∀ v, graph_edge graph node v → v ∈ visited st2 ∧ v ∉ rec_stack st2))
    as (st2 & -> & Hinv2 & Hsub2 & Hdone2).
  { unfold graph_edge. destruct (graph_get node graph) as [ns|] eqn:Eget.
    - destruct (dfs_each_spec fuel' IH ns node (path ++ [node]) st1 Hinv1)
        as (st2 & -> & Hinv2 & Hsub2 & Hdone2).
      + by rewrite last_snoc.
      + intros v Hv. unfold graph_edge. by rewrite Eget.
      + exact Hsize1.
      + exists st2. done.
    - exists st1. split; [done|]. split; [done|]. split; [done|].
      intros Hnil. split; [done|]. by intros v ?%elem_of_nil. }
  cbn [mbind option_bind]. eexists. split; [done|]. cbn [visited rec_stack cycles].
  destruct Hinv2 as (Hrec2 & Hrv2 & Hnd2 & Hw2 & HVis2 & Hcyc2 & Htopo2).
  assert (rec_stack st2 ∖ {[ node ]} = rec_stack st) as Hrestore.
  { rewrite Hrec2, list_to_set_app_L, <- Hrec. cbn. rewrite (right_id_L ∅ (∪)).
    apply set_eq. intros x.
    rewrite elem_of_difference, elem_of_union, elem_of_singleton. split.
    - intros [[Hx| ->] Hne]; done.
    - intros Hx. split; [by left|]. intros ->. by apply Hnv, Hrv. }
  split; [|split; [|split]].
  - split; [|split; [|split; [|split; [|split; [|split]]]]]; cbn [rec_stack visited cycles];
      try done.
    + by rewrite Hrestore.
    + intros x [Hx _]%elem_of_difference. by apply Hrv2.
    + intros Hnil. destruct (Hdone2 Hnil) as [_ Hsucc].
      destruct (Htopo2 Hnil) as (order & Ht & Horder).
      assert (node ∈ rec_stack st2) as Hnr.
      { rewrite Hrec2. apply elem_of_list_to_set, elem_of_app. right.
        by apply list_elem_of_singleton. }
      exists (node :: order). split.
      * split; [|split; [|done]].
        -- rewrite Horder. by intros [_ ?].
        -- intros v Hv. apply Horder. by apply Hsucc.
      * intros u. rewrite elem_of_cons, Horder, elem_of_difference, elem_of_singleton.
        split.
        -- intros [->|[Hu Hnu]].
           ++ split; [by apply Hrv2 | by intros [_ ?]].
           ++ split; [done | by intros [? _]].
        -- intros [Hu Hnu]. destruct (decide (u = node)) as [->|Hne]; [by left|].
           right. split; [done|]. intros Hin. by apply Hnu.
  - intros x Hx. apply Hsub2. cbn. apply elem_of_union. by left.
  - apply Hsub2. cbn. apply elem_of_union. right. by apply elem_of_singleton.
  - intros Hnil. by destruct (Hdone2 Hnil) as [? _].
Qed.

End DfsCorrect.

Lemma dfs_roots_spec (graph : Graph) (V : gset string) (fuel : nat) :
  (∀ u v, graph_edge graph u v → v ∈ V) →
  size V ≤ fuel →
  ∀ roots st,
    dfs_inv graph V st [] → (∀ r, r ∈ roots → r ∈ V) →
    ∃ st', dfs_roots graph fuel roots st = Some st'
           ∧ dfs_inv graph V st' []
           ∧ visited st ⊆ visited st'
           ∧ (∀ r, r ∈ roots → r ∈ visited st')
           ∧ (cycles st' = [] → cycles st = []).
Proof.
  intros HV Hfuel roots. induction roots as [|r roots IH]; intros st Hinv Hroots.
  { exists st. split; [done|]. split; [done|]. split; [done|].
    split; [by intros r ?%elem_of_nil | done]. }
  cbn [dfs_roots].
  assert (∃ st1,
    (if decide (r ∉ visited st) then dfs graph fuel r [] st else Some st) = Some st1
    ∧ dfs_inv graph V st1 [] ∧ visited st ⊆ visited st1 ∧ r ∈ visited st1
    ∧ (cycles st1 = [] → cycles st = []))
    as (st1 & -> & Hinv1 & Hsub1 & Hr1 & Hc1).
  { destruct (decide (r ∉ visited st)) as [Hnv|Hv].
    - apply (dfs_spec graph V HV fuel r [] st Hinv); [apply Hroots; left | done | done |].
      etrans; [|exact Hfuel]. apply subseteq_size.
      by intros x [Hx _]%elem_of_difference.
    - apply dec_stable in Hv. exists st. done. }
  cbn [mbind option_bind].
  destruct (IH st1 Hinv1) as (st' & -> & Hinv' & Hsub' & Hroots' & Hc').
  { intros r' Hr'. apply Hroots. by right. }
  exists st'. split; [done|]. split; [done|]. split; [by etrans|]. split.
  - intros r' [->|Hr']%elem_of_cons; [by apply Hsub' | by apply Hroots'].
  - intros Hnil. by apply Hc1, Hc'.
Qed.

Lemma is_walk_ext (edge edge' : string → string → Prop) (l : list string) :
  (∀ u v, edge u v → edge' u v) → is_walk edge l → is_walk edge' l.
Proof.
  intros Hsub. induction l as [|u l IH]; [done|]. intros [He Hw]. split; [|by apply IH].
  destruct (head l); [by apply Hsub | done].
Qed.

Lemma graph_get_build (u : string) (edges : list LineageEdge) :
  default [] (graph_get u (build_graph edges))
  = e_target <$> filter (λ edge, e_source edge = u) edges.
Proof.
  unfold build_graph. rewrite graph_get_foldl_add. cbn [graph_get].
  by destruct (e_target <$> filter _ edges).
Qed.

Lemma graph_edge_build (config : SuiteConfig) (u v : string) :
  graph_edge (build_graph (lineage config)) u v ↔ has_edge config u v.
Proof.
  unfold graph_edge, has_edge. rewrite graph_get_build, list_elem_of_fmap. split.
  - intros (edge & -> & [Hs Hin]%list_elem_of_filter). by exists edge.
  - intros (edge & Hin & Hs & Ht). exists edge. split; [done|].
    by apply list_elem_of_filter.
Qed.

Lemma graph_get_keys (node : string) (graph : Graph) :
  node ∈ graph.*1 ↔ graph_get node graph ≠ None.
Proof.
  induction graph as [|[k targets] graph IH]; cbn [graph_get].
  - split; [by intros ?%elem_of_nil | done].
  - rewrite fmap_cons, elem_of_cons. cbn [fst].
    destruct (decide (k = node)) as [->|Hne]; [by split; [|left]|].
    rewrite IH. split; [by intros [?|?] | by right].
Qed.

Lemma graph_keys_build (config : SuiteConfig) (u : string) :
  u ∈ (build_graph (lineage config)).*1 ↔ ∃ v, has_edge config u v.
Proof.
  rewrite graph_get_keys. split.
  - intros Hget. destruct (graph_get u _) as [[|v ns]|] eqn:Eget; [| |done].
    + exfalso. unfold build_graph in Eget. rewrite graph_get_foldl_add in Eget.
      cbn [graph_get] in Eget.
      by destruct (e_target <$> filter _ (lineage config)).
    + exists v. apply graph_edge_build. unfold graph_edge. rewrite Eget. left.
  - intros [v Hv%graph_edge_build] Hnone. unfold graph_edge in Hv.
    rewrite Hnone in Hv. by apply elem_of_nil in Hv.
Qed.

Lemma has_edge_nodes (config : SuiteConfig) (u v : string) :
  has_edge config u v → u ∈ lineage_nodes config ∧ v ∈ lineage_nodes config.
Proof.
  intros (edge & Hin & <- & <-). unfold lineage_nodes.
  rewrite !elem_of_union, !elem_of_list_to_set, !list_elem_of_fmap.
  split; [left | right]; by exists edge.
Qed.

Lemma dfs_each_fuel_mono (graph : Graph) (fuel : nat) (path : list string) :
  (∀ node path st st',
     dfs graph fuel node path st = Some st' → dfs graph (S fuel) node path st = Some st') →
  ∀ ns st st',
    dfs_each graph fuel path ns st = Some st' →
    dfs_each graph (S fuel) path ns st = Some st'.
Proof.
  intros IH ns. induction ns as [|v ns IHns]; intros st st' Hrun; [done|].
  rewrite dfs_each_unfold in Hrun. rewrite dfs_each_unfold.
  destruct (decide (v ∉ visited st)).
  - destruct (dfs graph fuel v path st) as [st1|] eqn:E; [|done].
    rewrite (IH _ _ _ _ E). cbn [mbind option_bind] in *. by apply IHns.
  - destruct (decide (v ∈ rec_stack st)).
    + destruct (index_of v path); [|done]. cbn [mbind option_bind] in *. by apply IHns.
    + cbn [mbind option_bind] in *. by apply IHns.
Qed.

(** A call that returns with some fuel returns the same with more. *)
Lemma dfs_fuel_mono (graph : Graph) (fuel : nat) :
  ∀ node path st st',
    dfs graph fuel node path st = Some st' → dfs graph (S fuel) node path st = Some st'.
Proof.
  induction fuel as [|fuel IH]; intros node path st st' Hrun; [done|].
  rewrite dfs_unfold in Hrun. rewrite dfs_unfold.
  destruct (graph_get node graph) as [ns|]; [|done].
  destruct (dfs_each graph fuel _ ns _) as [st2|] eqn:E; [|done].
  by rewrite (dfs_each_fuel_mono graph fuel _ IH ns _ _ E).
Qed.

Lemma dfs_roots_fuel_mono (graph : Graph) (fuel : nat) (roots : list string) :
  ∀ st st',
    dfs_roots graph fuel roots st = Some st' →
    dfs_roots graph (S fuel) roots st = Some st'.
Proof.
  induction roots as [|r roots IH]; intros st st' Hrun; [done|].
  cbn [dfs_roots] in *. destruct (decide (r ∉ visited st)).
  - destruct (dfs graph fuel r [] st) as [st1|] eqn:E; [|done].
    rewrite (dfs_fuel_mono graph fuel _ _ _ _ E). cbn [mbind option_bind] in *.
    by apply IH.
  - cbn [mbind option_bind] in *. by apply IH.
Qed.

Lemma detect_cycles_fuel_mono (config : SuiteConfig) (fuel fuel' : nat)
    (found : list (list string)) :
  fuel ≤ fuel' →
  detect_cycles fuel config = Some found → detect_cycles fuel' config = Some found.
Proof.
  intros Hle Hrun. induction Hle as [|fuel' Hle IH]; [done|].
  unfold detect_cycles in *. cbv zeta in *.
  destruct (dfs_roots _ fuel' _ _) as [st|] eqn:E; [|done].
  by rewrite (dfs_roots_fuel_mono _ _ _ _ _ E).
Qed.

(** X14.  [detect_cycles] returns once the recursion may go as deep as the
    lineage has datasets, with the same result however much deeper it may
    go, and [path.index] never raises; every cycle it reports is a walk
    along edges of the lineage that comes back to its first dataset without
    passing a dataset twice; and it reports no cycle exactly when the
    lineage has none. *)
Theorem detect_cycles_correct (config : SuiteConfig) (fuel : nat) :
  size (lineage_nodes config) ≤ fuel →
  ∃ found, (∀ fuel', fuel ≤ fuel' → detect_cycles fuel' config = Some found)
           ∧ (∀ c, c ∈ found → is_cycle (has_edge config) c)
           ∧ (found = [] ↔ acyclic config).
Proof.
  intros Hfuel.
  enough (∃ found, detect_cycles fuel config = Some found
                   ∧ (∀ c, c ∈ found → is_cycle (has_edge config) c)
                   ∧ (found = [] ↔ acyclic config))
    as (found & Hrun & Hrest).
  { exists found. split; [|done]. intros fuel' Hle.
    by apply (detect_cycles_fuel_mono config fuel fuel'). }
  unfold detect_cycles. cbv zeta.
  set (graph := build_graph (lineage config)).
  destruct (dfs_roots_spec graph (lineage_nodes config) fuel) with
    (roots := graph.*1) (st := mkDfsState ∅ ∅ [])
    as (st' & -> & Hinv & _ & Hroots & _).
  - intros u v Huv%graph_edge_build. by apply (has_edge_nodes config u v).
  - exact Hfuel.
  - split; [done|]. split; [done|]. split; [constructor|]. split; [done|].
    split; [by intros x ?%elem_of_empty|]. split; [by intros c ?%elem_of_nil|].
    intros _. exists []. split; [done|]. intros u. split; [by intros ?%elem_of_nil|].
    by intros [?%elem_of_empty _].
  - intros r [v Hv]%graph_keys_build. by apply (has_edge_nodes config r v).
  - cbn [mbind option_bind]. eexists. split; [done|].
    destruct Hinv as (Hrec & _ & _ & _ & _ & Hcyc & Htopo). cbn in Hrec.
    assert (Hgenuine : ∀ c, c ∈ cycles st' → is_cycle (has_edge config) c).
    { intros c Hc. destruct (Hcyc c Hc) as (first & middle & -> & Hnd & Hw).
      exists first, middle. split; [done|]. split; [done|].
      eapply is_walk_ext; [|exact Hw]. intros u v. apply graph_edge_build. }
    split; [exact Hgenuine|]. split.
    + intros Hnil u l Hw. destruct (Htopo Hnil) as (order & Ht & Horder).
      apply (topo_no_closed_walk graph order Ht u l).
      * apply Horder. rewrite Hrec. split; [|by intros ?%elem_of_empty].
        apply Hroots, graph_keys_build.
        destruct l as [|v l]; destruct Hw as [He _]; cbn in He; by eexists.
      * eapply is_walk_ext; [|exact Hw]. intros x y. apply graph_edge_build.
    + intros Hacyclic. destruct (cycles st') as [|c cs]; [done|]. exfalso.
      destruct (Hgenuine c) as (first & middle & -> & _ & Hw); [left|].
      by apply (Hacyclic first middle).
Qed.

Lemma detect_cycles_correct_witness :
  ∃ found, detect_cycles 3 triangle_config = Some found
           ∧ Forall (is_cycle (has_edge triangle_config)) found
           ∧ (found = [] ↔ acyclic triangle_config).
Proof.
  destruct (detect_cycles_correct triangle_config 3) as (found & Hrun & Hcyc & Hiff).
  - vm_compute. lia.
  - exists found. split; [by apply Hrun|]. split; [|done]. by apply Forall_forall.
Defined.

(** ** Paths to the sources *)

Lemma path_dfs_unfold (reverse_graph : Graph) (fuel' : nat) (current : string)
    (path : list string) (visited : gset string) (paths : list (list string)) :
  path_dfs reverse_graph (S fuel') current path visited paths =
  if decide (current ∈ visited) then Some paths
  else match graph_get current reverse_graph with
       | None | Some [] => Some (paths ++ [reverse (path ++ [current])])%list
       | Some upstreams =>
           path_dfs_each reverse_graph fuel' (path ++ [current])%list
             (visited ∪ {[ current ]}) upstreams paths
       end.
Proof.
  cbn [path_dfs]. destruct (decide (current ∈ visited)); [done|].
  by destruct (graph_get current reverse_graph) as [[|up ups]|].
Qed.

Lemma is_walk_cons (edge : string → string → Prop) (u v : string) (l : list string) :
  is_walk edge (u :: v :: l) ↔ edge u v ∧ is_walk edge (v :: l).
Proof. done. Qed.

Lemma is_walk_reverse (edge : string → string → Prop) (l : list string) :
  is_walk edge l → is_walk (flip edge) (reverse l).
Proof.
  induction l as [|u l IH]; [done|]. intros [He Hw]. rewrite reverse_cons.
  apply is_walk_snoc; [by apply IH|].
  intros x Hx. rewrite last_reverse in Hx. rewrite Hx in He. exact He.
Qed.

Section PathSearch.
Variables (reverse_graph : Graph) (V : gset string).
Hypothesis HV : ∀ u v, graph_edge reverse_graph u v → v ∈ V.

Lemma path_dfs_each_spec (fuel' : nat) (path : list string) (visited : gset string) :
  (∀ current paths, current ∈ V →
     ∃ new, path_dfs reverse_graph fuel' current path visited paths = Some (paths ++ new)%list
            ∧ ∀ p, p ∈ new ↔ ∃ q, p = reverse (path ++ q) ∧ climbs reverse_graph path current q) →
  ∀ upstreams paths, (∀ up, up ∈ upstreams → up ∈ V) →
    ∃ new, path_dfs_each reverse_graph fuel' path visited upstreams paths
           = Some (paths ++ new)%list
           ∧ ∀ p, p ∈ new ↔
                  ∃ up q, up ∈ upstreams ∧ p = reverse (path ++ q)
                          ∧ climbs reverse_graph path up q.
Proof.
  intros IH upstreams. induction upstreams as [|up ups IHups]; intros paths Hups.
  { exists []. split; [by rewrite app_nil_r|]. intros p. split; [by intros ?%elem_of_nil|].
    by intros (? & ? & ?%elem_of_nil & _). }
  change (path_dfs_each reverse_graph fuel' path visited (up :: ups) paths)
    with (paths' ← path_dfs reverse_graph fuel' up path visited paths;
          path_dfs_each reverse_graph fuel' path visited ups paths').
  destruct (IH up paths) as (new1 & -> & Hnew1); [apply Hups; left|].
  cbn [mbind option_bind].
  destruct (IHups (paths ++ new1)%list) as (new2 & -> & Hnew2).
  { intros up' Hup'. apply Hups. by right. }
  exists (new1 ++ new2)%list. split; [by rewrite app_assoc|].
  intros p. rewrite elem_of_app, Hnew1, Hnew2. split.
  - intros [(q & Hp & Hq)|(up' & q & Hup' & Hp & Hq)].
    + exists up, q. split; [left | done].
    + exists up', q. split; [by right | done].
  - intros (up' & q & [->|Hup']%elem_of_cons & Hp & Hq).
    + left. by exists q.
    + right. by exists up', q.
Qed.

(** [path_dfs] appends the reversed continuations of [path] from [current]
    that climb to a dataset without upstream, and returns when [fuel]
    exceeds the number of datasets not yet on [path]. *)
Lemma path_dfs_spec (fuel : nat) :
  ∀ current path visited paths,
    visited = list_to_set path → NoDup path → current ∈ V →
    size (V ∖ visited) < fuel →
    ∃ new, path_dfs reverse_graph fuel current path visited paths = Some (paths ++ new)%list
           ∧ ∀ p, p ∈ new ↔ ∃ q, p = reverse (path ++ q) ∧ climbs reverse_graph path current q.
Proof.
  induction fuel as [|fuel' IH]; intros current path visited paths Hvis Hnd HcV Hsize; [lia|].
  rewrite path_dfs_unfold. destruct (decide (current ∈ visited)) as [Hin|Hnin].
  { exists []. split; [by rewrite app_nil_r|]. intros p. split; [by intros ?%elem_of_nil|].
    intros (q & _ & Hhead & Hndq & _). exfalso.
    destruct q as [|c q]; [done|]. injection Hhead as ->.
    apply NoDup_app in Hndq as (_ & Hdisj & _). apply (Hdisj current); [|left].
    rewrite Hvis in Hin. by apply elem_of_list_to_set in Hin. }
  assert (current ∉ path) as Hnp.
  { intros Hin. apply Hnin. rewrite Hvis. by apply elem_of_list_to_set. }
  assert (NoDup (path ++ [current])) as Hnd'.
  { apply NoDup_app. split; [done|]. split; [|apply NoDup_singleton].
    intros x Hx Hx'%list_elem_of_singleton. by subst. }
  destruct (graph_get current reverse_graph) as [[|up0 ups0]|] eqn:Eget.
  1, 3:
    exists [reverse (path ++ [current])]; split; [done|]; intros p;
    rewrite list_elem_of_singleton; split;
    [ intros ->; exists [current]; split; [done|]; split; [done|]; split; [done|];
      split; [done|]; exists current; split; [done|]; by rewrite Eget
    | intros (q & -> & Hhead & _ & Hw & r & Hlast & Hroot);
      destruct q as [|c q]; [done|]; injection Hhead as ->;
      destruct q as [|v q]; [done|];
      destruct Hw as [He _]; cbn in He; unfold graph_edge in He;
      rewrite Eget in He; by apply elem_of_nil in He ].
  set (ups := up0 :: ups0) in *.
  destruct (path_dfs_each_spec fuel' (path ++ [current]) (visited ∪ {[ current ]}))
    with (upstreams := ups) (paths := paths) as (new & -> & Hnew).
  - intros c ps Hc. apply IH; [|done|done|].
    + by rewrite list_to_set_app_L, Hvis; cbn; rewrite (right_id_L ∅ (∪)).
    + assert (size (V ∖ (visited ∪ {[current]})) < size (V ∖ visited)) as Hlt; [|lia].
      apply subset_size. split.
      * intros x [Hx Hnx]%elem_of_difference. apply elem_of_difference.
        split; [done|]. intros Hin. apply Hnx. apply elem_of_union. by left.
      * intros Hsub. specialize (Hsub current). rewrite !elem_of_difference in Hsub.
        destruct Hsub as [_ Hn]; [done|]. apply Hn. apply elem_of_union. right.
        by apply elem_of_singleton.
  - intros up Hup. apply (HV current up). unfold graph_edge. by rewrite Eget.
  - exists new. split; [done|]. intros p. rewrite Hnew. split.
    + intros (up & q' & Hup & -> & Hhead & Hndq & Hw & r & Hlast & Hroot).
      exists (current :: q'). split; [by rewrite <- app_assoc|].
      split; [done|]. split; [by rewrite <- app_assoc in Hndq|].
      destruct q' as [|c q']; [done|]. injection Hhead as ->. split.
      * apply is_walk_cons. split; [|done]. unfold graph_edge. by rewrite Eget.
      * by exists r.
    + intros (q & -> & Hhead & Hndq & Hw & r & Hlast & Hroot).
      destruct q as [|c q']; [done|]. injection Hhead as ->.
      destruct q' as [|up q''].
      { injection Hlast as <-. by rewrite Eget in Hroot. }
      apply is_walk_cons in Hw as [He Hw].
      exists up, (up :: q''). split; [by unfold graph_edge in He; rewrite Eget in He|].
      split; [by rewrite <- app_assoc|]. split; [done|].
      split; [by rewrite <- app_assoc|]. split; [done|]. by exists r.
Qed.

End PathSearch.

Lemma path_dfs_each_fuel_mono (reverse_graph : Graph) (fuel : nat) (path : list string)
    (visited : gset string) :
  (∀ current path visited paths paths',
     path_dfs reverse_graph fuel current path visited paths = Some paths' →
     path_dfs reverse_graph (S fuel) current path visited paths = Some paths') →
  ∀ upstreams paths paths',
    path_dfs_each reverse_graph fuel path visited upstreams paths = Some paths' →
    path_dfs_each reverse_graph (S fuel) path visited upstreams paths = Some paths'.
Proof.
  intros IH upstreams. induction upstreams as [|up ups IHups]; intros paths paths' Hrun;
    [done|].
  change ((paths1 ← path_dfs reverse_graph fuel up path visited paths;
           path_dfs_each reverse_graph fuel path visited ups paths1) = Some paths') in Hrun.
  change ((paths1 ← path_dfs reverse_graph (S fuel) up path visited paths;
           path_dfs_each reverse_graph (S fuel) path visited ups paths1) = Some paths').
  destruct (path_dfs reverse_graph fuel up path visited paths) as [paths1|] eqn:E; [|done].
  rewrite (IH _ _ _ _ _ E). cbn [mbind option_bind] in *. by apply IHups.
Qed.

Lemma path_dfs_fuel_mono (reverse_graph : Graph) (fuel : nat) :
  ∀ current path visited paths paths',
    path_dfs reverse_graph fuel current path visited paths = Some paths' →
    path_dfs reverse_graph (S fuel) current path visited paths = Some paths'.
Proof.
  induction fuel as [|fuel IH]; intros current path visited paths paths' Hrun; [done|].
  rewrite path_dfs_unfold in Hrun. rewrite path_dfs_unfold.
  destruct (decide (current ∈ visited)); [done|].
  destruct (graph_get current reverse_graph) as [[|up ups]|]; [done| |done].
  by apply path_dfs_each_fuel_mono.
Qed.

Lemma find_path_to_source_fuel_mono (config : SuiteConfig) (target_dataset : string)
    (fuel fuel' : nat) (paths : list (list string)) :
  fuel ≤ fuel' →
  find_path_to_source fuel target_dataset config = Some paths →
  find_path_to_source fuel' target_dataset config = Some paths.
Proof.
  intros Hle Hrun. induction Hle as [|fuel' Hle IH]; [done|].
  by apply path_dfs_fuel_mono.
Qed.

Lemma build_reverse_graph_flip (edges : list LineageEdge) :
  build_reverse_graph edges
  = build_graph ((λ edge, mkLineageEdge (e_target edge) (e_source edge)) <$> edges).
Proof. unfold build_reverse_graph, build_graph. by rewrite foldl_fmap. Qed.

Lemma reverse_graph_edge (config : SuiteConfig) (u v : string) :
  graph_edge (build_reverse_graph (lineage config)) u v ↔ has_edge config v u.
Proof.
  unfold graph_edge, has_edge.
  rewrite build_reverse_graph_flip, graph_get_build, list_elem_of_fmap. split.
  - intros (edge' & -> & [Hs (edge & -> & Hin)%list_elem_of_fmap]%list_elem_of_filter).
    by exists edge.
  - intros (edge & Hin & Hs & Ht).
    exists (mkLineageEdge (e_target edge) (e_source edge)). split; [done|].
    apply list_elem_of_filter. split; [done|]. apply list_elem_of_fmap. by exists edge.
Qed.

Lemma reverse_graph_root (config : SuiteConfig) (r : string) :
  default [] (graph_get r (build_reverse_graph (lineage config))) = [] ↔ is_root config r.
Proof.
  unfold is_root. split.
  - intros Hnil u Hu%reverse_graph_edge. unfold graph_edge in Hu. rewrite Hnil in Hu.
    by apply elem_of_nil in Hu.
  - intros Hroot.
    destruct (default [] (graph_get r (build_reverse_graph (lineage config))))
      as [|u l] eqn:E; [done|].
    exfalso. apply (Hroot u), reverse_graph_edge. unfold graph_edge. rewrite E. left.
Qed.

Lemma climbs_source_path (config : SuiteConfig) (target_dataset : string)
    (p : list string) :
  (∃ q, p = reverse q
        ∧ climbs (build_reverse_graph (lineage config)) [] target_dataset q)
  ↔ is_source_path config target_dataset p.
Proof.
  unfold climbs, is_source_path. split.
  - intros (q & -> & Hhead & Hnd & Hw & r & Hlast & Hroot). cbn [app] in Hnd.
    split; [by rewrite reverse_Permutation|]. split.
    + apply is_walk_reverse in Hw. eapply is_walk_ext; [|exact Hw].
      intros u v. apply reverse_graph_edge.
    + split; [by rewrite last_reverse|]. exists r. rewrite head_reverse.
      split; [done|]. by apply reverse_graph_root.
  - intros (Hnd & Hw & Hlast & r & Hhead & Hroot). exists (reverse p).
    split; [by rewrite reverse_involutive|]. split; [by rewrite head_reverse|].
    split; [cbn [app]; by rewrite reverse_Permutation|]. split.
    + apply is_walk_reverse in Hw. eapply is_walk_ext; [|exact Hw].
      intros u v Huv. by apply reverse_graph_edge.
    + exists r. rewrite last_reverse. split; [done|]. by apply reverse_graph_root.
Qed.

(** The paths found with fuel for one call more than there are datasets. *)
Lemma find_path_to_source_paths (config : SuiteConfig) (target_dataset : string)
    (fuel : nat) :
  size (lineage_nodes config) + 2 ≤ fuel →
  ∃ paths, find_path_to_source fuel target_dataset config = Some paths
           ∧ ∀ p, p ∈ paths ↔ is_source_path config target_dataset p.
Proof.
  intros Hfuel. unfold find_path_to_source.
  destruct (path_dfs_spec (build_reverse_graph (lineage config))
              (lineage_nodes config ∪ {[ target_dataset ]})) with
    (fuel := fuel) (current := target_dataset) (path := @nil string)
    (visited := (∅ : gset string)) (paths := @nil (list string))
    as (new & -> & Hnew).
  - intros u v Huv%reverse_graph_edge. apply elem_of_union. left.
    by apply (has_edge_nodes config v u).
  - done.
  - constructor.
  - apply elem_of_union. right. by apply elem_of_singleton.
  - assert (size ((lineage_nodes config ∪ {[target_dataset]}) ∖ ∅)
            ≤ size (lineage_nodes config) + 1); [|lia].
    etrans; [apply subseteq_size; by intros x [? _]%elem_of_difference|].
    rewrite size_union_alt.
    assert (size (({[target_dataset]} : gset string) ∖ lineage_nodes config) ≤ 1); [|lia].
    etrans; [apply subseteq_size; by intros x [? _]%elem_of_difference|].
    by rewrite size_singleton.
  - exists new. split; [done|]. intros p. rewrite Hnew.
    apply (climbs_source_path config target_dataset p).
Qed.

(** [min(paths, key=len)] picks a member no longer than any other. *)
Lemma min_by_len_spec (first : list string) (rest : list (list string)) :
  min_by_len first rest ∈ first :: rest
  ∧ ∀ p, p ∈ first :: rest → length (min_by_len first rest) ≤ length p.
Proof.
  unfold min_by_len. revert first. induction rest as [|q rest IH]; intros first.
  { split; [left|]. by intros p ->%list_elem_of_singleton. }
  cbn [foldl]. destruct (Nat.ltb_spec (length q) (length first)) as [Hlt|Hge].
  - destruct (IH q) as [Hin Hmin]. split; [by right|].
    intros p [->|Hp]%elem_of_cons; [|by apply Hmin].
    specialize (Hmin q ltac:(left)). lia.
  - destruct (IH first) as [Hin Hmin]. split.
    + apply elem_of_cons in Hin as [->|Hin]; [left | right; by right].
    + intros p [->|[->|Hp]%elem_of_cons]%elem_of_cons.
      * apply Hmin. left.
      * specialize (Hmin first ltac:(left)). lia.
      * apply Hmin. by right.
Qed.

(** X15.  [find_path_to_source] returns once the recursion may go one call
    deeper than there are datasets, with the same result however much
    deeper it may go; the paths it returns are exactly the walks along the
    lineage that start at a dataset nothing flows into, end at the target
    and pass no dataset twice. *)
Theorem find_path_to_source_spec (config : SuiteConfig) (target_dataset : string)
    (fuel : nat) :
  size (lineage_nodes config) + 2 ≤ fuel →
  ∃ paths,
    (∀ fuel', fuel ≤ fuel' → find_path_to_source fuel' target_dataset config = Some paths)
    ∧ ∀ p, p ∈ paths ↔ is_source_path config target_dataset p.
Proof.
  intros Hfuel.
  destruct (find_path_to_source_paths config target_dataset fuel Hfuel)
    as (paths & Hrun & Hpaths).
  exists paths. split; [|done]. intros fuel' Hle.
  by apply (find_path_to_source_fuel_mono config target_dataset fuel fuel').
Qed.

Lemma find_path_to_source_spec_witness :
  ∃ paths,
    find_path_to_source 6 "mart" fan_in_config = Some paths
    ∧ is_source_path fan_in_config "mart" ["raw"; "staging"; "mart"]
    ∧ ["raw"; "staging"; "mart"] ∈ paths.
Proof.
  destruct (find_path_to_source_spec fan_in_config "mart" 6) as (paths & Hrun & Hpaths).
  - vm_compute. lia.
  - exists paths. split; [by apply Hrun|].
    assert (find_path_to_source 6 "mart" fan_in_config
            = Some [["raw"; "staging"; "mart"]; ["crm"; "mart"]]) as Heq by by vm_compute.
    rewrite (Hrun 6 (le_n 6)) in Heq. injection Heq as ->.
    split; [apply Hpaths|]; left.
Defined.

(** X16.  [trace_pii_leakage_path] returns a shortest walk from a dataset
    nothing flows into to the target, whatever the type; it returns [None]
    only when no such walk exists, which is when every way upstream runs
    into a cycle; for a target nothing flows into, also one the lineage does
    not mention, it returns the target alone. *)
Theorem trace_pii_leakage_path_spec (config : SuiteConfig) (pii_type : PIIType)
    (target_dataset : string) (fuel : nat) :
  size (lineage_nodes config) + 2 ≤ fuel →
  ∃ result,
    trace_pii_leakage_path fuel pii_type target_dataset config = Some result
    ∧ match result with
      | Some p =>
          is_source_path config target_dataset p
          ∧ ∀ q, is_source_path config target_dataset q → length p ≤ length q
      | None => ∀ q, ¬ is_source_path config target_dataset q
      end
    ∧ (is_root config target_dataset → result = Some [target_dataset]).
Proof.
  intros Hfuel. unfold trace_pii_leakage_path.
  destruct (find_path_to_source_paths config target_dataset fuel Hfuel)
    as (paths & -> & Hpaths).
  cbn [mbind option_bind].
  assert (Hroot : is_root config target_dataset →
                  ∀ p, is_source_path config target_dataset p → p = [target_dataset]).
  { intros Hroot p (Hnd & Hw & Hlast & _).
    destruct p as [|a p]; [done|]. destruct p as [|b p].
    { by injection Hlast as ->. }
    exfalso. clear Hnd. revert a b Hw Hlast.
    induction p as [|c p IH]; intros a b Hw Hlast.
    - injection Hlast as ->. destruct Hw as [He _]. by apply (Hroot a).
    - destruct Hw as [_ Hw]. by apply (IH b c). }
  destruct paths as [|first rest].
  - exists None. split; [done|]. split.
    + intros q Hq%Hpaths. by apply elem_of_nil in Hq.
    + intros Hr. exfalso.
      assert (is_source_path config target_dataset [target_dataset]) as Hp.
      { split; [apply NoDup_singleton|]. split; [done|]. split; [done|].
        by exists target_dataset. }
      apply Hpaths in Hp. by apply elem_of_nil in Hp.
  - destruct (min_by_len_spec first rest) as [Hin Hmin].
    exists (Some (min_by_len first rest)). split; [done|]. split.
    + split; [by apply Hpaths|]. intros q Hq%Hpaths. by apply Hmin.
    + intros Hr. f_equal. apply (Hroot Hr). by apply Hpaths.
Qed.

Lemma trace_pii_leakage_path_spec_witness :
  ∃ result,
    trace_pii_leakage_path 6 EMAIL "mart" fan_in_config = Some result
    ∧ result = Some ["crm"; "mart"].
Proof.
  destruct (trace_pii_leakage_path_spec fan_in_config EMAIL "mart" 6)
    as (result & Hrun & _ & _).
  - vm_compute. lia.
  - exists result. split; [done|].
    assert (trace_pii_leakage_path 6 EMAIL "mart" fan_in_config
            = Some (Some ["crm"; "mart"])) as Heq by by vm_compute.
    rewrite Hrun in Heq. by injection Heq as ->.
Defined.

(** ** The allowed-only assertion *)

Lemma foldl_ext_in {A B} (f g : A → B → A) (l : list B) (a : A) :
  (∀ a b, f a b = g a b) → foldl f a l = foldl g a l.
Proof.
  intros Hfg. revert a. induction l as [|b l IH]; intros a; [done|].
  cbn [foldl]. by rewrite Hfg, IH.
Qed.

Section AllowedOnlyFacts.
Context {Fl : PyFloat}.
Variables (allowed forbidden : gset PIIType).
Hypothesis Hcomplement : ∀ t, t ∈ forbidden ↔ t ∉ allowed.

Lemma allowed_scan_cell_eq (mv : Z) (idx : nat) (value : option string)
    (cf : ColFindings) :
  allowed_scan_cell allowed mv idx value cf =
  if cell_raises value then None else forbidden_scan_cell forbidden mv idx value cf.
Proof.
  unfold allowed_scan_cell, forbidden_scan_cell, cell_raises.
  destruct value as [value|]; [|done].
  destruct (is_empty (strip value)); [done|]. cbv zeta.
  assert (Hdec : ∀ t (A : Type) (x y : A),
            (if decide (t ∉ allowed) then x else y)
            = (if decide (t ∈ forbidden) then x else y)).
  { intros t A x y. destruct (decide (t ∉ allowed)) as [Hn|Hn].
    - by rewrite decide_True by (by apply Hcomplement).
    - rewrite decide_False; [done|]. by rewrite Hcomplement. }
  rewrite (foldl_ext_in _
             (λ cf '(t, masking_type),
                if decide (t ∈ forbidden)
                then record mv t (idx, strip value, masking_type) cf else cf))
    by (intros a [t m]; apply Hdec).
  destruct (is_credit_card (strip value)) as [[|]|]; cbn [mbind option_bind].
  - rewrite Hdec. destruct (decide (CREDIT_CARD ∈ forbidden)); cbn [mbind option_bind].
    + destruct (detect_credit_card_masking (strip value)); [|done].
      cbn [mbind option_bind]. rewrite Hdec.
      by destruct (is_high_entropy_token (strip value)),
        (decide (HIGH_ENTROPY_TOKEN ∈ forbidden)).
    + rewrite Hdec. by destruct (is_high_entropy_token (strip value)),
        (decide (HIGH_ENTROPY_TOKEN ∈ forbidden)).
  - rewrite Hdec. destruct (decide (CREDIT_CARD ∈ forbidden)); cbn [mbind option_bind];
      by destruct (is_high_entropy_token (strip value)),
        (decide (HIGH_ENTROPY_TOKEN ∈ forbidden)).
  - done.
Qed.

Lemma allowed_scan_rows_eq (mv : Z) (cells : list (option string)) (idx : nat)
    (cf : ColFindings) :
  scan_rows (allowed_scan_cell allowed mv) idx cells cf =
  if existsb cell_raises cells then None
  else scan_rows (forbidden_scan_cell forbidden mv) idx cells cf.
Proof.
  revert idx cf. induction cells as [|value rest IH]; intros idx cf; [done|].
  cbn [scan_rows existsb]. rewrite allowed_scan_cell_eq.
  destruct (cell_raises value); [done|]. cbn [orb].
  destruct (forbidden_scan_cell forbidden mv idx value cf) as [cf'|];
    cbn [mbind option_bind]; [apply IH | by destruct (existsb _ _)].
Qed.

End AllowedOnlyFacts.

Lemma allowed_finding_as_disallowed (policy policy' : DatasetPolicy) (col : string)
    (t : PIIType) (violations : list Violation) (first_violation : Violation) :
  p_name policy' = p_name policy →
  allowed_finding policy col t violations first_violation
  = as_disallowed <$> forbidden_finding policy' col t violations first_violation.
Proof.
  intros Hname. unfold allowed_finding, forbidden_finding. rewrite Hname.
  by destruct (redact_value _ _).
Qed.

Lemma to_findings_fmap (g : Finding → Finding)
    (mk mk' : PIIType → list Violation → Violation → option Finding)
    (cf : ColFindings) :
  (∀ t vs v, mk t vs v = fmap (M := option) g (mk' t vs v)) →
  to_findings mk cf = fmap (M := option) (fmap (M := list) g) (to_findings mk' cf).
Proof.
  intros Hmk. induction cf as [|[t [|v vs]] cf IH]; [done|exact IH|].
  cbn [to_findings]. rewrite Hmk, IH.
  destruct (mk' t (v :: vs) v); [|done]. cbn.
  by destruct (to_findings mk' cf).
Qed.

Lemma allowed_scan_columns_eq `{Fl : PyFloat} (allowed forbidden : gset PIIType)
    (policy policy' : DatasetPolicy) (mv : Z) (df : DataFrame) :
  (∀ t, t ∈ forbidden ↔ t ∉ allowed) →
  p_name policy' = p_name policy →
  scan_columns (allowed_scan_cell allowed mv) (allowed_finding policy) df =
  if frame_raises df then None
  else fmap (M := option) (fmap (M := list) as_disallowed)
         (scan_columns (forbidden_scan_cell forbidden mv) (forbidden_finding policy') df).
Proof.
  intros Hc Hname. induction df as [|[col cells] df IH]; [done|].
  cbn [scan_columns]. unfold frame_raises. cbn [existsb snd]. fold (frame_raises df).
  rewrite (allowed_scan_rows_eq allowed forbidden Hc).
  destruct (existsb cell_raises cells); [done|]. cbn [orb].
  destruct (scan_rows _ 0 cells []) as [cf|]; cbn [mbind option_bind];
    [|by destruct (frame_raises df)].
  rewrite (to_findings_fmap as_disallowed _ (forbidden_finding policy' col))
    by (intros; by apply allowed_finding_as_disallowed).
  destruct (to_findings (forbidden_finding policy' col) cf) as [here|]; cbn;
    [|by destruct (frame_raises df)].
  rewrite IH. destruct (frame_raises df); [done|].
  destruct (scan_columns _ (forbidden_finding policy') df) as [later|]; cbn; [|done].
  by rewrite fmap_app.
Qed.

(** Nothing is recorded when no type is forbidden. *)
Lemma forbidden_scan_nothing `{Fl : PyFloat} (policy : DatasetPolicy) (mv : Z)
    (df : DataFrame) :
  scan_columns (forbidden_scan_cell ∅ mv) (forbidden_finding policy) df = Some [].
Proof.
  assert (Hcell : ∀ idx value cf, forbidden_scan_cell ∅ mv idx value cf = Some cf).
  { intros idx value cf. unfold forbidden_scan_cell. destruct value as [value|]; [|done].
    destruct (is_empty (strip value)); [done|]. cbv zeta.
    rewrite (foldl_ext_in _ (λ cf _, cf)).
    - rewrite !decide_False by apply not_elem_of_empty. cbn [mbind option_bind].
      f_equal. generalize (detect_pii_in_value (strip value)). intros l.
      by induction l.
    - intros a [t m]. by rewrite decide_False by apply not_elem_of_empty. }
  assert (Hrows : ∀ cells idx, scan_rows (forbidden_scan_cell ∅ mv) idx cells [] = Some []).
  { intros cells. induction cells as [|value rest IH]; intros idx; [done|].
    cbn [scan_rows]. rewrite Hcell. cbn [mbind option_bind]. apply IH. }
  induction df as [|[col cells] df IH]; [done|].
  cbn [scan_columns]. rewrite Hrows. cbn [mbind option_bind to_findings]. by rewrite IH.
Qed.

(** X17.  The allowed-only assertion is the forbidden-PII assertion for the
    complement of the allowed types, with severity HIGH in place of
    CRITICAL and its own wording, except that it runs the Luhn test on every
    cell whatever the policy: it raises as soon as [is_credit_card] raises
    on one cell, and otherwise raises, passes and finds as the other does. *)
Theorem only_allowed_as_forbidden_complement `{Fl : PyFloat} (df : DataFrame)
    (policy policy' : DatasetPolicy) (mv : Z) :
  p_name policy' = p_name policy →
  (∀ t, t ∈ forbidden_pii_types policy' ↔ t ∉ allowed_pii_types policy) →
  (frame_raises df = true → assert_only_allowed_pii df policy mv = None)
  ∧ (frame_raises df = false →
     match assert_only_allowed_pii df policy mv,
           assert_no_forbidden_pii df policy' mv with
     | Some r, Some r' =>
         passed r = passed r'
         ∧ findings r = as_disallowed <$> findings r'
         ∧ r_severity r = (if passed r then INFO else HIGH)
     | None, None => True
     | _, _ => False
     end).
Proof.
  intros Hname Hcomplement.
  set (allowed := list_to_set (allowed_pii_types policy) : gset PIIType).
  set (forbidden := list_to_set (forbidden_pii_types policy') : gset PIIType).
  assert (Hc : ∀ t, t ∈ forbidden ↔ t ∉ allowed).
  { intros t. unfold forbidden, allowed. by rewrite !elem_of_list_to_set. }
  pose proof (allowed_scan_columns_eq allowed forbidden policy policy' mv df Hc Hname)
    as Hscan.
  unfold assert_only_allowed_pii, assert_no_forbidden_pii.
  fold allowed forbidden. split.
  - intros Hraise. by rewrite Hscan, Hraise.
  - intros Hquiet. rewrite Hscan, Hquiet.
    destruct (decide (forbidden = ∅)) as [Hempty|Hne].
    + rewrite Hempty, forbidden_scan_nothing. done.
    + destruct (scan_columns _ (forbidden_finding policy') df) as [fs|]; [|done].
      cbn [fmap option_fmap option_map mbind option_bind passed findings r_severity].
      rewrite length_fmap. split; [done|]. split; [done|].
      by destruct (bool_decide (length fs = 0)).
Qed.

Lemma only_allowed_as_forbidden_complement_witness :
  frame_raises two_ssns = false
  ∧ (findings <$> assert_only_allowed_pii (Fl := RFloat) two_ssns all_but_ssn_policy 10)
    = (fmap as_disallowed ∘ findings
       <$> assert_no_forbidden_pii (Fl := RFloat) two_ssns ssn_policy 10).
Proof.
  split; [done|].
  destruct (only_allowed_as_forbidden_complement (Fl := RFloat)
              two_ssns all_but_ssn_policy ssn_policy 10) as [_ Hsame].
  - reflexivity.
  - intros t. destruct t; by apply (bool_decide_unpack _).
  - specialize (Hsame eq_refl).
    destruct (assert_only_allowed_pii two_ssns all_but_ssn_policy 10) as [r|],
             (assert_no_forbidden_pii two_ssns ssn_policy 10) as [r'|]; try done.
    destruct Hsame as (_ & Hf & _). cbn. by rewrite Hf.
Defined.

(** ** What a finding of the forbidden-PII assertion says *)

Lemma bucket_app (t : PIIType) (a b : list Hit) :
  bucket t (a ++ b) = (bucket t a ++ bucket t b)%list.
Proof. unfold bucket. by rewrite filter_app, fmap_app. Qed.

(** In a list of detections with distinct types, the bucket of a type holds
    one entry when the type is there and none otherwise. *)
Lemma bucket_standard (types : gset PIIType) (t : PIIType) (idx : nat)
    (value_str : string) (detected : list (PIIType * MaskingType)) :
  NoDup detected.*1 →
  let standard :=
    (λ d, (d.1, (idx, value_str, d.2))) <$> filter (λ d, d.1 ∈ types) detected in
  (t ∈ types ∧ t ∈ detected.*1 →
   ∃ m, (t, m) ∈ detected ∧ bucket t standard = [(idx, value_str, m)])
  ∧ (¬ (t ∈ types ∧ t ∈ detected.*1) → bucket t standard = []).
Proof.
  intros Hnd standard.
  assert (Hnone : ∀ l : list (PIIType * MaskingType), t ∉ l.*1 →
            bucket t ((λ d, (d.1, (idx, value_str, d.2))) <$> filter (λ d, d.1 ∈ types) l)
            = []).
  { intros l Hl. unfold bucket. rewrite (proj2 (filter_nil_iff _ _)); [done|].
    intros [t' v] ([t'' m] & [= -> ->] & [_ Hin]%list_elem_of_filter)%list_elem_of_fmap.
    cbn. intros ->. apply Hl. apply list_elem_of_fmap. by exists (t, m). }
  split.
  - intros [Htypes Hin]. subst standard.
    induction detected as [|[t0 m0] detected IH]; [by apply elem_of_nil in Hin|].
    rewrite fmap_cons in Hnd, Hin. cbn [fst] in Hnd, Hin.
    apply NoDup_cons in Hnd as [Hnin Hnd]. rewrite filter_cons. cbn [fst].
    destruct (decide (t0 = t)) as [->|Hne].
    + exists m0. split; [left|]. rewrite decide_True by done.
      rewrite fmap_cons, bucket_cons. cbn [fst snd]. rewrite decide_True by done.
      by rewrite (Hnone detected Hnin).
    + apply elem_of_cons in Hin as [?|Hin]; [congruence|].
      destruct (IH Hnd Hin) as (m & Hm & Hb). exists m. split; [by right|].
      destruct (decide (t0 ∈ types)); [|done].
      rewrite fmap_cons, bucket_cons. cbn [fst]. by rewrite decide_False.
  - intros Hn. destruct (decide (t ∈ detected.*1)) as [Hin|Hnin]; [|by apply Hnone].
    unfold bucket. rewrite (proj2 (filter_nil_iff _ _)); [done|].
    intros [t' v] ([t'' m] & [= -> ->] & [Ht _]%list_elem_of_filter)%list_elem_of_fmap.
    cbn in *. intros ->. by apply Hn.
Qed.

(** The bucket of a type among the occurrences found in one cell. *)
Lemma forbidden_cell_bucket `{Fl : PyFloat} (types : gset PIIType) (t : PIIType)
    (idx : nat) (cell : option string) (hits : list Hit) :
  forbidden_cell_hits types idx cell = Some hits →
  (t ∈ types ∧ cell_has_type t cell →
   ∃ raw m, cell = Some raw ∧ bucket t hits = [(idx, strip raw, m)])
  ∧ (¬ (t ∈ types ∧ cell_has_type t cell) → bucket t hits = []).
Proof.
  unfold forbidden_cell_hits, cell_has_type.
  destruct cell as [raw|]; [|intros [= <-]; split; [by intros [_ ?] | done]].
  destruct (is_empty (strip raw)) eqn:Eempty;
    [intros [= <-]; split; [by intros [_ [? _]] | done]|].
  cbv zeta. intros Hrun.
  match type of Hrun with (?c ≫= _) = _ => destruct c as [card|] eqn:Ecard end; [|done].
  cbn [mbind option_bind] in Hrun. injection Hrun as <-.
  rewrite !bucket_app.
  destruct (bucket_standard types t idx (strip raw) (detect_pii_in_value (strip raw)))
    as [Hstd1 Hstd0].
  { eapply sublist_NoDup; [|apply detect_types_sublist]. rewrite registry_types_eq.
    repeat (constructor; [rewrite ?elem_of_cons, elem_of_nil; intuition discriminate|]).
    constructor. }
  cbv zeta in Hstd1, Hstd0.
  assert (Hreg : t ∈ (detect_pii_in_value (strip raw)).*1 →
                 t ≠ CREDIT_CARD ∧ t ≠ HIGH_ENTROPY_TOKEN).
  { intros ([t' m] & -> & Hin%detect_pii_in_value_registry)%list_elem_of_fmap.
    rewrite registry_types_eq in Hin. cbn [fst].
    split; intros ->; rewrite ?elem_of_cons, elem_of_nil in Hin; intuition discriminate. }
  assert (Hcard :
    (t = CREDIT_CARD ∧ CREDIT_CARD ∈ types ∧ is_credit_card (strip raw) = Some true →
     ∃ m, bucket t card = [(idx, strip raw, m)])
    ∧ (¬ (t = CREDIT_CARD ∧ CREDIT_CARD ∈ types ∧ is_credit_card (strip raw) = Some true) →
       bucket t card = [])).
  { destruct (decide (CREDIT_CARD ∈ types)) as [Hcc|Hcc].
    - destruct (is_credit_card (strip raw)) as [[|]|]; cbn [mbind option_bind] in Ecard;
        [|injection Ecard as <-; split; [by intros (_ & _ & ?) | done]|done].
      destruct (detect_credit_card_masking (strip raw)) as [m|]; [|done].
      cbn [mbind option_bind] in Ecard. injection Ecard as <-.
      rewrite bucket_cons. cbn [fst snd]. split.
      + intros (-> & _ & _). exists m. by rewrite decide_True.
      + intros Hn. rewrite decide_False; [done|]. intros <-. by apply Hn.
    - injection Ecard as <-. split; [by intros (_ & ? & _) | done]. }
  set (token := if decide (HIGH_ENTROPY_TOKEN ∈ types) then _ else _).
  assert (Htoken :
    (t = HIGH_ENTROPY_TOKEN ∧ HIGH_ENTROPY_TOKEN ∈ types
     ∧ is_high_entropy_token (strip raw) = true →
     bucket t token = [(idx, strip raw, PLAINTEXT)])
    ∧ (¬ (t = HIGH_ENTROPY_TOKEN ∧ HIGH_ENTROPY_TOKEN ∈ types
          ∧ is_high_entropy_token (strip raw) = true) →
       bucket t token = [])).
  { subst token. destruct (decide (HIGH_ENTROPY_TOKEN ∈ types)) as [Ht|Ht].
    - destruct (is_high_entropy_token (strip raw)).
      + rewrite bucket_cons. cbn [fst snd]. split.
        * intros (-> & _ & _). by rewrite decide_True.
        * intros Hn. rewrite decide_False; [done|]. intros <-. by apply Hn.
      + split; [by intros (_ & _ & ?) | done].
    - split; [by intros (_ & ? & _) | done]. }
  destruct Hcard as [Hcard1 Hcard0], Htoken as [Htoken1 Htoken0].
  split.
  - intros (Htypes & _ & [Hstd|[[-> Hcc]|[-> Htok]]]).
    + destruct (Hstd1 (conj Htypes Hstd)) as (m & _ & ->).
      destruct (Hreg Hstd) as [Hncc Hntok].
      rewrite Hcard0, Htoken0 by (by intros [? _]). by exists raw, m.
    + destruct (Hcard1 (conj eq_refl (conj Htypes Hcc))) as (m & ->).
      rewrite Hstd0, Htoken0; [by exists raw, m | by intros [? _] |].
      intros [_ Hstd]. by destruct (Hreg Hstd).
    + rewrite Htoken1 by done.
      rewrite Hstd0, Hcard0; [by exists raw, PLAINTEXT | by intros [? _] |].
      intros [_ Hstd]. by destruct (Hreg Hstd).
  - intros Hn. rewrite Hstd0, Hcard0, Htoken0; [done|..].
    + intros (-> & Ht & Htok). apply Hn. split; [done|]. split; [done|]. right. by right.
    + intros (-> & Ht & Hcc). apply Hn. split; [done|]. split; [done|]. right. by left.
    + intros (Ht & Hstd). apply Hn. split; [done|]. split; [done|]. by left.
Qed.

(** The bucket of a forbidden type among the occurrences of a column: as
    many entries as cells hold the type, the first of them for the first
    such cell. *)
Lemma forbidden_column_bucket `{Fl : PyFloat} (types : gset PIIType) (t : PIIType)
    (cells : list (option string)) :
  t ∈ types →
  ∀ idx hits,
    column_hits (forbidden_cell_hits types) idx cells = Some hits →
    length (bucket t hits) = length (filter (cell_has_type t) cells)
    ∧ ∀ first rest, bucket t hits = first :: rest →
        ∃ i raw, first.1.1 = idx + i
                 ∧ cells !! i = Some (Some raw)
                 ∧ first.1.2 = strip raw
                 ∧ cell_has_type t (Some raw)
                 ∧ ∀ j cell, j < i → cells !! j = Some cell → ¬ cell_has_type t cell.
Proof.
  intros Htypes. induction cells as [|cell cells IH]; intros idx hits Hrun.
  { injection Hrun as <-. split; [done|]. by intros first rest. }
  cbn [column_hits] in Hrun.
  destruct (forbidden_cell_hits types idx cell) as [here|] eqn:Ehere; [|done].
  cbn [mbind option_bind] in Hrun.
  destruct (column_hits _ (S idx) cells) as [later|] eqn:Elater; [|done].
  cbn [mbind option_bind] in Hrun. injection Hrun as <-.
  destruct (IH (S idx) later Elater) as [IHlen IHfirst].
  destruct (forbidden_cell_bucket types t idx cell here Ehere) as [Hone Hzero].
  rewrite bucket_app, filter_cons.
  destruct (decide (cell_has_type t cell)) as [Hcell|Hcell].
  - destruct (Hone (conj Htypes Hcell)) as (raw & m & -> & ->). split.
    + cbn [length app]. by rewrite IHlen.
    + intros first rest [= <- _]. exists 0, raw. cbn [fst snd].
      split; [lia|]. split; [done|]. split; [done|]. split; [done|]. intros j c Hj. lia.
  - rewrite Hzero by (by intros [_ ?]). split; [done|].
    intros first rest Hb. cbn [app] in Hb.
    destruct (IHfirst first rest Hb) as (i & raw & Hidx & Hget & Hval & Hhas & Hleast).
    exists (S i), raw. split; [lia|]. split; [done|]. split; [done|]. split; [done|].
    intros [|j] c Hj Hc; [by injection Hc as <-|]. apply (Hleast j c); [lia | done].
Qed.




(** ** The entropy of short strings, in exact arithmetic *)










(** ** The suite runner *)










Lemma load_datasets_lookup (load : DatasetPolicy → option DataFrame)
    (policies : list DatasetPolicy) (frames0 frames : gmap string DataFrame)
    (name : string) :
  load_datasets load policies frames0 = Some frames →
  frames !! name =
  match last (filter (λ ds, p_name ds = name) policies) with
  | Some ds_policy => load ds_policy
  | None => frames0 !! name
  end.
Proof.
  revert frames0. induction policies as [|p policies IH]; intros frames0 Hload.
  { by injection Hload as <-. }
  cbn [load_datasets] in Hload. destruct (load p) as [df|] eqn:Edf; [|done].
  cbn [mbind option_bind] in Hload. rewrite (IH _ Hload), filter_cons.
  destruct (decide (p_name p = name)) as [<-|Hne].
  - destruct (filter _ policies) as [|q l] eqn:Ef.
    + cbn [last]. by rewrite lookup_insert_eq.
    + change (last (p :: q :: l)) with (last (q :: l)).
      destruct (last (q :: l)) eqn:El; [done|]. by apply last_None in El.
  - by rewrite lookup_insert_ne.
Qed.

Lemma load_datasets_all (load : DatasetPolicy → option DataFrame)
    (policies : list DatasetPolicy) (frames0 frames : gmap string DataFrame) :
  load_datasets load policies frames0 = Some frames →
  ∀ ds_policy, ds_policy ∈ policies → is_Some (load ds_policy).
Proof.
  revert frames0. induction policies as [|p policies IH]; intros frames0 Hload q Hq.
  { by apply elem_of_nil in Hq. }
  cbn [load_datasets] in Hload. destruct (load p) as [df|] eqn:Edf; [|done].
  cbn [mbind option_bind] in Hload.
  apply elem_of_cons in Hq as [->|Hq]; [by rewrite Edf | by apply (IH _ Hload)].
Qed.

Lemma validate_lineage_references_nil (config : SuiteConfig) :
  validate_lineage_references config = [] →
  ∀ edge, edge ∈ lineage config →
    e_source edge ∈ p_name <$> datasets config
    ∧ e_target edge ∈ p_name <$> datasets config.
Proof.
  unfold validate_lineage_references. cbv zeta.
  set (names := list_to_set (p_name <$> datasets config) : gset string).
  set (step := λ (errors : list string) (edge : LineageEdge), _).
  assert (Hgrow : ∀ edges errors, foldl step errors edges = [] → errors = []).
  { induction edges as [|edge edges IH]; intros errors Hnil; [done|].
    cbn [foldl] in Hnil. apply IH in Hnil. unfold step in Hnil.
    destruct (decide (e_target edge ∉ names)); [by apply app_eq_nil in Hnil as [_ ?]|].
    destruct (decide (e_source edge ∉ names)); [by apply app_eq_nil in Hnil as [_ ?] | done]. }
  enough (Hall : ∀ edges errors, foldl step errors edges = [] →
            ∀ edge, edge ∈ edges →
              e_source edge ∈ p_name <$> datasets config
              ∧ e_target edge ∈ p_name <$> datasets config) by (apply Hall).
  induction edges as [|edge edges IH]; intros errors Hnil e He.
  { by apply elem_of_nil in He. }
  cbn [foldl] in Hnil. apply elem_of_cons in He as [->|He]; [|by apply (IH _ Hnil)].
  apply Hgrow in Hnil. unfold step in Hnil.
  destruct (decide (e_target edge ∉ names)) as [|Ht];
    [by apply app_eq_nil in Hnil as [_ ?]|].
  destruct (decide (e_source edge ∉ names)) as [|Hs];
    [by apply app_eq_nil in Hnil as [_ ?]|].
  apply dec_stable in Hs, Ht. unfold names in Hs, Ht.
  by rewrite !elem_of_list_to_set in Hs, Ht.
Qed.

Lemma filter_name_nonempty (name : string) (policies : list DatasetPolicy) :
  name ∈ p_name <$> policies →
  ∃ first last_one,
    head (filter (λ ds, p_name ds = name) policies) = Some first
    ∧ last (filter (λ ds, p_name ds = name) policies) = Some last_one
    ∧ last_one ∈ policies.
Proof.
  intros (p & -> & Hin)%list_elem_of_fmap.
  assert (p ∈ filter (λ ds, p_name ds = p_name p) policies) as Hp
    by by apply list_elem_of_filter.
  destruct (filter _ policies) as [|q l] eqn:Ef; [by apply elem_of_nil in Hp|].
  destruct (last (q :: l)) as [z|] eqn:El.
  - exists q, z. split; [done|]. split; [done|].
    assert (z ∈ q :: l) as Hz.
    { apply last_Some in El as [l' ->]. apply elem_of_app. right. left. }
    rewrite <- Ef in Hz. by apply list_elem_of_filter in Hz as [_ ?].
  - by apply last_None in El.
Qed.

(** X21.  The dict of loaded frames holds, for each name, the frame of the
    last dataset declared under it, while the lineage loop takes the first
    policy declared under a name; with distinct names every policy is
    checked on its own frame; and once [validate_lineage_references] has
    found no error, the look-ups of the lineage loop never raise. *)
Theorem run_suite_lookups (suite_config : SuiteConfig)
    (load : DatasetPolicy → option DataFrame) (frames : gmap string DataFrame) :
  load_datasets load (datasets suite_config) ∅ = Some frames →
  (∀ name,
     frames !! name
     = last (filter (λ ds, p_name ds = name) (datasets suite_config)) ≫= load)
  ∧ (NoDup (p_name <$> datasets suite_config) →
     ∀ ds_policy, ds_policy ∈ datasets suite_config →
       frames !! p_name ds_policy = load ds_policy
       ∧ find_policy (p_name ds_policy) (datasets suite_config) = Some ds_policy)
  ∧ (validate_lineage_references suite_config = [] →
     ∀ edge, edge ∈ lineage suite_config →
       is_Some (find_policy (e_source edge) (datasets suite_config))
       ∧ is_Some (find_policy (e_target edge) (datasets suite_config))
       ∧ is_Some (frames !! e_source edge)
       ∧ is_Some (frames !! e_target edge)).
Proof.
  intros Hload.
  assert (Hlookup : ∀ name,
    frames !! name
    = last (filter (λ ds, p_name ds = name) (datasets suite_config)) ≫= load).
  { intros name. rewrite (load_datasets_lookup _ _ _ _ name Hload).
    by destruct (last _). }
  assert (Hdeclared : ∀ name, name ∈ p_name <$> datasets suite_config →
            is_Some (find_policy name (datasets suite_config))
            ∧ is_Some (frames !! name)).
  { intros name Hname.
    destruct (filter_name_nonempty name _ Hname) as (first & z & Hhead & Hlast & Hz).
    unfold find_policy. rewrite Hhead, Hlookup, Hlast. split; [done|].
    apply (load_datasets_all _ _ _ _ Hload z Hz). }
  split; [exact Hlookup|]. split.
  - intros Hnd p Hp.
    assert (filter (λ ds, p_name ds = p_name p) (datasets suite_config) = [p]) as Hone.
    { clear -Hnd Hp. induction (datasets suite_config) as [|q l IH];
        [by apply elem_of_nil in Hp|].
      rewrite fmap_cons in Hnd. apply NoDup_cons in Hnd as [Hq Hnd].
      rewrite filter_cons. apply elem_of_cons in Hp as [->|Hp].
      - rewrite decide_True by done. f_equal. apply filter_nil_iff.
        intros x Hx Hname. apply Hq. rewrite <- Hname.
        apply list_elem_of_fmap. by exists x.
      - rewrite decide_False; [by apply IH|]. intros Hname. apply Hq. rewrite Hname.
        apply list_elem_of_fmap. by exists p. }
    unfold find_policy. by rewrite Hlookup, Hone.
  - intros Hvalid edge Hedge.
    destruct (validate_lineage_references_nil suite_config Hvalid edge Hedge) as [Hs Ht].
    destruct (Hdeclared _ Hs) as [? ?], (Hdeclared _ Ht) as [? ?]. done.
Qed.

Lemma run_suite_lookups_witness :
  (<["customers" := two_ssns]> ∅ : gmap string DataFrame) !! "customers" = Some two_ssns.
Proof.
  destruct (run_suite_lookups one_dataset_config (λ _, Some two_ssns)
              (<["customers" := two_ssns]> ∅)) as [Hlookup _].
  - reflexivity.
  - by rewrite Hlookup.
Defined.

(** ** What the leakage assertion compares *)

Lemma found_types_fold (found : gset PIIType) (detected : list (PIIType * MaskingType))
    (t : PIIType) :
  t ∈ foldl (λ found '(t, _), found ∪ {[ t ]}) found detected
  ↔ t ∈ found ∨ t ∈ detected.*1.
Proof.
  revert found. induction detected as [|[t0 m0] detected IH]; intros found.
  { cbn. split; [by left | by intros [?|?%elem_of_nil]]. }
  cbn [foldl]. rewrite IH, fmap_cons, elem_of_cons, elem_of_union, elem_of_singleton.
  cbn [fst]. tauto.
Qed.

Lemma detect_types_in_cell_spec `{Fl : PyFloat} (cell : option string)
    (found found' : gset PIIType) :
  detect_types_in_cell cell found = Some found' →
  ∀ t, t ∈ found' ↔ t ∈ found ∨ cell_has_type t cell.
Proof.
  unfold detect_types_in_cell, cell_has_type, value_has_type.
  destruct cell as [raw|]; [|intros [= <-] t; tauto].
  destruct (is_empty (strip raw)); [intros [= <-] t; split; [by left | by intros [?|[? _]]]|].
  cbv zeta. destruct (is_credit_card (strip raw)) as [is_cc|]; [|done].
  cbn [mbind option_bind]. intros [= <-] t.
  destruct (is_high_entropy_token (strip raw)), is_cc;
    rewrite ?elem_of_union, ?elem_of_singleton, found_types_fold;
    intuition congruence.
Qed.

Lemma detect_types_in_cells_spec `{Fl : PyFloat} (cells : list (option string))
    (found found' : gset PIIType) :
  detect_types_in_cells cells found = Some found' →
  ∀ t, t ∈ found' ↔ t ∈ found ∨ ∃ cell, cell ∈ cells ∧ cell_has_type t cell.
Proof.
  revert found. induction cells as [|cell cells IH]; intros found Hrun t.
  { injection Hrun as <-. split; [by left|]. by intros [?|(? & ?%elem_of_nil & _)]. }
  cbn [detect_types_in_cells] in Hrun.
  destruct (detect_types_in_cell cell found) as [found1|] eqn:Ecell; [|done].
  cbn [mbind option_bind] in Hrun.
  rewrite (IH _ Hrun t), (detect_types_in_cell_spec _ _ _ Ecell t). split.
  - intros [[?|Hc]|(c & Hc & Ht)]; [by left | right | right].
    + exists cell. split; [left | done].
    + exists c. split; [by right | done].
  - intros [?|(c & [->|Hc]%elem_of_cons & Ht)]; [by left; left | by left; right |].
    right. by exists c.
Qed.

Lemma detect_types_in_columns_spec `{Fl : PyFloat} (df : DataFrame)
    (found found' : gset PIIType) :
  detect_types_in_columns df found = Some found' →
  ∀ t, t ∈ found' ↔ t ∈ found ∨ frame_has_type t df.
Proof.
  unfold frame_has_type.
  revert found. induction df as [|[col cells] df IH]; intros found Hrun t.
  { injection Hrun as <-. split; [by left|].
    by intros [?|(? & ? & ? & ?%elem_of_nil & _)]. }
  cbn [detect_types_in_columns] in Hrun.
  destruct (detect_types_in_cells cells found) as [found1|] eqn:Ecells; [|done].
  cbn [mbind option_bind] in Hrun.
  rewrite (IH _ Hrun t), (detect_types_in_cells_spec _ _ _ Ecells t). split.
  - intros [[?|(cell & Hc & Ht)]|(col' & cells' & cell & Hin & Hc & Ht)];
      [by left | right | right].
    + exists col, cells, cell. split; [left | done].
    + exists col', cells', cell. split; [by right | done].
  - intros [?|(col' & cells' & cell & [[= -> ->]|Hin]%elem_of_cons & Hc & Ht)].
    + by left; left.
    + left. right. by exists cell.
    + right. by exists col', cells', cell.
Qed.

(** A scan for the types of [types] finds nothing exactly when no cell
    holds one of them, or nothing may be recorded. *)
Lemma scan_nothing_iff `{Fl : PyFloat} (types : gset PIIType) (mv : Z)
    (mk : string → PIIType → list Violation → Violation → option Finding)
    (df : DataFrame) (fs : list Finding) :
  scan_columns (forbidden_scan_cell types mv) mk df = Some fs →
  fs = [] ↔ (mv ≤ 0)%Z ∨ ∀ t, t ∈ types → ¬ frame_has_type t df.
Proof.
  intros Escan.
  destruct (scan_findings_spec mv _ _ _ df fs
              (forbidden_scan_cell_hits types mv) Escan) as [Hcomplete Hsound].
  split.
  - intros ->. destruct (decide (mv ≤ 0)%Z) as [?|Hpos]; [by left|]. right.
    intros t Htypes (col & cells & cell & Hc & Hcell & Hhas).
    destruct (Hcomplete col cells Hc) as (hits & Hhits & Hall).
    destruct (forbidden_column_bucket types t cells Htypes 0 hits Hhits) as [Hlen _].
    destruct (take_nonempty (Z.to_nat mv) (bucket t hits)) as (first & rest & Htake).
    + lia.
    + intros Hnil. rewrite Hnil in Hlen. cbn in Hlen. symmetry in Hlen.
      apply length_zero_iff_nil in Hlen.
      apply (proj1 (filter_nil_iff _ _) Hlen cell Hcell Hhas).
    + destruct (Hall t first rest Htake) as (f & _ & Hf). by apply elem_of_nil in Hf.
  - intros Hwhy. destruct fs as [|f fs]; [done|]. exfalso.
    destruct (Hsound f) as (col & cells & hits & t & first & rest & Hc & Hhits & Htake & _);
      [left|].
    destruct (take_cons_head _ _ _ _ Htake) as (Hhead & Hfirst & Hpos).
    destruct Hwhy as [?|Hnone]; [lia|].
    assert (t ∈ types) as Htypes.
    { apply elem_of_bucket in Hfirst.
      apply (column_hits_elem_of _ (λ h, h.1 ∈ types) (forbidden_cell_hits_types types)
               _ _ _ Hhits (t, first) Hfirst). }
    destruct (forbidden_column_bucket types t cells Htypes 0 hits Hhits) as [_ Hrow].
    destruct (bucket t hits) as [|first' rest'] eqn:Eb; [done|].
    destruct (Hrow first' rest' eq_refl) as (i & raw & _ & Hget & _ & Hhas & _).
    apply (Hnone t Htypes). exists col, cells, (Some raw). split; [done|].
    split; [by apply list_elem_of_lookup_2 in Hget | done].
Qed.

(** X22.  The leakage assertion compares types, not values:
    [_detect_pii_types_in_dataframe] returns the types some cell of the
    source holds, and the assertion passes exactly when no type forbidden in
    the target is held both by a cell of the source and by a cell of the
    target, or [max_violations] is not positive. *)
Theorem leakage_compares_types `{Fl : PyFloat} (source_df target_df : DataFrame)
    (source_policy target_policy : DatasetPolicy) (edge : LineageEdge) (mv : Z)
    (r : AssertionResult) :
  assert_no_pii_leakage source_df target_df source_policy target_policy edge mv = Some r →
  (∀ found, _detect_pii_types_in_dataframe source_df = Some found →
            ∀ t, t ∈ found ↔ frame_has_type t source_df)
  ∧ (passed r = true ↔
     (mv ≤ 0)%Z
     ∨ ∀ t, t ∈ forbidden_pii_types target_policy →
            frame_has_type t source_df → ¬ frame_has_type t target_df).
Proof.
  intros Hrun.
  assert (Hfound : ∀ found, _detect_pii_types_in_dataframe source_df = Some found →
                            ∀ t, t ∈ found ↔ frame_has_type t source_df).
  { intros found Hdet t. unfold _detect_pii_types_in_dataframe in Hdet.
    rewrite (detect_types_in_columns_spec _ _ _ Hdet t).
    split; [by intros [?%elem_of_empty|?] | by right]. }
  split; [exact Hfound|].
  unfold assert_no_pii_leakage in Hrun.
  set (forbidden := list_to_set (forbidden_pii_types target_policy) : gset PIIType) in *.
  destruct (decide (forbidden = ∅)) as [Hempty|Hne].
  { injection Hrun as <-. cbn [passed]. split; [|done]. intros _. right.
    intros t Ht. exfalso. apply (not_elem_of_empty (C := gset PIIType) t).
    rewrite <- Hempty. by apply elem_of_list_to_set. }
  destruct (_detect_pii_types_in_dataframe source_df) as [found|] eqn:Edet; [|done].
  cbn [mbind option_bind] in Hrun.
  assert (Hrisky : ∀ t, t ∈ forbidden ∩ found
                        ↔ t ∈ forbidden_pii_types target_policy ∧ frame_has_type t source_df).
  { intros t. rewrite elem_of_intersection, (Hfound found eq_refl t).
    unfold forbidden. by rewrite elem_of_list_to_set. }
  destruct (decide (forbidden ∩ found = ∅)) as [Hsafe|Hrisk].
  { injection Hrun as <-. cbn [passed]. split; [|done]. intros _. right.
    intros t Ht Hsrc. exfalso. apply (not_elem_of_empty (C := gset PIIType) t).
    rewrite <- Hsafe. by apply Hrisky. }
  destruct (scan_columns _ _ target_df) as [fs|] eqn:Escan; [|done].
  cbn [mbind option_bind] in Hrun. injection Hrun as <-. cbn [passed].
  rewrite bool_decide_eq_true, length_zero_iff_nil, (scan_nothing_iff _ _ _ _ _ Escan).
  split; (intros [?|Hnone]; [by left | right]).
  - intros t Ht Hsrc. apply Hnone. by apply Hrisky.
  - intros t [Ht Hsrc]%Hrisky. by apply Hnone.
Qed.

Lemma leakage_compares_types_witness :
  ∃ r, assert_no_pii_leakage (Fl := RFloat) source_frame target_frame
         source_policy0 mart_policy (mkLineageEdge "raw" "mart") 10 = Some r
       ∧ passed r = false
       ∧ ¬ ∀ t, t ∈ forbidden_pii_types mart_policy →
                frame_has_type (Fl := RFloat) t source_frame →
                ¬ frame_has_type (Fl := RFloat) t target_frame.
Proof.
  destruct (assert_no_pii_leakage (Fl := RFloat) source_frame target_frame
              source_policy0 mart_policy (mkLineageEdge "raw" "mart") 10)
    as [r|] eqn:Hrun; [|by vm_compute in Hrun].
  exists r. split; [done|].
  destruct (leakage_compares_types (Fl := RFloat) source_frame target_frame
              source_policy0 mart_policy (mkLineageEdge "raw" "mart") 10 r Hrun)
    as [_ Hpassed].
  assert (passed r = false) as Hfail by (vm_compute in Hrun; by injection Hrun as <-).
  split; [done|]. intros Hnone.
  rewrite <- not_true_iff_false in Hfail. apply Hfail, Hpassed. by right.
Defined.

(** ** Column-name heuristics *)

Lemma prefixb_spec (p s : string) :
  prefixb p s = true ↔ ∃ b, s = (p ++ b)%string.
Proof.
  revert s. induction p as [|a p IH]; intros s.
  { split; [intros _; by exists s | done]. }
  destruct s as [|c s]; cbn [prefixb].
  { split; [done | by intros [b ?]]. }
  rewrite andb_true_iff, chr_eqb_eq, IH. split.
  - intros [-> [b ->]]. by exists b.
  - intros [b Hb]. rewrite str_app_cons in Hb. injection Hb as -> ->. split; [done|].
    by exists b.
Qed.

Lemma occursb_spec (p s : string) : occursb p s = true ↔ occurs p s.
Proof.
  unfold occurs. induction s as [|c s IH]; cbn [occursb].
  - rewrite orb_false_r, prefixb_spec. split.
    + intros [b Hb]. by exists "", b.
    + intros (a & b & Hs). destruct a as [|x a]; [by exists b|].
      by rewrite str_app_cons in Hs.
  - rewrite orb_true_iff, prefixb_spec, IH. split.
    + intros [[b Hb]|(a & b & ->)]; [by exists "", b|]. by exists (String c a), b.
    + intros (a & b & Hs). destruct a as [|x a].
      * left. by exists b.
      * right. rewrite str_app_cons in Hs. injection Hs as -> ->. by exists a, b.
Qed.

Lemma accept_literal (p s : string) (k : string → bool) :
  accept (literal p) s k = true ↔ ∃ b, s = (p ++ b)%string ∧ k b = true.
Proof.
  unfold literal. revert s. induction p as [|a p IH]; intros s.
  { cbn. split; [intros ?; by exists s | by intros (b & -> & ?)]. }
  assert (Hcons : accept (seq (lit <$> list_ascii_of_string (String a p))) s k
                  = match s with
                    | String c s' => chr_eqb a c
                                     && accept (seq (lit <$> list_ascii_of_string p)) s' k
                    | EmptyString => false
                    end).
  { cbn [list_ascii_of_string fmap list_fmap]. destruct p as [|a' p]; [|done].
    cbn. by destruct s. }
  rewrite Hcons. destruct s as [|c s].
  { split; [done | by intros (b & ? & _)]. }
  rewrite andb_true_iff, chr_eqb_eq, IH. split.
  - intros [-> (b & -> & Hk)]. by exists b.
  - intros (b & Hs & Hk). rewrite str_app_cons in Hs. injection Hs as -> ->.
    split; [done|]. by exists b.
Qed.

Lemma re_search_literal (p s : string) :
  re_search (literal p) s = occursb p s.
Proof.
  induction s as [|c s IH]; cbn [re_search occursb]; rewrite ?IH; f_equal;
    unfold re_match; apply eq_true_iff_eq;
    rewrite accept_literal, prefixb_spec; split;
    (intros (b & ? & _) || intros (b & ?)); by exists b.
Qed.

Lemma occurs_trans (q p s : string) : occurs q p → occurs p s → occurs q s.
Proof.
  intros (a & b & ->) (a' & b' & ->). exists (a' ++ a)%string, (b ++ b')%string.
  by rewrite !str_app_assoc.
Qed.

Lemma matches_any_spec (patterns : list string) (s : string) :
  matches_any patterns s = true ↔ ∃ p, p ∈ patterns ∧ occurs p s.
Proof.
  unfold matches_any. rewrite existsb_exists. split.
  - intros (p & Hp%list_elem_of_In & Hs). exists p. split; [done|].
    by rewrite re_search_literal, occursb_spec in Hs.
  - intros (p & Hp%list_elem_of_In & Hs). exists p. split; [done|].
    by rewrite re_search_literal, occursb_spec.
Qed.

Lemma potential_types_fold (table : list (PIIType * list string)) (s : string)
    (types : gset PIIType) (t : PIIType) :
  t ∈ foldl (λ types '(pii_type, patterns),
               if matches_any patterns s then types ∪ {[ pii_type ]} else types)
            types table
  ↔ t ∈ types ∨ ∃ patterns, (t, patterns) ∈ table ∧ matches_any patterns s = true.
Proof.
  revert types. induction table as [|[t0 ps0] table IH]; intros types.
  { cbn. split; [by left | by intros [?|(? & ?%elem_of_nil & _)]]. }
  cbn [foldl]. rewrite IH. destruct (matches_any ps0 s) eqn:E.
  - rewrite elem_of_union, elem_of_singleton. split.
    + intros [[?| ->]|(ps & Hin & Hm)]; [by left | right | right].
      * exists ps0. split; [left | done].
      * exists ps. split; [by right | done].
    + intros [?|(ps & [[= -> ->]|Hin]%elem_of_cons & Hm)];
        [by left; left | by left; right | right; by exists ps].
  - split.
    + intros [?|(ps & Hin & Hm)]; [by left | right]. exists ps. split; [by right | done].
    + intros [?|(ps & [[= -> ->]|Hin]%elem_of_cons & Hm)];
        [by left | congruence | right; by exists ps].
Qed.

(** Every listed pattern holds a minimal pattern of its type, and the
    minimal patterns are listed. *)
Lemma patterns_reduce (t : PIIType) (patterns : list string) (p : string) :
  (t, patterns) ∈ PII_COLUMN_PATTERNS → p ∈ patterns →
  ∃ q, q ∈ minimal_patterns t ∧ occurs q p.
Proof.
  intros Hin Hp.
  assert (Hcheck :
    forallb (λ entry, forallb (λ p, existsb (λ q, occursb q p) (minimal_patterns entry.1))
                              entry.2)
            PII_COLUMN_PATTERNS = true) by by vm_compute.
  rewrite forallb_forall in Hcheck. apply list_elem_of_In in Hin.
  specialize (Hcheck _ Hin). cbn [fst snd] in Hcheck.
  rewrite forallb_forall in Hcheck. apply list_elem_of_In in Hp.
  specialize (Hcheck _ Hp). apply existsb_exists in Hcheck as (q & Hq & Hocc).
  exists q. split; [by apply list_elem_of_In | by apply occursb_spec].
Qed.

Lemma minimal_patterns_listed (t : PIIType) (q : string) :
  q ∈ minimal_patterns t →
  ∃ patterns, (t, patterns) ∈ PII_COLUMN_PATTERNS ∧ q ∈ patterns.
Proof.
  intros Hq.
  assert (Hcheck :
    forallb (λ q, existsb (λ entry, bool_decide (entry.1 = t)
                                   && bool_decide (q ∈ entry.2))
                          PII_COLUMN_PATTERNS)
            (minimal_patterns t) = true) by (destruct t; by vm_compute).
  rewrite forallb_forall in Hcheck. apply list_elem_of_In in Hq.
  specialize (Hcheck _ Hq). apply existsb_exists in Hcheck as ([t' ps] & Hin & Hb).
  cbn [fst snd] in Hb. apply andb_true_iff in Hb as [Ht Hps].
  apply bool_decide_eq_true in Ht as ->. apply bool_decide_eq_true in Hps.
  exists ps. split; [by apply list_elem_of_In | done].
Qed.

Lemma results_get_set_eq (col : string) (types : gset PIIType)
    (results : list (string * gset PIIType)) :
  results_get col (results_set col types results) = Some types.
Proof.
  induction results as [|[k old] results IH]; cbn [results_set results_get].
  - by rewrite decide_True.
  - destruct (decide (k = col)) as [->|Hne]; cbn [results_get].
    + by rewrite decide_True.
    + by rewrite decide_False.
Qed.

Lemma results_get_set_ne (col col' : string) (types : gset PIIType)
    (results : list (string * gset PIIType)) :
  col ≠ col' →
  results_get col' (results_set col types results) = results_get col' results.
Proof.
  intros Hne. induction results as [|[k old] results IH]; cbn [results_set results_get].
  - by rewrite decide_False.
  - destruct (decide (k = col)) as [->|Hk]; cbn [results_get].
    + by rewrite !decide_False.
    + destruct (decide (k = col')); [done | exact IH].
Qed.

(** X23.  The column-name heuristics flag a type for a column exactly when
    its name, in lower case and stripped, holds one of the minimal patterns
    of the type as a substring: [mail] for e-mail, [name] for a full name,
    [zip], [cell], [dob] and so on, wherever in the name they stand;
    [is_likely_pii_column] holds exactly when [identify_pii_columns] has
    some type for the column, and the dict of [identify_pii_columns] maps
    each flagged column of the list to its types. *)
Theorem column_name_heuristics (column_names : list string) (col : string) :
  (∀ t, t ∈ potential_types col ↔
        ∃ p, p ∈ minimal_patterns t ∧ occurs p (strip (str_lower col)))
  ∧ (is_likely_pii_column col = true ↔ potential_types col ≠ ∅)
  ∧ results_get col (identify_pii_columns column_names)
    = if decide (col ∈ column_names ∧ potential_types col ≠ ∅)
      then Some (potential_types col) else None.
Proof.
  assert (Hraw : ∀ t, t ∈ potential_types col ↔
            ∃ patterns, (t, patterns) ∈ PII_COLUMN_PATTERNS
                        ∧ matches_any patterns (strip (str_lower col)) = true).
  { intros t. unfold potential_types. cbv zeta. rewrite potential_types_fold.
    split; [by intros [?%elem_of_empty|?] | by right]. }
  split; [|split].
  - intros t. rewrite Hraw. split.
    + intros (patterns & Hin & (p & Hp & Hocc)%matches_any_spec).
      destruct (patterns_reduce t patterns p Hin Hp) as (q & Hq & Hqp).
      exists q. split; [done|]. by apply (occurs_trans q p).
    + intros (q & Hq & Hocc).
      destruct (minimal_patterns_listed t q Hq) as (patterns & Hin & Hqp).
      exists patterns. split; [done|]. apply matches_any_spec. by exists q.
  - unfold is_likely_pii_column. cbv zeta. rewrite existsb_exists. split.
    + intros ([t ps] & Hin%list_elem_of_In & Hm) Hempty. cbn [snd] in Hm.
      apply (not_elem_of_empty (C := gset PIIType) t). rewrite <- Hempty.
      apply Hraw. by exists ps.
    + intros [t Ht]%set_choose_L. apply Hraw in Ht as (ps & Hin & Hm).
      exists (t, ps). split; [by apply list_elem_of_In | done].
  - unfold identify_pii_columns.
    enough (Hfold : ∀ results,
      results_get col
        (foldl (λ results col,
                  let potential_types := potential_types col in
                  if decide (potential_types ≠ ∅)
                  then results_set col potential_types results else results)
               results column_names)
      = if decide (col ∈ column_names ∧ potential_types col ≠ ∅)
        then Some (potential_types col) else results_get col results)
      by (rewrite Hfold; by destruct (decide _)).
    induction column_names as [|c names IH]; intros results.
    { cbn. rewrite decide_False; [done|]. by intros [?%elem_of_nil _]. }
    cbn [foldl]. rewrite IH. cbv zeta.
    destruct (decide (col ∈ names ∧ potential_types col ≠ ∅)) as [[Hin Hne]|Hno].
    + rewrite decide_True; [done|]. split; [by right | done].
    + destruct (decide (c = col)) as [->|Hc].
      * destruct (decide (potential_types col ≠ ∅)) as [Hne|He].
        -- rewrite results_get_set_eq. rewrite decide_True; [done|]. split; [left | done].
        -- rewrite decide_False; [done|]. by intros [_ ?].
      * rewrite (decide_False (P := col ∈ c :: names ∧ _)).
        2:{ intros [[?|?]%elem_of_cons ?]; [congruence | by apply Hno]. }
        destruct (decide (potential_types c ≠ ∅)); [|done].
        by rewrite results_get_set_ne.
Qed.

(** ** Access keys and the entropy test *)




(** ** The masking a detected value can have *)

Lemma str_all_app (q : ascii → bool) (a b : string) :
  str_all q (a ++ b)%string = str_all q a && str_all q b.
Proof.
  induction a as [|c a IH]; [done|]. rewrite str_app_cons. cbn [str_all].
  by rewrite IH, andb_assoc.
Qed.

Lemma rep_loop_only (q : ascii → bool) (step : string → (string → bool) → bool)
    (k : string → bool) (fuel lo : nat) (hi : option nat) (s : string) :
  (∀ s k, step s k = true →
          ∃ h rest, s = (h ++ rest)%string ∧ k rest = true ∧ str_all q h = true) →
  rep_loop step k fuel lo hi s = true →
  ∃ h rest, s = (h ++ rest)%string ∧ k rest = true ∧ str_all q h = true.
Proof.
  intros Hstep. revert lo hi s. induction fuel as [|fuel IH]; intros lo hi s; [done|].
  cbn [rep_loop]. intros [H0|[Hopen Hrun]%andb_prop]%orb_prop.
  - destruct lo; [|done]. by exists "", s.
  - apply Hstep in Hrun as (h1 & r1 & -> & Hloop & Hq1).
    apply IH in Hloop as (h2 & rest & -> & Hk & Hq2).
    exists (h1 ++ h2)%string, rest. rewrite str_app_assoc, str_all_app, Hq1, Hq2. done.
Qed.

(** What a pattern consumes is made of the characters of its classes. *)
Lemma accept_only (q : ascii → bool) (r : regex) (s : string) (k : string → bool) :
  only_chars q r = true → accept r s k = true →
  ∃ h rest, s = (h ++ rest)%string ∧ k rest = true ∧ str_all q h = true
            ∧ (ends_at_dollar r = true → at_dollar rest = true).
Proof.
  revert s k. induction r as [|p|r1 IH1 r2 IH2|r1 IH1 r2 IH2|r' IH lo hi|];
    intros s k; cbn [accept only_chars ends_at_dollar].
  - intros _ Hk. by exists "", s.
  - intros Hsub. destruct s as [|c s]; [done|]. intros [Hp Hk]%andb_prop.
    exists (String c ""), s. split; [done|]. split; [done|]. split; [|done]. cbn.
    by rewrite (class_subset_spec p q c Hsub Hp).
  - intros [H1 H2]%andb_prop H.
    apply (IH1 _ _ H1) in H as (h1 & r1' & -> & H & Hq1 & _).
    apply (IH2 _ _ H2) in H as (h2 & rest & -> & Hk & Hq2 & Hd).
    exists (h1 ++ h2)%string, rest. rewrite str_app_assoc, str_all_app, Hq1, Hq2. done.
  - intros [H1 H2]%andb_prop [H|H]%orb_prop.
    + apply (IH1 _ _ H1) in H as (h & rest & -> & Hk & Hq & Hd).
      exists h, rest. split; [done|]. split; [done|]. split; [done|].
      by intros [? _]%andb_prop; apply Hd.
    + apply (IH2 _ _ H2) in H as (h & rest & -> & Hk & Hq & Hd).
      exists h, rest. split; [done|]. split; [done|]. split; [done|].
      by intros [_ ?]%andb_prop; apply Hd.
  - intros Hr H.
    destruct (rep_loop_only q (accept r') k (S (lo + String.length s)) lo hi s)
      as (h & rest & -> & Hk & Hq);
      [|exact H|by exists h, rest].
    intros s' k' Hs'. destruct (IH s' k' Hr Hs') as (h & rest & -> & Hk & Hq & _).
    by exists h, rest.
  - intros _ [Hd Hk]%andb_prop. by exists "", s.
Qed.

Lemma contains_chr_all (q : ascii → bool) (c : ascii) (s : string) :
  q c = false → str_all q s = true → contains_chr c s = false.
Proof.
  intros Hc. unfold contains_chr. induction s as [|d s IH]; [done|]. cbn.
  intros [Hd Hs]%andb_prop. rewrite (IH Hs), orb_false_r.
  apply not_true_is_false. intros ->%chr_eqb_eq. congruence.
Qed.

(** A value that matches a pattern anchored at its end holds no character
    outside the classes of the pattern, but for the closing newline. *)
Lemma re_match_no_chr (q : ascii → bool) (r : regex) (c : ascii) (s : string) :
  only_chars q r = true → ends_at_dollar r = true →
  q c = false → c ≠ newline →
  re_match r s = true → contains_chr c s = false.
Proof.
  intros Honly Hend Hc Hnl Hm.
  destruct (accept_only q r s _ Honly Hm) as (h & rest & -> & _ & Hq & Hd).
  specialize (Hd Hend). unfold contains_chr. rewrite str_any_app.
  fold (contains_chr c h). rewrite (contains_chr_all q c h Hc Hq).
  destruct rest as [|d [|e rest]]; [done| |done]. cbn in *.
  rewrite orb_false_r. apply not_true_is_false. intros Heq%chr_eqb_eq.
  apply chr_eqb_eq in Hd. congruence.
Qed.

Lemma ip_address_has_no_mask (value : string) :
  IPAddressMatcher.matches value = true → contains_chr "*" (strip value) = false.
Proof.
  unfold IPAddressMatcher.matches.
  apply (re_match_no_chr ip_chr); by vm_compute.
Qed.

Lemma dob_has_no_mask (value : string) :
  DOBMatcher.matches value = true →
  contains_chr "*" (strip value) = false ∧ contains_chr "X" (strip value) = false.
Proof.
  unfold DOBMatcher.matches. cbv zeta.
  intros (p & Hp & [Hm _]%andb_prop)%existsb_exists.
  assert (only_chars date_chr p = true ∧ ends_at_dollar p = true) as [Honly Hend].
  { assert (Hcheck : forallb (λ p, only_chars date_chr p && ends_at_dollar p)
                             DOBMatcher.patterns = true) by by vm_compute.
    rewrite forallb_forall in Hcheck. by apply andb_prop, Hcheck. }
  split; by apply (re_match_no_chr date_chr p).
Qed.

Lemma credit_card_has_no_mask (value : string) :
  is_credit_card value = Some true →
  contains_chr "*" value = false ∧ contains_x_any_case value = false.
Proof.
  unfold is_credit_card. cbv zeta.
  destruct (isdigit (remove_separators value)) eqn:Hd; [|done].
  intros _. unfold isdigit in Hd. apply andb_prop in Hd as [_ Hd].
  assert (str_all (λ c, is_space c || chr_eqb "-" c || is_digit c) value = true) as Hall.
  { unfold remove_separators in Hd. clear -Hd.
    induction value as [|c value IH]; [done|]. cbn [str_filter str_all] in *.
    destruct (is_space c || chr_eqb "-" c) eqn:Esep; cbn [negb] in Hd.
    - cbn. by apply IH.
    - cbn [str_all] in Hd. apply andb_prop in Hd as [Hc Hv]. rewrite Hc, orb_true_r.
      by apply IH. }
  assert (Hno : ∀ c, is_space c || chr_eqb "-" c || is_digit c = false →
                     contains_chr c value = false).
  { intros c Hc.
    by apply (contains_chr_all (λ c, is_space c || chr_eqb "-" c || is_digit c)). }
  unfold contains_x_any_case. by rewrite !Hno by by vm_compute.
Qed.

(** X25.  A value the registry detects is classified plaintext, or
    partially masked when it is an e-mail address, phone number, SSN or
    account number; IP addresses, ZIP codes, dates of birth and valid
    credit cards are always plaintext, and no detected value is ever fully
    masked, hashed or tokenized. *)
Theorem detected_masking_types (value : string) :
  (∀ t m, (t, m) ∈ detect_pii_in_value value →
          m = PLAINTEXT
          ∨ (m = PARTIAL_MASK ∧ t ∈ [EMAIL; PHONE; SSN; ACCOUNT_NUMBER]))
  ∧ (is_credit_card value = Some true →
     detect_credit_card_masking value = Some PLAINTEXT).
Proof.
  split.
  - intros t m Hin. pose proof (registry_detection_not_hash value t m Hin) as Hnh.
    unfold detect_pii_in_value in Hin.
    destruct (is_empty (strip value)); [by apply elem_of_nil in Hin|].
    apply list_elem_of_omap in Hin as (x & Hx & Hf).
    destruct (matches x (strip value)) eqn:Hm; [|done].
    injection Hf as <- <-.
    unfold MATCHERS in Hx. rewrite !elem_of_cons, elem_of_nil in Hx.
    destruct Hx as [->|[->|[->|[->|[->|[->|[->|[]]]]]]]];
      cbn [pii_type detect_masking matches] in *.
    + unfold EmailMatcher.detect_masking in *.
      destruct (re_match hash_pattern _); [done|].
      destruct (contains_chr "*" _); [right; split; [done | left]|].
      left. by destruct (re_match EmailMatcher.pattern _).
    + unfold PhoneMatcher.detect_masking in *.
      destruct (re_match hash_pattern _); [done|].
      destruct (contains_chr "*" _); [right; split; [done | right; left]|].
      left. by destruct (existsb _ PhoneMatcher.patterns).
    + unfold SSNMatcher.detect_masking in *.
      destruct (re_match hash_pattern _); [done|].
      destruct (contains_chr "*" _ || contains_chr "X" _);
        [right; split; [done | right; right; left]|].
      left. by destruct (existsb _ SSNMatcher.patterns).
    + left. unfold IPAddressMatcher.detect_masking in *.
      destruct (re_match hash_pattern _); [done|].
      apply ip_address_has_no_mask in Hm. rewrite strip_idempotent in Hm.
      by rewrite Hm.
    + by left.
    + left. unfold DOBMatcher.detect_masking.
      apply dob_has_no_mask in Hm as [H1 H2]. rewrite strip_idempotent in H1, H2.
      by rewrite H1, H2.
    + unfold AccountNumberMatcher.detect_masking in *.
      destruct (re_match hash_pattern _); [done|].
      destruct (contains_chr "*" _); [right; split; [done | do 3 right; left] | by left].
  - intros Hcard. pose proof (credit_card_not_hash value Hcard) as Hnh.
    destruct (credit_card_has_no_mask value Hcard) as [Hstar Hx].
    unfold detect_credit_card_masking in *.
    destruct (re_match hash_pattern value); [done|].
    by rewrite Hstar, Hx, Hcard.
Qed.

(** ** Transposed digits *)

Lemma mod10_cancel (x y a b : nat) :
  x + a = y + b → y mod 10 = 0 → (x mod 10 = 0 ↔ a mod 10 = b mod 10).
Proof.
  intros Heq Hy. apply (f_equal (λ n, n mod 10)) in Heq.
  rewrite (Nat.Div0.add_mod x), (Nat.Div0.add_mod y), Hy, Nat.add_0_l,
    Nat.Div0.mod_mod in Heq.
  pose proof (Nat.mod_upper_bound x 10 ltac:(lia)) as Hx.
  pose proof (Nat.mod_upper_bound a 10 ltac:(lia)) as Ha.
  pose proof (Nat.mod_upper_bound b 10 ltac:(lia)) as Hb.
  revert Heq Hx Ha Hb. generalize (x mod 10), (a mod 10), (b mod 10).
  intros x' a' b' Heq Hx Ha Hb.
  destruct (Nat.lt_ge_cases (x' + a') 10) as [Hlt|Hge].
  - rewrite Nat.mod_small in Heq by done. lia.
  - replace (x' + a') with ((x' + a' - 10) + 1 * 10) in Heq by lia.
    rewrite Nat.Div0.mod_add, Nat.mod_small in Heq by lia. lia.
Qed.

(** The weights of two neighbouring digits agree after a swap only for
    equal digits and for 0 and 9. *)
Lemma luhn_weight_swap (dbl : bool) (a b : nat) :
  a < 10 → b < 10 →
  (luhn_weight (negb dbl) a + luhn_weight dbl b) mod 10
  = (luhn_weight dbl a + luhn_weight (negb dbl) b) mod 10
  ↔ a = b ∨ (a = 0 ∧ b = 9) ∨ (a = 9 ∧ b = 0).
Proof.
  intros Ha Hb. destruct dbl;
    do 10 (destruct a as [|a]; [
      do 10 (destruct b as [|b]; [vm_compute; lia|]); lia |]);
    lia.
Qed.

Lemma luhn_total_swap (ds : list nat) (i a b : nat) :
  ds !! i = Some a → ds !! S i = Some b → a < 10 → b < 10 →
  luhn_total ds mod 10 = 0 →
  luhn_total (<[i := b]> (<[S i := a]> ds)) mod 10 = 0
  ↔ a = b ∨ (a = 0 ∧ b = 9) ∨ (a = 9 ∧ b = 0).
Proof.
  intros Hi HSi Ha Hb H0.
  pose proof (lookup_lt_Some _ _ _ HSi) as Hlen.
  pose proof (luhn_total_insert ds (S i) b a HSi) as E1.
  assert (<[S i := a]> ds !! i = Some a) as Hi'
    by (rewrite list_lookup_insert_ne by lia; done).
  pose proof (luhn_total_insert (<[S i := a]> ds) i a b Hi') as E2.
  rewrite length_insert in E2.
  replace (length ds - 1 - i) with (S (length ds - 1 - S i)) in E2 by lia.
  rewrite Nat.odd_succ, <- Nat.negb_odd in E2.
  set (dbl := Nat.odd (length ds - 1 - S i)) in *.
  rewrite <- (luhn_weight_swap dbl a b Ha Hb).
  apply (mod10_cancel _ (luhn_total ds)); [lia | done].
Qed.

(** X26.  In a string of 13 to 19 decimal digits that [is_credit_card]
    accepts, swapping two different neighbouring digits gives a string it
    rejects, unless the two digits are 0 and 9: that swap it accepts. *)
Theorem luhn_adjacent_transposition (s : string) (i : nat) (a b : ascii) :
  str_all is_decimal s = true →
  13 ≤ String.length s ≤ 19 →
  is_credit_card s = Some true →
  list_ascii_of_string s !! i = Some a →
  list_ascii_of_string s !! S i = Some b →
  a ≠ b →
  is_credit_card (set_chr i b (set_chr (S i) a s))
  = Some (bool_decide ((a = "0"%char ∧ b = "9"%char) ∨ (a = "9"%char ∧ b = "0"%char))).
Proof.
  intros Hall Hlen Hok Hi HSi Hne.
  rewrite is_credit_card_decimal in Hok by done.
  injection Hok as Hmod. apply Nat.eqb_eq in Hmod.
  pose proof (str_all_lookup _ _ _ _ Hall Hi) as Hda.
  pose proof (str_all_lookup _ _ _ _ Hall HSi) as Hdb.
  rewrite is_credit_card_decimal;
    [|by repeat apply str_all_set_chr | by rewrite !length_set_chr].
  f_equal. rewrite !digit_values_set_chr.
  pose proof (luhn_total_swap (digit_values s) i (digit_value a) (digit_value b)) as Hswap.
  unfold digit_values in Hswap at 1 2. rewrite !list_lookup_fmap, Hi, HSi in Hswap.
  specialize (Hswap eq_refl eq_refl (digit_value_lt_10 a Hda) (digit_value_lt_10 b Hdb) Hmod).
  assert (Hzero : ∀ c, is_decimal c = true → digit_value c = 0 ↔ c = "0"%char).
  { intros c Hc. split; [|by intros ->].
    intros Hv. by apply (digit_value_inj c "0"). }
  assert (Hnine : ∀ c, is_decimal c = true → digit_value c = 9 ↔ c = "9"%char).
  { intros c Hc. split; [|by intros ->].
    intros Hv. by apply (digit_value_inj c "9"). }
  destruct (decide ((a = "0"%char ∧ b = "9"%char) ∨ (a = "9"%char ∧ b = "0"%char)))
    as [Hyes|Hno].
  - rewrite bool_decide_eq_true_2 by done. apply Nat.eqb_eq, Hswap.
    right. rewrite (Hzero a Hda), (Hnine b Hdb), (Hnine a Hda), (Hzero b Hdb).
    destruct Hyes; [by left | by right].
  - rewrite bool_decide_eq_false_2 by done. apply Nat.eqb_neq. intros H0.
    apply Hswap in H0 as [Heq|H0].
    + apply Hne. by apply digit_value_inj.
    + apply Hno.
      rewrite (Hzero a Hda), (Hnine b Hdb), (Hnine a Hda), (Hzero b Hdb) in H0.
      destruct H0; [by left | by right].
Qed.

Lemma luhn_adjacent_transposition_witness :
  is_credit_card (set_chr 13 "6" (set_chr 14 "3" visa_sample)) = Some false.
Proof.
  apply (luhn_adjacent_transposition visa_sample 13 "3" "6");
    first [reflexivity | (vm_compute; lia) | (intros H; discriminate H)].
Defined.

(** ** Strings of digits *)

Lemma strip_decimal (s : string) : str_all is_decimal s = true → strip s = s.
Proof.
  intros Hall.
  assert (Hns : ∀ c, is_decimal c = true → is_space c = false).
  { intros c Hc. destruct (is_space c) eqn:E; [|done]. exfalso.
    assert (Hcheck : forallb (λ c, negb (is_decimal c && is_space c)) all_ascii = true)
      by by vm_compute.
    rewrite forallb_forall in Hcheck. specialize (Hcheck c (elem_of_all_ascii c)).
    by rewrite Hc, E in Hcheck. }
  unfold strip.
  assert (lstrip s = s) as ->.
  { destruct s as [|c s]; [done|]. cbn in Hall. apply andb_prop in Hall as [Hc _].
    cbn [lstrip]. by rewrite (Hns c Hc). }
  induction s as [|c s IH]; [done|]. cbn in Hall. apply andb_prop in Hall as [Hc Hs].
  cbn [rstrip]. rewrite (Hns c Hc). cbn [andb]. by rewrite (IH Hs).
Qed.

(** A pattern that needs a character other than a digit matches no string
    of digits. *)
Lemma re_match_decimal_false (r : regex) (v : string) :
  consumes (λ c, negb (is_decimal c)) r = true →
  str_all is_decimal v = true → re_match r v = false.
Proof.
  intros Hc Hall. apply not_true_is_false. intros Hm.
  apply (accept_decomposes (λ c, negb (is_decimal c))) in Hm
    as (h & rest & -> & _ & Hq & _ & _).
  specialize (Hq Hc). rewrite str_any_negb in Hq.
  rewrite str_all_app in Hall. apply andb_prop in Hall as [Hh _].
  by rewrite Hh in Hq.
Qed.

(** [^\d{lo,hi}$] on a string of digits tests its length. *)
Lemma re_match_digits (lo hi : nat) (v : string) :
  str_all is_decimal v = true →
  re_match (Cat (Rep digit lo (Some hi)) Dollar) v
  = bool_decide (lo ≤ String.length v ≤ hi).
Proof.
  intros Hall. apply eq_true_iff_eq. rewrite bool_decide_eq_true.
  change (re_match (Cat (Rep digit lo (Some hi)) Dollar) v)
    with (rep_loop (accept (Chr is_decimal)) (λ s', accept Dollar s' (λ _, true))
                   (S (lo + String.length v)) lo (Some hi) v).
  rewrite rep_loop_chr by lia. cbn [accept]. split.
  - intros (h & rest & -> & Hlo & Hhi & _ & Hk). specialize (Hhi hi eq_refl).
    rewrite str_all_app in Hall. apply andb_prop in Hall as [_ Hrest].
    destruct rest as [|c [|d rest]]; [|exfalso|by cbn in *].
    + rewrite length_str_app. cbn. lia.
    + cbn in Hk, Hrest. rewrite andb_true_r in Hk, Hrest.
      apply chr_eqb_eq in Hk as <-. done.
  - intros [Hlo Hhi]. exists v, "".
    split; [apply str_app_nil_r|]. split; [done|]. split; [by intros x [= <-]|]. done.
Qed.

(** X27.  What the registry makes of a string of decimal digits: a phone
    number when it has 10 digits, an SSN when it has 9, a ZIP code when it
    has 5, and an account number whenever it has 8 to 16, on top of the
    others; so every SSN and phone number written without separators is also
    reported as an account number. *)
Theorem digit_strings_detected (value : string) :
  str_all is_decimal value = true →
  detect_pii_in_value value
  = ((if decide (String.length value = 10) then [(PHONE, PLAINTEXT)] else [])
     ++ (if decide (String.length value = 9) then [(SSN, PLAINTEXT)] else [])
     ++ (if decide (String.length value = 5) then [(ZIP_CODE, PLAINTEXT)] else [])
     ++ (if decide (8 ≤ String.length value ≤ 16)
         then [(ACCOUNT_NUMBER, PLAINTEXT)] else []))%list.
Proof.
  intros Hall. unfold detect_pii_in_value. rewrite (strip_decimal value Hall).
  destruct value as [|c0 v0] eqn:Ev; [done|]. rewrite <- Ev in *. cbn [is_empty].
  assert (is_empty value = false) as -> by by rewrite Ev.
  cbv zeta.
  pose proof (re_match_decimal_false) as Hno.
  pose proof (λ lo hi, re_match_digits lo hi value Hall) as Hdig.
  assert (Hstar : contains_chr "*" value = false)
    by by apply (contains_chr_all is_decimal).
  assert (HX : contains_chr "X" value = false)
    by by apply (contains_chr_all is_decimal).
  assert (Hhash : String.length value ≤ 16 → re_match hash_pattern value = false).
  { intros Hlen. apply not_true_is_false.
    intros (h & rest & Hv & _ & [Hlo _] & _)%hash_pattern_match.
    apply (f_equal String.length) in Hv. rewrite length_str_app in Hv. lia. }
  unfold MATCHERS. cbn [omap list_omap pii_type matches detect_masking].
  unfold EmailMatcher.matches, PhoneMatcher.matches, SSNMatcher.matches,
    IPAddressMatcher.matches, ZipCodeMatcher.matches, DOBMatcher.matches,
    AccountNumberMatcher.matches.
  rewrite (strip_decimal value Hall). cbv zeta.
  unfold PhoneMatcher.patterns, PhoneMatcher.masked_patterns, SSNMatcher.patterns,
    SSNMatcher.masked_patterns, ZipCodeMatcher.patterns, DOBMatcher.patterns.
  cbn [existsb].
  repeat match goal with
  | |- context [re_match ?r value] =>
      first [ rewrite (Hno r value ltac:(by vm_compute) Hall)
            | rewrite (Hdig _ _ : re_match r value = _) ]
  end.
  cbn [orb andb].
  unfold PhoneMatcher.detect_masking, SSNMatcher.detect_masking,
    ZipCodeMatcher.detect_masking, AccountNumberMatcher.detect_masking.
  rewrite Hstar, HX. cbn [orb].
  repeat match goal with
  | |- context [if ?b then PLAINTEXT else PLAINTEXT] =>
      replace (if b then PLAINTEXT else PLAINTEXT) with PLAINTEXT by by destruct b
  end.
  destruct (decide (String.length value ≤ 16)) as [Hle|Hgt].
  - rewrite (Hhash Hle).
    repeat case_decide; try lia;
      repeat (first [ rewrite bool_decide_eq_true_2 by lia
                    | rewrite bool_decide_eq_false_2 by lia ]);
      cbn [orb andb]; reflexivity.
  - repeat (rewrite bool_decide_eq_false_2 by lia).
    repeat (rewrite decide_False by lia). cbn [orb andb]. reflexivity.
Qed.

Lemma digit_strings_detected_witness :
  detect_pii_in_value "123456789" = [(SSN, PLAINTEXT); (ACCOUNT_NUMBER, PLAINTEXT)].
Proof.
  rewrite (digit_strings_detected "123456789") by reflexivity. reflexivity.
Defined.

(** ** Sources and sinks *)


